(** * dhcpeterd: the DHCPv4 handler of [internal/dhcp4d/dhcp4d.go]

    A shallow embedding of the lease database, the allocation policy and
    the DISCOVER / REQUEST / DECLINE state machine, with the properties
    that the specification states about them.

    Conventions of the embedding.
    - Go's [int] is the 64-bit one; offsets are [Z] and never leave the
      range where 64-bit arithmetic is exact (they are differences of two
      32-bit numbers).  [uint32] arithmetic is written with its wrap-around.
    - [net.IP], [net.HardwareAddr] and option values are byte slices:
      [list byte].  A nil slice is the empty list; the only place where Go
      tells nil from empty, the lookup of an absent option, is an [option].
    - [time.Time] is an instant counted in nanoseconds from Go's zero
      instant, so [IsZero] is the comparison with [0]; [time.Duration] is a
      number of nanoseconds.
    - The handler is a mutable object whose methods read two clocks (the
      injected [h.timeNow] and the process clock [time.Now]), draw from the
      process-wide random source and call the [Leases] observer.  These are
      effects of a small state monad over [World]; a run-time panic of Go is
      the outcome [Panic]. *)

From Stdlib Require Import ZArith List String Ascii Lia Bool.
From Stdlib.Strings Require Import Byte.
From stdpp Require Import base option list gmap strings fin_maps.

Local Open Scope Z_scope.

(** ** Bytes, slices and big-endian words *)

Definition byteZ (b : byte) : Z := Z.of_N (Byte.to_N b).

Definition Zbyte (z : Z) : byte :=
  match Byte.of_N (Z.to_N (z mod 256)) with
  | Some b => b
  | None => x00
  end.

#[global] Instance byte_eq_decision : EqDecision byte := Byte.byte_eq_dec.

(** [bytes.Equal] / [bytealg.Equal] *)
Definition bytes_Equal (a b : list byte) : bool := bool_decide (a = b).

(** The builtin [copy(dst, src)]. *)
Definition copy (dst src : list byte) : list byte :=
  take (length dst) src ++ drop (length src) dst.

(** [binary.BigEndian.Uint32]: indexes [b[3]] first, so it panics on a
    slice shorter than four bytes; longer slices are read on their first
    four bytes. *)
Definition Uint32 (b : list byte) : option Z :=
  match b with
  | b0 :: b1 :: b2 :: b3 :: _ =>
      Some (Z.lor (Z.lor (Z.lor (byteZ b3) (Z.shiftl (byteZ b2) 8))
                         (Z.shiftl (byteZ b1) 16))
                  (Z.shiftl (byteZ b0) 24))
  | _ => None
  end.

(** [binary.BigEndian.PutUint32] into a fresh four-byte slice. *)
Definition PutUint32 (v : Z) : list byte :=
  [Zbyte (Z.shiftr v 24); Zbyte (Z.shiftr v 16); Zbyte (Z.shiftr v 8); Zbyte v].

(** Conversion [uint32(x)] of an [int]. *)
Definition uint32 (x : Z) : Z := x mod 2 ^ 32.

(** ** [net.IP] *)

Definition IP := list byte.

Definition v4InV6Prefix : list byte :=
  [x00; x00; x00; x00; x00; x00; x00; x00; x00; x00; xff; xff].

(** [net.IPv4(a, b, c, d)]: the 16-byte form. *)
Definition IPv4 (a b c d : byte) : IP := v4InV6Prefix ++ [a; b; c; d].

Definition IPv4zero : IP := IPv4 x00 x00 x00 x00.
Definition IPv4bcast : IP := IPv4 xff xff xff xff.

(** [IP.To4]: the four-byte form, or nil when the address is not IPv4. *)
Definition To4 (ip : IP) : IP :=
  if (length ip =? 4)%nat then ip
  else if (length ip =? 16)%nat && bytes_Equal (take 12 ip) v4InV6Prefix
       then drop 12 ip
       else [].

(** [IP.Equal]: an IPv4 address and its 16-byte form are the same address. *)
Definition IP_Equal (ip x : IP) : bool :=
  if (length ip =? length x)%nat then bytes_Equal ip x
  else if (length ip =? 4)%nat && (length x =? 16)%nat
       then bytes_Equal (take 12 x) v4InV6Prefix && bytes_Equal ip (drop 12 x)
  else if (length ip =? 16)%nat && (length x =? 4)%nat
       then bytes_Equal (take 12 ip) v4InV6Prefix && bytes_Equal (drop 12 ip) x
  else false.

(** ** The helpers of [github.com/krolaw/dhcp4] the handler calls

    [IPRange(start, stop)] "returns how many ips in the ip range from start
    to stop (inclusive)": [int(Uint32(stop.To4())) - int(Uint32(start.To4())) + 1].
    [IPAdd(start, add)] is [start + add] on 32 bits:
    [PutUint32(result, Uint32(start.To4()) + uint32(add))].
    Both panic when [To4] yields nil. *)

Definition IPRange (start stop : IP) : option Z :=
  match Uint32 (To4 stop), Uint32 (To4 start) with
  | Some e, Some s => Some (e - s + 1)
  | _, _ => None
  end.

Definition IPAdd (start : IP) (add : Z) : option IP :=
  match Uint32 (To4 start) with
  | Some s => Some (PutUint32 (uint32 (s + uint32 add)))
  | None => None
  end.

Definition ip (a b c d : Z) : IP := [Zbyte a; Zbyte b; Zbyte c; Zbyte d].

(** ** [time.Time] and [time.Duration] *)

Definition Time := Z.
Definition Duration := Z.

Definition Second : Duration := 1000000000.
Definition Minute : Duration := 60 * Second.
Definition Hour : Duration := 60 * Minute.

Definition IsZero (t : Time) : bool := t =? 0.
Definition After (t u : Time) : bool := u <? t.
Definition Before (t u : Time) : bool := t <? u.
Definition Add (t : Time) (d : Duration) : Time := t + d.

(** [const leasePeriod = 20 * time.Minute] *)
Definition leasePeriod : Duration := 20 * Minute.

(** ** Strings: the pieces of [strings], [encoding/hex] and [net] in use *)

Definition string_eqb (a b : string) : bool := bool_decide (a = b).

Definition is_upper (c : ascii) : bool :=
  let n := nat_of_ascii c in (65 <=? n)%nat && (n <=? 90)%nat.

(** The strings [strings.ToLower] handles byte by byte: those without a
    byte of 0x80 or more. *)
Definition isASCII (s : string) : bool :=
  forallb (fun c => (nat_of_ascii c <? 128)%nat) (list_ascii_of_string s).

(** [strings.ToLower] has a path of its own for a string of ASCII bytes
    only, on which it maps the letters [A-Z] to [a-z] and keeps the other
    bytes; a string with a byte of 0x80 or more goes through
    [unicode.ToLower], rune by rune.  [ToLower] is the ASCII path.  The
    handler applies [strings.ToLower] to the text of a [chaddr], which is
    ASCII, and to the hardware addresses of the configuration: what is
    stated about keys made from the latter assumes [isASCII] of them. *)
Fixpoint ToLower (s : string) : string :=
  match s with
  | EmptyString => EmptyString
  | String c r =>
      String (if is_upper c then ascii_of_nat (nat_of_ascii c + 32) else c)
             (ToLower r)
  end.

(** [strings.ReplaceAll(s, ":", "")] *)
Fixpoint removeColons (s : string) : string :=
  match s with
  | EmptyString => EmptyString
  | String c r =>
      if Ascii.eqb c ":" then removeColons r else String c (removeColons r)
  end.

(** [reverseHexTable] of [encoding/hex]: the value of a hexadecimal digit
    of either case; [None] stands for the entry [0xff]. *)
Definition fromHexChar (c : ascii) : option Z :=
  let n := Z.of_nat (nat_of_ascii c) in
  if (48 <=? n) && (n <=? 57) then Some (n - 48)
  else if (97 <=? n) && (n <=? 102) then Some (n - 97 + 10)
  else if (65 <=? n) && (n <=? 70) then Some (n - 65 + 10)
  else None.

(** [hex.DecodeString]: [None] is a non-nil error ([InvalidByteError] or
    [ErrLength]); the decoded prefix returned next to the error is not
    used by the caller. *)
Fixpoint DecodeString (s : string) : option (list byte) :=
  match s with
  | EmptyString => Some []
  | String p EmptyString => None
  | String p (String q r) =>
      match fromHexChar p, fromHexChar q with
      | Some a, Some b =>
          match DecodeString r with
          | Some bs => Some (Zbyte (Z.lor (Z.shiftl a 4) b) :: bs)
          | None => None
          end
      | _, _ => None
      end
  end.

(** [hexDigit] of package [net]: ["0123456789abcdef"[n]]. *)
Definition hexDigit (n : Z) : ascii :=
  if n <? 10 then ascii_of_nat (Z.to_nat (48 + n))
  else ascii_of_nat (Z.to_nat (97 + n - 10)).

(** [net.HardwareAddr.String]: lower-case hexadecimal, colon separated. *)
Fixpoint hwString_from (first : bool) (a : list byte) : string :=
  match a with
  | [] => EmptyString
  | b :: r =>
      let digits :=
        String (hexDigit (Z.shiftr (byteZ b) 4))
               (String (hexDigit (Z.land (byteZ b) 15)) (hwString_from false r)) in
      if first then digits else String ":" digits
  end.

Definition HardwareAddr_String (a : list byte) : string := hwString_from true a.

(** [bytes.Compare]: lexicographic order on byte slices. *)
Fixpoint bytes_Compare (a b : list byte) : Z :=
  match a, b with
  | [], [] => 0
  | [], _ :: _ => -1
  | _ :: _, [] => 1
  | x :: a', y :: b' =>
      if byteZ x <? byteZ y then -1
      else if byteZ y <? byteZ x then 1
      else bytes_Compare a' b'
  end.

(** [sort.Search(n, f)]: the loop [for i < j] halves the interval [i, j)
    at each turn, so [n + 1] turns of fuel are never exhausted
    (see [Search_spec]). *)
Fixpoint Search_loop (fuel : nat) (f : Z -> bool) (i j : Z) : Z :=
  match fuel with
  | O => i
  | S fuel' =>
      if i <? j then
        let h := Z.shiftr (i + j) 1 in
        if negb (f h) then Search_loop fuel' f (h + 1) j
        else Search_loop fuel' f i h
      else i
  end.

Definition Search (n : Z) (f : Z -> bool) : Z :=
  Search_loop (S (Z.to_nat n)) f 0 n.

(** ** The data model *)

Record Lease := mkLease {
  Num : Z;                     (* relative to Handler.start *)
  Addr : IP;
  HardwareAddr : string;
  Hostname : string;
  HostnameOverride : string;
  Expiry : Time;
  LastACK : Time
}.

Record StaticLease := mkStaticLease {
  sl_Addr : IP;
  sl_HardwareAddr : string;
  sl_Hostname : string
}.

(** Assignments to the fields of a lease. *)
Definition set_Hostname (v : string) (l : Lease) : Lease :=
  mkLease (Num l) (Addr l) (HardwareAddr l) v (HostnameOverride l) (Expiry l) (LastACK l).
Definition set_HostnameOverride (v : string) (l : Lease) : Lease :=
  mkLease (Num l) (Addr l) (HardwareAddr l) (Hostname l) v (Expiry l) (LastACK l).
Definition set_Expiry (v : Time) (l : Lease) : Lease :=
  mkLease (Num l) (Addr l) (HardwareAddr l) (Hostname l) (HostnameOverride l) v (LastACK l).
Definition set_LastACK (v : Time) (l : Lease) : Lease :=
  mkLease (Num l) (Addr l) (HardwareAddr l) (Hostname l) (HostnameOverride l) (Expiry l) v.

Definition Expired (l : Lease) (at_ : Time) : bool :=
  negb (IsZero (Expiry l)) && After at_ (Expiry l).

Definition Active (l : Lease) (at_ : Time) : bool :=
  negb (IsZero (LastACK l)) && Before at_ (Add (LastACK l) leasePeriod).

(** [dhcp4.Options] is [map[OptionCode][]byte]. *)
Definition OptionCode := Z.
Definition OptionSubnetMask : OptionCode := 1.
Definition OptionRouter : OptionCode := 3.
Definition OptionDomainNameServer : OptionCode := 6.
Definition OptionHostName : OptionCode := 12.
Definition OptionRequestedIPAddress : OptionCode := 50.
Definition OptionServerIdentifier : OptionCode := 54.
Definition OptionParameterRequestList : OptionCode := 55.

(** The injected clock [timeNow func() time.Time]: [None] is the default
    [time.Now] that [NewHandler] installs; [Some c] is a clock put in its
    place, whose [k]-th call returns [c k]. *)
Record Handler := mkHandler {
  serverIP : IP;
  start : IP;                          (* first IP address to hand out *)
  leaseRange : Z;                      (* number of IP addresses to hand out *)
  LeasePeriod : Duration;
  options : gmap Z (list byte);
  timeNow : option (nat -> Time);
  staticLeases : gmap string StaticLease;
  reservedOffsets : gset Z;
  Leases : bool;                       (* the observer is not nil *)
  leasesHW : gmap string Z;            (* points into leasesIP *)
  leasesIP : gmap Z Lease
}.

Definition set_leasesHW (m : gmap string Z) (h : Handler) : Handler :=
  mkHandler (serverIP h) (start h) (leaseRange h) (LeasePeriod h) (options h)
            (timeNow h) (staticLeases h) (reservedOffsets h) (Leases h)
            m (leasesIP h).

Definition set_leasesIP (m : gmap Z Lease) (h : Handler) : Handler :=
  mkHandler (serverIP h) (start h) (leaseRange h) (LeasePeriod h) (options h)
            (timeNow h) (staticLeases h) (reservedOffsets h) (Leases h)
            (leasesHW h) m.

(** The request as the handler reads it: [p.CIAddr()], [p.CHAddr()] and
    [p.Broadcast()]. *)
Record Packet := mkPacket {
  CIAddr : IP;
  CHAddr : list byte;
  Broadcast : bool
}.

Inductive MessageType :=
  Discover | Offer | Request | Decline | ACK | NAK | Release | Inform.

#[global] Instance MessageType_eq_decision : EqDecision MessageType.
Proof. solve_decision. Defined.

(** The packet [dhcp4.ReplyPacket(req, mt, serverId, yIAddr, leaseDuration,
    options)] builds, by what is read from it: the message type, the server
    identifier, the field [yiaddr] as [reply.YIAddr()] returns it, the
    lease duration and the options appended.  [ReplyPacket] sets [yiaddr]
    with [copy(p.YIAddr(), yIAddr)] into the four zero bytes of a new
    packet, so a nil [yIAddr] leaves 0.0.0.0. *)
Record Reply := mkReply {
  replyType : MessageType;
  replyServer : IP;
  YIAddr : IP;
  leaseDuration : Duration;
  replyOptions : list (Z * list byte)
}.

Definition ReplyPacket (req : Packet) (mt : MessageType) (serverId yIAddr : IP)
    (d : Duration) (opts : list (Z * list byte)) : Reply :=
  mkReply mt serverId (copy (replicate 4 x00) yIAddr) d opts.



(** The frame [ServeDHCP] writes to the raw connection. *)
Record Frame := mkFrame {
  DstMAC : list byte;
  DstIP : IP;
  Payload : Reply
}.

(** ** The world the handler runs in, and the monad of its methods *)

Record World := mkWorld {
  hdl : Handler;
  clockCalls : nat;                    (* calls made to an injected clock *)
  wallClock : nat -> Time;             (* time.Now(), call after call *)
  wallCalls : nat;
  randSource : nat -> Z;               (* the process-wide random source *)
  randCalls : nat;
  published : list (list Lease * Lease);   (* calls of h.Leases, oldest first *)
  sent : list Frame                    (* frames written, oldest first *)
}.

Inductive Outcome (A : Type) : Type :=
| Done (a : A) (w : World)
| Panic.
Arguments Done {A} a w.
Arguments Panic {A}.

Definition Go (A : Type) : Type := World -> Outcome A.

Definition ret {A} (a : A) : Go A := fun w => Done a w.

Definition bind {A B} (m : Go A) (k : A -> Go B) : Go B :=
  fun w => match m w with
           | Done a w' => k a w'
           | Panic => Panic
           end.

Definition panic {A} : Go A := fun _ => Panic.

Notation "'let*' x ':=' m 'in' k" := (bind m (fun x => k))
  (at level 10, x name, m at level 200, k at level 200, only parsing).

(** A library call that panics when its result is [None]. *)
Definition orPanic {A} (o : option A) : Go A :=
  match o with Some a => ret a | None => panic end.

Definition this : Go Handler := fun w => Done (hdl w) w.

Definition with_hdl (h : Handler) (w : World) : World :=
  mkWorld h (clockCalls w) (wallClock w) (wallCalls w)
          (randSource w) (randCalls w) (published w) (sent w).

Definition update (f : Handler -> Handler) : Go unit :=
  fun w => Done tt (with_hdl (f (hdl w)) w).

(** [time.Now()] *)
Definition time_Now : Go Time :=
  fun w => Done (wallClock w (wallCalls w))
                (mkWorld (hdl w) (clockCalls w) (wallClock w) (S (wallCalls w))
                         (randSource w) (randCalls w) (published w) (sent w)).

(** [h.timeNow()] *)
Definition call_timeNow : Go Time :=
  fun w => match timeNow (hdl w) with
           | None => time_Now w
           | Some c =>
               Done (c (clockCalls w))
                    (mkWorld (hdl w) (S (clockCalls w)) (wallClock w) (wallCalls w)
                             (randSource w) (randCalls w) (published w) (sent w))
           end.

(** [rand.Intn(n)]: a number of [[0, n)]; panics when [n <= 0]. *)
Definition rand_Intn (n : Z) : Go Z :=
  fun w => if n <=? 0 then Panic
           else Done (randSource w (randCalls w) mod n)
                     (mkWorld (hdl w) (clockCalls w) (wallClock w) (wallCalls w)
                              (randSource w) (S (randCalls w)) (published w) (sent w)).

(** A call [h.Leases(leases, lease)] of the observer. *)
Definition call_Leases (leases : list Lease) (lease : Lease) : Go unit :=
  fun w => Done tt (mkWorld (hdl w) (clockCalls w) (wallClock w) (wallCalls w)
                            (randSource w) (randCalls w)
                            (published w ++ [(leases, lease)]) (sent w)).

(** [h.rawConn.WriteTo] *)
Definition WriteTo (f : Frame) : Go unit :=
  fun w => Done tt (mkWorld (hdl w) (clockCalls w) (wallClock w) (wallCalls w)
                            (randSource w) (randCalls w) (published w)
                            (sent w ++ [f])).

(** ** The handler *)

Section Handler.

(** Two things the methods use are not part of the handler's file: the
    package variable [nintendoMacPrefixes] (an array of [[3]byte], the
    Vendor Prefix Table) and [net.ParseIP] of the standard library
    ([None] is its nil result). *)
Variable nintendoMacPrefixes : list (byte * byte * byte).
Variable ParseIP : string -> option IP.

(** [nintendoMacPrefixes[i][:]]; indexing past the end panics, which
    [leasePeriodForDevice] rules out before it indexes. *)
Definition prefix_slice (i : Z) : list byte :=
  match nintendoMacPrefixes !! Z.to_nat i with
  | Some (a, b, c) => [a; b; c]
  | None => []
  end.

(** The error value of a method: [None] is nil. *)
Definition error := option string.

Inductive Created :=
| Built (h : Handler)
| Failed (e : string)
| Crashed.

Fixpoint parse_dns (dnsServers : list string) (acc : list byte)
  : string + list byte :=
  match dnsServers with
  | [] => inr acc
  | s :: r =>
      match ParseIP s with
      | None => inl ("parse dns ip error invalid: " ++ s)%string
      | Some dnsIP => parse_dns r (acc ++ To4 dnsIP)
      end
  end.

(** The loop of [NewHandler] over the static leases. *)
Fixpoint add_static (startIP : IP) (sls : list StaticLease)
    (acc : gmap string StaticLease * gset Z)
  : option (gmap string StaticLease * gset Z) :=
  match sls with
  | [] => Some acc
  | sl :: r =>
      match IPRange startIP (sl_Addr sl) with
      | Some i =>
          add_static startIP r
            (<[ToLower (sl_HardwareAddr sl) := sl]> (fst acc), {[i]} ∪ snd acc)
      | None => None
      end
  end.

(** [NewHandler], after the connection is open. *)
Definition NewHandler (serverIP0 startIP0 netMask0 : IP) (leaseRange0 : Z)
    (leasePeriod0 : Duration) (dnsServers : list string)
    (staticLeases0 : list StaticLease) : Created :=
  let serverIP := To4 serverIP0 in
  let netMask := To4 netMask0 in
  let startIP := To4 startIP0 in
  match parse_dns dnsServers [] with
  | inl e => Failed e
  | inr dnsServerIPs =>
      match add_static startIP staticLeases0 (∅, ∅) with
      | None => Crashed
      | Some (staticLeaseMap, reserved) =>
          Built {| serverIP := serverIP;
                   start := startIP;
                   leaseRange := leaseRange0;
                   LeasePeriod := leasePeriod0;
                   options := <[OptionSubnetMask := netMask]>
                              (<[OptionRouter := serverIP]>
                              (<[OptionDomainNameServer := dnsServerIPs]>
                              (<[OptionServerIdentifier := serverIP]> ∅)));
                   timeNow := None;
                   staticLeases := staticLeaseMap;
                   reservedOffsets := reserved;
                   Leases := false;
                   leasesHW := ∅;
                   leasesIP := ∅ |}
      end
  end.

(** [SetLeases]: the loop inserts each lease under its own [Num]. *)
Fixpoint restore (leases : list Lease) (hw : gmap string Z) (ips : gmap Z Lease)
  : gmap string Z * gmap Z Lease :=
  match leases with
  | [] => (hw, ips)
  | l :: r =>
      let l' := if IsZero (LastACK l) then set_LastACK (Expiry l) l else l in
      restore r (<[HardwareAddr l' := Num l']> hw) (<[Num l' := l']> ips)
  end.

Definition SetLeases (leases : list Lease) : Go unit :=
  let '(hw, ips) := restore leases ∅ ∅ in
  let* _ := update (set_leasesHW hw) in
  update (set_leasesIP ips).

(** The snapshot [callLeasesLocked] collects by ranging over [leasesIP]
    (Go leaves the order of the range unspecified; here it is the order in
    which the map enumerates its entries). *)
Definition snapshot (h : Handler) : list Lease := (map_to_list (leasesIP h)).*2.

Definition callLeasesLocked (lease : Lease) : Go unit :=
  let* h := this in
  if negb (Leases h) then ret tt
  else call_Leases (snapshot h) lease.

Definition no_valid_lease (hwaddr : string) : string :=
  ("hwaddr " ++ hwaddr ++ " does not have a valid lease")%string.

(** [SetHostname].  [h.leasesHW[hwaddr]] is [0] for a missing key and
    [h.leasesIP[leaseNum]] is nil for a missing key; reading
    [lease.HardwareAddr] through the nil pointer panics.  The two
    assignments go through the pointer, so they change the lease stored
    under [leaseNum]. *)
Definition SetHostname (hwaddr hostname : string) : Go error :=
  let* h := this in
  let leaseNum := default 0 (leasesHW h !! hwaddr) in
  match leasesIP h !! leaseNum with
  | None => panic
  | Some lease =>
      if negb (string_eqb (HardwareAddr lease) hwaddr)
      then ret (Some (no_valid_lease hwaddr))
      else
        let* now := call_timeNow in
        if Expired lease now then ret (Some (no_valid_lease hwaddr))
        else
          let lease' := set_HostnameOverride hostname (set_Hostname hostname lease) in
          let* _ := update (fun h => set_leasesIP (<[leaseNum := lease']> (leasesIP h)) h) in
          let* _ := callLeasesLocked lease' in
          ret None
  end.

(** The test of [findLease] on an offset: vacant or expired, and not
    reserved. *)
Definition available (h : Handler) (now : Time) (i : Z) : bool :=
  match leasesIP h !! i with
  | None => true
  | Some l => Expired l now
  end.

Definition reserved (h : Handler) (i : Z) : bool :=
  bool_decide (i ∈ reservedOffsets h).

(** [for i := 0; i < h.leaseRange; i++] with [n] turns left. *)
Fixpoint scan (h : Handler) (now : Time) (n : nat) (i : Z) : Z :=
  match n with
  | O => -1
  | S n' =>
      if available h now i && negb (reserved h i) then i
      else scan h now n' (i + 1)
  end.

Definition findLease : Go Z :=
  let* h := this in
  let* now := call_timeNow in
  if Z.of_nat (size (leasesIP h)) <? leaseRange h then
    let* i := rand_Intn (leaseRange h) in
    if available h now i && negb (reserved h i) then ret i
    else ret (scan h now (Z.to_nat (leaseRange h)) 0)
  else ret (-1).

Definition canLease (reqIP : IP) (hwaddr : string) : Go Z :=
  let* h := this in
  if negb (length reqIP =? 4)%nat || IP_Equal reqIP IPv4zero then ret (-1)
  else
    let* r := orPanic (IPRange (start h) reqIP) in
    let leaseNum := r - 1 in
    if leaseNum <? 0 then ret (-1)
    else
      match leasesIP h !! leaseNum with
      | None =>
          if leaseNum >=? leaseRange h then ret (-1)
          else ret leaseNum                         (* lease available *)
      | Some l =>
          if string_eqb (HardwareAddr l) hwaddr
          then ret leaseNum                         (* lease already owned by requestor *)
          else if leaseNum >=? leaseRange h then ret (-1)
          else
            let* now := call_timeNow in
            if Expired l now then ret leaseNum      (* lease expired *)
            else ret (-1)                           (* lease unavailable *)
      end.

(** [leaseHW]: the pointer found (nil is [None]) and whether it is the
    lease of [hwAddr]. *)
Definition leaseHW (hwAddr : string) : Go (option Lease * bool) :=
  let* h := this in
  match leasesHW h !! hwAddr with
  | None => ret (None, false)
  | Some num =>
      match leasesIP h !! num with
      | None => ret (None, false)
      | Some l => ret (Some l, string_eqb (HardwareAddr l) hwAddr)
      end
  end.

Definition leasePeriodForDevice (h : Handler) (hwAddr : string) : Duration :=
  match DecodeString (removeColons hwAddr) with
  | None => LeasePeriod h
  | Some decoded =>
      if negb (length decoded =? 6)%nat then LeasePeriod h   (* Invalid MAC address *)
      else
        let hwAddrPrefix := take 3 decoded in
        let n := Z.of_nat (length nintendoMacPrefixes) in
        let i := Search n (fun i => bytes_Compare (prefix_slice i) hwAddrPrefix >=? 0) in
        if (i <? n) && bytes_Equal (prefix_slice i) hwAddrPrefix then 1 * Hour
        else LeasePeriod h
  end.

(** [Options.SelectOrderOrAll]: every option when the order is nil, else
    the options named by the order that the table holds, in that order. *)
Definition SelectOrderOrAll (o : gmap Z (list byte)) (order : option (list byte))
  : list (Z * list byte) :=
  match order with
  | None => map_to_list o
  | Some order => omap (fun v => (fun data => (byteZ v, data)) <$> o !! byteZ v) order
  end.

(** [expireLease] expires the lease for [hwAddr] and reports whether or
    not the lease was actually expired by this call.  The assignment
    [l.Expiry = time.Now()] goes through the pointer stored under [num]. *)
Definition expireLease (hwAddr : string) : Go bool :=
  let* h := this in
  match leasesHW h !! hwAddr with
  | None => ret false
  | Some num =>
      match leasesIP h !! num with
      | None => ret false
      | Some l =>
          if negb (string_eqb (HardwareAddr l) hwAddr) then ret false
          else
            let* t := time_Now in
            let* _ := update (fun h => set_leasesIP
                                         (<[num := set_Expiry t l]> (leasesIP h)) h) in
            ret true
      end
  end.

Definition serveDHCP (p : Packet) (msgType : MessageType)
    (opts : gmap Z (list byte)) : Go (option Reply) :=
  let* h := this in
  let reqIP := match opts !! OptionRequestedIPAddress with
               | Some v => v
               | None => CIAddr p
               end in
  let hwAddr := HardwareAddr_String (CHAddr p) in
  match msgType with
  | Discover =>
      let free := -1 in
      (* offer static lease if configured *)
      let* free := match staticLeases h !! ToLower hwAddr with
                   | Some sl => canLease (sl_Addr sl) hwAddr
                   | None => ret free
                   end in
      (* try to offer the requested IP, if any and available *)
      let* free := if (free <? 0) && negb (IP_Equal (To4 reqIP) IPv4zero)
                   then canLease reqIP hwAddr
                   else ret free in
      (* offer previous lease for this HardwareAddr, if any *)
      let* found := leaseHW hwAddr in
      let* free := match found with
                   | (Some lease, true) =>
                       let* now := call_timeNow in
                       if negb (Expired lease now) then ret (Num lease) else ret free
                   | (None, true) => panic
                   | (_, false) => ret free
                   end in
      let* free := if free =? -1 then findLease else ret free in
      if free =? -1 then ret None           (* no free leases *)
      else
        let* yiaddr := orPanic (IPAdd (start h) free) in
        ret (Some (ReplyPacket p Offer (serverIP h) yiaddr
                     (leasePeriodForDevice h hwAddr)
                     (SelectOrderOrAll (options h) (opts !! OptionParameterRequestList))))
  | Request =>
      if match opts !! OptionServerIdentifier with
         | Some server => negb (IP_Equal server (serverIP h))
         | None => false
         end
      then ret None                         (* message not for this dhcp server *)
      else
        let* leaseNum := canLease reqIP hwAddr in
        if leaseNum =? -1 then ret (Some (ReplyPacket p NAK (serverIP h) [] 0 []))
        else
          let* expiry := call_timeNow in
          let* lastACK := call_timeNow in
          let lease :=
            {| Num := leaseNum;
               Addr := copy (replicate 4 x00) (To4 reqIP);
               HardwareAddr := hwAddr;
               Expiry := Add expiry (leasePeriodForDevice h hwAddr);
               Hostname := match opts !! OptionHostName with
                           | Some v => string_of_list_byte v
                           | None => EmptyString
                           end;
               HostnameOverride := EmptyString;
               LastACK := lastACK |} in
          let* found := leaseHW (HardwareAddr lease) in
          let* lease :=
            match found with
            | (Some l, true) =>
                let lease :=
                  if IsZero (Expiry l)
                  then (* Retain permanent lease properties *)
                       set_Hostname (Hostname l) (set_Expiry 0 lease)
                  else lease in
                let lease :=
                  if negb (string_eqb (HostnameOverride l) EmptyString)
                  then set_HostnameOverride (HostnameOverride l)
                         (set_Hostname (HostnameOverride l) lease)
                  else lease in
                (* Release any old leases for this client *)
                let* _ := update (fun h => set_leasesIP (delete (Num l) (leasesIP h)) h) in
                ret lease
            | (None, true) => panic
            | (_, false) => ret lease
            end in
          let* _ := update (fun h => set_leasesIP (<[leaseNum := lease]> (leasesIP h)) h) in
          let* _ := update (fun h => set_leasesHW
                                (<[HardwareAddr lease := leaseNum]> (leasesHW h)) h) in
          let* _ := callLeasesLocked lease in
          ret (Some (ReplyPacket p ACK (serverIP h) reqIP
                       (leasePeriodForDevice h hwAddr)
                       (SelectOrderOrAll (options h) (opts !! OptionParameterRequestList))))
  | Decline =>
      let* _ := expireLease hwAddr in
      (* Decline does not expect an ACK response. *)
      ret None
  | _ => ret None
  end.

(** [ServeDHCP] frames the reply of [serveDHCP] and writes it to the raw
    connection itself; what it returns to the serve loop is always nil. *)
Definition ServeDHCP (p : Packet) (msgType : MessageType)
    (opts : gmap Z (list byte)) : Go (option Reply) :=
  let* reply := serveDHCP p msgType opts in
  match reply with
  | None => ret None                        (* unsupported request *)
  | Some reply =>
      let destMAC := if Broadcast p then [xff; xff; xff; xff; xff; xff] else CHAddr p in
      let destIP := if Broadcast p then IPv4bcast else YIAddr reply in
      let* _ := WriteTo (mkFrame destMAC destIP reply) in
      ret None
  end.

End Handler.

(** ** What the properties are stated with *)

(** The instant the next call [h.timeNow()] returns. *)
Definition peek_timeNow (w : World) : Time :=
  match timeNow (hdl w) with
  | None => wallClock w (wallCalls w)
  | Some c => c (clockCalls w)
  end.

(** The lease that [leaseHW] reports as the one of [hw], if any. *)
Definition heldBy (h : Handler) (hw : string) : option Lease :=
  match leasesHW h !! hw with
  | None => None
  | Some num =>
      match leasesIP h !! num with
      | Some l => if string_eqb (HardwareAddr l) hw then Some l else None
      | None => None
      end
  end.

(** The address a packet asks for: option 50, else [ciaddr]. *)
Definition requested (p : Packet) (opts : gmap Z (list byte)) : IP :=
  match opts !! OptionRequestedIPAddress with
  | Some v => v
  | None => CIAddr p
  end.

(** The handler after a REQUEST of [hw] was granted the offset [n] with
    the lease [lease]: the lease [hw] held is released, the new one is
    stored and indexed. *)
Definition granted (h : Handler) (hw : string) (n : Z) (lease : Lease) : Handler :=
  set_leasesHW (<[hw := n]> (leasesHW h))
    (set_leasesIP (<[n := lease]>
                     (match heldBy h hw with
                      | Some l => delete (Num l) (leasesIP h)
                      | None => leasesIP h
                      end)) h).

(** Only the clocks and the random source advanced: the handler, the
    observer's log and the wire are as before. *)
Definition quiet (w w' : World) : Prop :=
  hdl w' = hdl w ∧ published w' = published w ∧ sent w' = sent w.

(** The word of four bytes, most significant first. *)
Definition word4 (a b c d : byte) : Z :=
  byteZ d + byteZ c * 2 ^ 8 + byteZ b * 2 ^ 16 + byteZ a * 2 ^ 24.

(** Invariant 1 of the specification, on one stored lease and on the
    whole database; a lease is stored under its own [Num]. *)
Definition lease_wf (h : Handler) (l : Lease) : Prop :=
  0 <= Num l < leaseRange h ∧ IPAdd (start h) (Num l) = Some (Addr l).

Definition pool_ok (h : Handler) : Prop :=
  ∀ k l, leasesIP h !! k = Some l → Num l = k ∧ lease_wf h l.

(** The two readings of "the indices agree". *)
Definition indices_agree (h : Handler) : Prop :=
  ∀ hw n, leasesHW h !! hw = Some n →
          ∃ l, leasesIP h !! n = Some l ∧ HardwareAddr l = hw.

Definition indexed (h : Handler) : Prop :=
  ∀ k l, leasesIP h !! k = Some l →
         Num l = k ∧ leasesHW h !! HardwareAddr l = Some k.

(** The offset DISCOVER settles on, from what its steps found: [s] from
    the static lease and [r] from the requested address ([-1] for a step
    that found nothing or did not run), [held] the offset of the client's
    own unexpired lease, [f] from the search. *)
Definition discover_choice (s r : Z) (held : option Z) (f : Z) : Z :=
  let c := match held with
           | Some n => n
           | None => if s <? 0 then r else s
           end in
  if c =? -1 then f else c.

(** "The first non-negative result wins", as the specification words it
    for the first two steps: once the static lease or the requested
    address gave an offset, the OFFER is for [start_ip] plus that offset. *)
Definition discover_first_wins (tbl : list (byte * byte * byte)) : Prop :=
  ∀ w p opts s ws r wr reply w',
    match staticLeases (hdl w) !! ToLower (HardwareAddr_String (CHAddr p)) with
    | Some sl => canLease (sl_Addr sl) (HardwareAddr_String (CHAddr p)) w
    | None => Done (-1) w
    end = Done s ws →
    (if (s <? 0) && negb (IP_Equal (To4 (requested p opts)) IPv4zero)
     then canLease (requested p opts) (HardwareAddr_String (CHAddr p)) ws
     else Done (-1) ws) = Done r wr →
    0 <= s ∨ 0 <= r →
    serveDHCP tbl p Discover opts w = Done (Some reply) w' →
    IPAdd (start (hdl w)) (if 0 <=? s then s else r) = Some (YIAddr reply).


(** [hw] is the text of a 6-byte MAC whose first three bytes are an entry
    of the table. *)
Definition vendor_match (tbl : list (byte * byte * byte)) (hw : string) : Prop :=
  ∃ a b c d e f,
    DecodeString (removeColons hw) = Some [a; b; c; d; e; f] ∧ (a, b, c) ∈ tbl.

(** "Every mutation is published", as the specification words it: an
    operation that changes the handler (a stored lease or an index) while
    an observer is registered calls the observer. *)
Definition every_mutation_published (tbl : list (byte * byte * byte)) : Prop :=
  (∀ w p msgType opts r w',
     Leases (hdl w) = true →
     ServeDHCP tbl p msgType opts w = Done r w' →
     hdl w' ≠ hdl w → published w' ≠ published w)
  ∧ (∀ w hwaddr hostname e w',
       Leases (hdl w) = true →
       SetHostname hwaddr hostname w = Done e w' →
       hdl w' ≠ hdl w → published w' ≠ published w).


(** Every stored lease lies under its own [Num], and that is an offset of
    the pool. *)
Definition in_pool (h : Handler) : Prop :=
  ∀ k l, leasesIP h !! k = Some l → Num l = k ∧ 0 <= Num l < leaseRange h.

Section Traces.

Variable nintendoMacPrefixes : list (byte * byte * byte).

(** The states of a handler: it starts with an empty database or with one
    restored by [SetLeases] that satisfies [I], and then serves packets and
    renames leases. *)
Inductive reachable (I : Handler → Prop) : World → Prop :=
| reach_empty w :
    leasesHW (hdl w) = ∅ → leasesIP (hdl w) = ∅ → reachable I w
| reach_restore w leases w' :
    SetLeases leases w = Done tt w' → I (hdl w') → reachable I w'
| reach_serve w p msgType opts r w' :
    reachable I w →
    ServeDHCP nintendoMacPrefixes p msgType opts w = Done r w' →
    reachable I w'
| reach_hostname w hwaddr hostname e w' :
    reachable I w →
    SetHostname hwaddr hostname w = Done e w' →
    reachable I w'.

(** The client [hw] keeps a lease from [w] on: packets are served, leases
    of other hardware addresses are renamed, and after each packet [leaseHW]
    still finds a lease of [hw]. *)
Inductive holding (hw : string) : World → World → Prop :=
| holding_refl w : holding hw w w
| holding_serve w w1 p msgType opts r w2 :
    holding hw w w1 →
    ServeDHCP nintendoMacPrefixes p msgType opts w1 = Done r w2 →
    is_Some (heldBy (hdl w2) hw) →
    holding hw w w2
| holding_hostname w w1 hwaddr hostname e w2 :
    holding hw w w1 → hwaddr ≠ hw →
    SetHostname hwaddr hostname w1 = Done e w2 →
    holding hw w w2.

(** The first two steps of DISCOVER: the static lease, then the requested
    address when the static lease gave nothing. *)
Definition discoverPreferred (p : Packet) (opts : gmap Z (list byte)) : Go Z :=
  let* h := this in
  let reqIP := match opts !! OptionRequestedIPAddress with
               | Some v => v
               | None => CIAddr p
               end in
  let hwAddr := HardwareAddr_String (CHAddr p) in
  let* free := match staticLeases h !! ToLower hwAddr with
               | Some sl => canLease (sl_Addr sl) hwAddr
               | None => ret (-1)
               end in
  if (free <? 0) && negb (IP_Equal (To4 reqIP) IPv4zero)
  then canLease reqIP hwAddr
  else ret free.

(** The third step of DISCOVER, from the candidate [free]. *)
Definition offerPrevious (hwAddr : string) (free : Z) : Go Z :=
  let* found := leaseHW hwAddr in
  match found with
  | (Some lease, true) =>
      let* now := call_timeNow in
      if negb (Expired lease now) then ret (Num lease) else ret free
  | (None, true) => panic
  | (_, false) => ret free
  end.

(** The end of DISCOVER, from the candidate left by the first three steps. *)
Definition offerOrSearch (h : Handler) (p : Packet) (opts : gmap Z (list byte))
    (free : Z) : Go (option Reply) :=
  let hwAddr := HardwareAddr_String (CHAddr p) in
  let* free := if free =? -1 then findLease else ret free in
  if free =? -1 then ret None
  else
    let* yiaddr := orPanic (IPAdd (start h) free) in
    ret (Some (ReplyPacket p Offer (serverIP h) yiaddr
                 (leasePeriodForDevice nintendoMacPrefixes h hwAddr)
                 (SelectOrderOrAll (options h) (opts !! OptionParameterRequestList)))).

(** The block of REQUEST that inherits from the client's previous lease
    and releases it. *)
Definition inheritAndRelease (lease : Lease) : Go Lease :=
  let* found := leaseHW (HardwareAddr lease) in
  match found with
  | (Some l, true) =>
      let lease :=
        if IsZero (Expiry l)
        then set_Hostname (Hostname l) (set_Expiry 0 lease)
        else lease in
      let lease :=
        if negb (string_eqb (HostnameOverride l) EmptyString)
        then set_HostnameOverride (HostnameOverride l)
               (set_Hostname (HostnameOverride l) lease)
        else lease in
      let* _ := update (fun h => set_leasesIP (delete (Num l) (leasesIP h)) h) in
      ret lease
  | (None, true) => panic
  | (_, false) => ret lease
  end.

End Traces.

(** ** Scenarios

    The configuration of the specification's scenarios: the pool
    10.0.0.10 .. 10.0.0.14 served by 10.0.0.1, with a registered observer. *)

(** Modelled from the spec: the Vendor Prefix Table [nintendoMacPrefixes]
    is declared in a file that is not among the sources; this is a sorted
    sample of it that holds the prefix 00:17:ab the specification names. *)
Definition sample_prefixes : list (byte * byte * byte) :=
  [(x00, x09, xbf); (x00, x17, xab); (x00, x19, x1d)].

Definition pool_handler (clock : option (nat → Time)) : Handler :=
  {| serverIP := ip 10 0 0 1;
     start := ip 10 0 0 10;
     leaseRange := 5;
     LeasePeriod := leasePeriod;
     options := <[OptionServerIdentifier := ip 10 0 0 1]> ∅;
     timeNow := clock;
     staticLeases := ∅;
     reservedOffsets := ∅;
     Leases := true;
     leasesHW := ∅;
     leasesIP := ∅ |}.

(** A world around a handler: the process clock reads [wall k] at its
    [k]-th call and the random source always draws [draw]. *)
Definition world_of (h : Handler) (wall : nat → Time) (draw : Z) : World :=
  mkWorld h 0 wall 0 (fun _ => draw) 0 [] [].

Definition macX : list byte := [xaa; xbb; xcc; x00; x00; x01].
Definition macY : list byte := [xaa; xbb; xcc; x00; x00; x03].

(** A packet of the client [mac] with no address of its own yet. *)
Definition packet_of (mac : list byte) : Packet := mkPacket (ip 0 0 0 0) mac false.

Definition requesting (a : IP) : gmap Z (list byte) :=
  <[OptionRequestedIPAddress := a]> ∅.

(** The production clock, reading 5000, and an empty database. *)
Definition fresh_world : World := world_of (pool_handler None) (fun _ => 5000) 2.

Definition other_server_opts : gmap Z (list byte) :=
  <[OptionServerIdentifier := ip 192 0 2 1]> (requesting (ip 10 0 0 13)).

(** Scenario 2: the pool with a static lease for 10.0.0.12. *)
Definition static_config : Created :=
  NewHandler (fun _ => None) (ip 10 0 0 1) (ip 10 0 0 10) (ip 255 255 255 0) 5
             leasePeriod []
             [mkStaticLease (ip 10 0 0 12) "aa:bb:cc:00:00:02" "printer"].

Definition static_handler : Handler :=
  match static_config with
  | Built h => h
  | _ => pool_handler None
  end.

(** The world an outcome leaves, [w] after a panic. *)
Definition world_after {A} (w : World) (o : Outcome A) : World :=
  match o with
  | Done _ w' => w'
  | Panic => w
  end.

(** The production clock advancing by 10^13 ns (some 2 h 47 min) from one
    reading to the next, and an empty database. *)
Definition aging_world : World :=
  world_of (pool_handler None) (fun k => 1000 + Z.of_nat k * 10 ^ 13) 2.

(** The client X is granted 10.0.0.13. *)
Definition leaseX_world (w : World) : World :=
  world_after w (ServeDHCP sample_prefixes (packet_of macX) Request
                           (requesting (ip 10 0 0 13)) w).

(** A handler whose clock was replaced by one that stays at 1000, as a test
    does, in a process whose clock reads 5000. *)
Definition frozen_world : World :=
  world_of (pool_handler (Some (fun _ => 1000))) (fun _ => 5000) 2.

(** Scenario 4: after the lease of X at offset 3 expired, the client Y is
    granted 10.0.0.13. *)
Definition takeover_world : World :=
  world_after aging_world
    (ServeDHCP sample_prefixes (packet_of macY) Request
               (requesting (ip 10 0 0 13)) (leaseX_world aging_world)).

(** ** What a REQUEST stores and what [SetLeases] restores *)

(** What the new lease of a REQUEST takes over from the lease the client
    held: a permanent lease stays permanent and keeps its hostname, and a
    hostname override stays in force. *)
Definition inherit (old : option Lease) (lease : Lease) : Lease :=
  match old with
  | None => lease
  | Some l =>
      let lease :=
        if IsZero (Expiry l)
        then set_Hostname (Hostname l) (set_Expiry 0 lease)
        else lease in
      if negb (string_eqb (HostnameOverride l) EmptyString)
      then set_HostnameOverride (HostnameOverride l)
             (set_Hostname (HostnameOverride l) lease)
      else lease
  end.

(** The lease a REQUEST builds before it looks at the previous one. *)
Definition new_lease (tbl : list (byte * byte * byte)) (h : Handler) (p : Packet)
    (opts : gmap Z (list byte)) (n : Z) (expiry lastACK : Time) : Lease :=
  {| Num := n;
     Addr := copy (replicate 4 x00) (To4 (requested p opts));
     HardwareAddr := HardwareAddr_String (CHAddr p);
     Expiry := Add expiry (leasePeriodForDevice tbl h (HardwareAddr_String (CHAddr p)));
     Hostname := match opts !! OptionHostName with
                 | Some v => string_of_list_byte v
                 | None => EmptyString
                 end;
     HostnameOverride := EmptyString;
     LastACK := lastACK |}.

(** A lease as [SetLeases] stores it: a zero [LastACK] is set to the
    expiry. *)
Definition backfill (l : Lease) : Lease :=
  if IsZero (LastACK l) then set_LastACK (Expiry l) l else l.

(** ** The start of a network: [run] of [main.go]

    [run] resolves the interface, picks the server address, builds the
    handler, restores the leases of the lease file and registers the
    observer, then hands the handler to [dhcp4.Serve]. *)

(** [config.Network] and [config.StaticLease]. *)
Module config.

Record StaticLease := mkStaticLease {
  MacAddress : string;
  Name : string;
  IP : string
}.

Record Network := mkNetwork {
  Interface : string;
  StartIP : string;
  Range : Z;
  NetMask : string;
  LeaseDuration : Duration;
  StaticLeases : list StaticLease;
  DNSServers : list string
}.

End config.

(** [net.IPNet], and the values of the interface [net.Addr] that
    [iface.Addrs()] returns: a [*net.IPNet] or something else. *)
Record IPNet := mkIPNet {
  ipnet_IP : IP;
  ipnet_Mask : list byte
}.

Inductive net_Addr :=
| AddrIPNet (n : IPNet)
| AddrOther.

(** How [run] ends: it returns an error, it panics, or it enters
    [dhcp4.Serve(conn, handler)] with the handler of the world [w]. *)
Inductive Started :=
| Returned (e : string)
| Panicked
| Serving (w : World).

Definition set_Leases (v : bool) (h : Handler) : Handler :=
  mkHandler (serverIP h) (start h) (leaseRange h) (LeasePeriod h) (options h)
            (timeNow h) (staticLeases h) (reservedOffsets h) v
            (leasesHW h) (leasesIP h).

Section Run.

(** The operating system and the libraries: [net.InterfaceByName] and
    [iface.Addrs] (an error or a result), [net.ParseIP], [IPNet.Contains],
    [packet.Listen] as [NewHandler] calls it when it is given no connection
    (its error, if any) and [newUDP4BoundListener] (its error, if any). *)
Variable net_Interface : Type.
Variable InterfaceByName : string → string + net_Interface.
Variable Addrs : net_Interface → string + list net_Addr.
Variable ParseIP : string → option IP.
Variable Contains : IPNet → IP → bool.
Variable Listen : net_Interface → option string.
Variable newUDP4BoundListener : string → string → option string.

(** The loop over [addrs]: the first [*net.IPNet] that contains
    [startIP]. *)
Fixpoint matchIPNet (startIP : IP) (addrs : list net_Addr) : option IPNet :=
  match addrs with
  | [] => None
  | AddrIPNet ipnet :: r =>
      if Contains ipnet startIP then Some ipnet else matchIPNet startIP r
  | AddrOther :: r => matchIPNet startIP r
  end.

(** The loop over [conf.StaticLeases]: an entry whose address does not
    parse is skipped. *)
Fixpoint convertStatic (sls : list config.StaticLease) : list StaticLease :=
  match sls with
  | [] => []
  | sl :: r =>
      match ParseIP (config.IP sl) with
      | None => convertStatic r                  (* invalid static ip *)
      | Some ip =>
          mkStaticLease (To4 ip) (config.MacAddress sl) (config.Name sl)
          :: convertStatic r
      end
  end.

(** [NewHandler] as [run] calls it, with no [WithConn] option: it opens
    the raw connection first and returns the error of [packet.Listen]. *)
Definition NewHandler_listening (iface : net_Interface) (serverIP0 startIP0 netMask0 : IP)
    (leaseRange0 : Z) (leasePeriod0 : Duration) (dnsServers : list string)
    (staticLeases0 : list StaticLease) : Created :=
  match Listen iface with
  | Some e => Failed e
  | None => NewHandler ParseIP serverIP0 startIP0 netMask0 leaseRange0 leasePeriod0
                       dnsServers staticLeases0
  end.

(** [run], in the world [w] of the clocks and the random source, with the
    lease file [lf] ([lm.lf.LeaseByInterface]).  The error of [NewHandler]
    is assigned and never read: with a nil handler, [handler.SetLeases]
    and the assignment of [handler.Leases] dereference nil. *)
Definition run (conf : config.Network) (lf : gmap string (list Lease)) (w : World)
  : Started :=
  match InterfaceByName (config.Interface conf) with
  | inl e => Returned e
  | inr iface =>
      match Addrs iface with
      | inl e => Returned e
      | inr addrs =>
          match ParseIP (config.StartIP conf) with
          | None =>
              Returned ("parse start_ip on " ++ config.Interface conf
                        ++ " error invalid: " ++ config.StartIP conf)%string
          | Some startIP =>
              match matchIPNet startIP addrs with
              | None =>
                  Returned ("failed to find network " ++ config.StartIP conf
                            ++ " on " ++ config.Interface conf)%string
              | Some ipnet =>
                  match ParseIP (config.NetMask conf) with
                  | None =>
                      Returned ("parse netmask on " ++ config.Interface conf
                                ++ " error invalid: " ++ config.NetMask conf)%string
                  | Some netmask =>
                      let serverIP := ipnet_IP ipnet in
                      let staticLeases := convertStatic (config.StaticLeases conf) in
                      match NewHandler_listening iface serverIP startIP netmask
                              (config.Range conf) (config.LeaseDuration conf)
                              (config.DNSServers conf) staticLeases with
                      | Crashed => Panicked
                      | Failed _ => Panicked            (* handler is nil *)
                      | Built handler =>
                          let w := with_hdl handler w in
                          let existingLeases :=
                            default [] (lf !! config.Interface conf) in
                          match (if (0 <? length existingLeases)%nat
                                 then SetLeases existingLeases w
                                 else Done tt w) with
                          | Panic => Panicked
                          | Done _ w =>
                              let w := with_hdl (set_Leases true (hdl w)) w in
                              match newUDP4BoundListener (config.Interface conf) ":67" with
                              | Some e => Returned e
                              | None => Serving w
                              end
                          end
                      end
                  end
              end
          end
      end
  end.

End Run.

(** ** Further scenarios *)

(** The lease of X at offset 3 in [leaseX_world aging_world]. *)
Definition leaseX_aging : Lease :=
  mkLease 3 (ip 10 0 0 13) "aa:bb:cc:00:00:01" "" "" (1000 + leasePeriod)
          (1000 + 10 ^ 13).

(** The client of the static lease of [static_config]. *)
Definition macP : list byte := [xaa; xbb; xcc; x00; x00; x02].

Definition static_world : World := world_of static_handler (fun _ => 5000) 2.

(** Five leases that fill the pool, as a lease file would hold them. *)
Definition stored_leases : list Lease :=
  [mkLease 0 (ip 10 0 0 10) "aa:bb:cc:00:00:10" "a" "" 9000 0;
   mkLease 1 (ip 10 0 0 11) "aa:bb:cc:00:00:11" "b" "" 9000 8000;
   mkLease 2 (ip 10 0 0 12) "aa:bb:cc:00:00:12" "c" "" 0 0;
   mkLease 3 (ip 10 0 0 13) "aa:bb:cc:00:00:13" "d" "" 100 50;
   mkLease 4 (ip 10 0 0 14) "aa:bb:cc:00:00:14" "e" "" 100 50].

Definition restored_world : World :=
  world_after fresh_world (SetLeases stored_leases fresh_world).

(** X holds 10.0.0.13 and was renamed to "laptop". *)
Definition renamed_world : World :=
  world_after fresh_world
    (SetHostname "aa:bb:cc:00:00:01" "laptop" (leaseX_world fresh_world)).

(** A network as an operator configures it, and the system it starts on:
    the interface has the address 10.0.0.1/24; [net.ParseIP] is given on
    the strings in use (it returns the 16-byte form). *)
Definition sample_ParseIP (s : string) : option IP :=
  if string_eqb s "10.0.0.10" then Some (IPv4 x0a x00 x00 x0a)
  else if string_eqb s "10.0.0.12" then Some (IPv4 x0a x00 x00 x0c)
  else if string_eqb s "255.255.255.0" then Some (IPv4 xff xff xff x00)
  else if string_eqb s "10.0.0.1" then Some (IPv4 x0a x00 x00 x01)
  else None.

Definition sample_network (dns : list string) : config.Network :=
  config.mkNetwork "eth0" "10.0.0.10" 5 "255.255.255.0" leasePeriod
    [config.mkStaticLease "AA:BB:CC:00:00:02" "printer" "10.0.0.12";
     config.mkStaticLease "aa:bb:cc:00:00:09" "broken" "10.0.0.300"]
    dns.

Definition sample_run (dns : list string) (lf : gmap string (list Lease)) : Started :=
  run unit (fun _ => inr tt)
      (fun _ => inr [AddrOther; AddrIPNet (mkIPNet (ip 10 0 0 1) (ip 255 255 255 0))])
      sample_ParseIP (fun _ _ => true) (fun _ => None) (fun _ _ => None)
      (sample_network dns) lf fresh_world.


Definition macL : list byte := [xaa; xbb; xcc; x00; x00; x12].

(** A REQUEST that names this server. *)
Definition own_server_opts (a : IP) : gmap Z (list byte) :=
  <[OptionServerIdentifier := ip 10 0 0 1]> (requesting a).

(** X holds 10.0.0.13 and the random source draws 3, its offset. *)
Definition probe_world : World :=
  world_of (hdl (leaseX_world fresh_world)) (fun _ => 5000) 3.

(** After X was renamed, Y is granted 10.0.0.11; then X renews 10.0.0.13
    and calls itself "phone" in option 12. *)
Definition visited_world : World :=
  world_after renamed_world
    (ServeDHCP sample_prefixes (packet_of macY) Request
               (requesting (ip 10 0 0 11)) renamed_world).

Definition renewing_opts : gmap Z (list byte) :=
  <[OptionHostName := list_byte_of_string "phone"]> (requesting (ip 10 0 0 13)).

Definition renewed_world : World :=
  world_after visited_world
    (ServeDHCP sample_prefixes (packet_of macX) Request renewing_opts visited_world).

(** * Properties *)

(** ** The library functions on examples *)

Example IPRange_inclusive :
  IPRange (ip 10 0 0 10) (ip 10 0 0 12) = Some 3.
Proof. reflexivity. Qed.

Example IPAdd_example :
  IPAdd (ip 192 168 1 1) 30 = Some (ip 192 168 1 31).
Proof. reflexivity. Qed.

Example HardwareAddr_String_example :
  HardwareAddr_String [xaa; xbb; xcc; x00; x00; x01] = "aa:bb:cc:00:00:01"%string.
Proof. reflexivity. Qed.

Example DecodeString_example :
  DecodeString (removeColons "00:17:aB:00:00:01")
  = Some [x00; x17; xab; x00; x00; x01].
Proof. reflexivity. Qed.

Example DecodeString_odd : DecodeString "abc" = None.
Proof. reflexivity. Qed.

(** ** Bytes and 32-bit words *)

Lemma byteZ_range b : 0 <= byteZ b < 256.
Proof. unfold byteZ. pose proof (Byte.to_N_bounded b). lia. Qed.

Lemma Zbyte_byteZ b : Zbyte (byteZ b) = b.
Proof.
  unfold Zbyte. rewrite Z.mod_small by apply byteZ_range.
  unfold byteZ. rewrite N2Z.id, Byte.of_to_N. reflexivity.
Qed.

Lemma Zbyte_mod z : Zbyte (z mod 256) = Zbyte z.
Proof. unfold Zbyte. rewrite Z.mod_mod by lia. reflexivity. Qed.

Lemma Zbyte_eq z b : z mod 256 = byteZ b → Zbyte z = b.
Proof. intros H. rewrite <- Zbyte_mod, H. apply Zbyte_byteZ. Qed.


Lemma lor_shiftl_add lo hi k :
  0 <= k → 0 <= lo < 2 ^ k → Z.lor lo (Z.shiftl hi k) = lo + hi * 2 ^ k.
Proof.
  intros Hk Hlo. rewrite <- Z.shiftl_mul_pow2 by lia.
  symmetry. apply Z.add_nocarry_lor.
  apply Z.bits_inj'. intros n Hn.
  rewrite Z.land_spec, Z.bits_0.
  destruct (Z.lt_ge_cases n k) as [Hlt|Hge].
  - rewrite Z.shiftl_spec_low by lia. apply andb_false_r.
  - assert (Z.testbit lo n = false) as ->; [|reflexivity].
    destruct (Z.eq_dec lo 0) as [->|Hne]; [apply Z.bits_0|].
    apply Z.bits_above_log2; [lia|].
    apply Z.log2_lt_pow2; [lia|].
    apply Z.lt_le_trans with (2 ^ k); [lia|].
    apply Z.pow_le_mono_r; lia.
Qed.

Lemma word4_range a b c d : 0 <= word4 a b c d < 2 ^ 32.
Proof.
  unfold word4.
  pose proof (byteZ_range a). pose proof (byteZ_range b).
  pose proof (byteZ_range c). pose proof (byteZ_range d). lia.
Qed.

Lemma Uint32_word4 a b c d r : Uint32 (a :: b :: c :: d :: r) = Some (word4 a b c d).
Proof.
  unfold Uint32, word4. f_equal.
  pose proof (byteZ_range a). pose proof (byteZ_range b).
  pose proof (byteZ_range c). pose proof (byteZ_range d).
  rewrite (lor_shiftl_add (byteZ d)) by lia.
  rewrite (lor_shiftl_add (byteZ d + _)) by lia.
  rewrite (lor_shiftl_add (byteZ d + _ + _)) by lia.
  reflexivity.
Qed.

Lemma PutUint32_word4 a b c d : PutUint32 (word4 a b c d) = [a; b; c; d].
Proof.
  unfold PutUint32, word4.
  pose proof (byteZ_range a). pose proof (byteZ_range b).
  pose proof (byteZ_range c). pose proof (byteZ_range d).
  rewrite !Z.shiftr_div_pow2 by lia.
  f_equal; [|f_equal; [|f_equal; [|f_equal]]]; apply Zbyte_eq.
  - change (2 ^ 24) with 16777216; change (2 ^ 16) with 65536; change (2 ^ 8) with 256.
    Z.div_mod_to_equations; lia.
  - change (2 ^ 24) with 16777216; change (2 ^ 16) with 65536; change (2 ^ 8) with 256.
    Z.div_mod_to_equations; lia.
  - change (2 ^ 24) with 16777216; change (2 ^ 16) with 65536; change (2 ^ 8) with 256.
    Z.div_mod_to_equations; lia.
  - change (2 ^ 24) with 16777216; change (2 ^ 16) with 65536; change (2 ^ 8) with 256.
    Z.div_mod_to_equations; lia.
Qed.

Lemma length4 {A} (l : list A) :
  length l = 4%nat → ∃ a b c d, l = [a; b; c; d].
Proof.
  destruct l as [|a [|b [|c [|d [|e r]]]]]; simpl; intros H; try discriminate.
  eauto.
Qed.

Lemma To4_length4 (a : IP) : length a = 4%nat → To4 a = a.
Proof. intros H. unfold To4. rewrite H. reflexivity. Qed.

Lemma To4_cases (a : IP) : To4 a = [] ∨ length (To4 a) = 4%nat.
Proof.
  unfold To4.
  destruct (length a =? 4)%nat eqn:E4; [right; by apply Nat.eqb_eq|].
  destruct (length a =? 16)%nat eqn:E16; simpl; [|by left].
  destruct (bytes_Equal (take 12 a) v4InV6Prefix); [|by left].
  right. rewrite length_drop. apply Nat.eqb_eq in E16. lia.
Qed.

Lemma Uint32_To4_range (a : IP) v : Uint32 (To4 a) = Some v → 0 <= v < 2 ^ 32.
Proof.
  destruct (To4_cases a) as [->|H4]; [discriminate|].
  destruct (length4 _ H4) as (b0 & b1 & b2 & b3 & ->).
  rewrite Uint32_word4. intros [= <-]. apply word4_range.
Qed.

(** The offset [IPRange(start, req) - 1], when it is not negative, is the
    one that [IPAdd] maps back to [req]. *)
Lemma IPAdd_IPRange (start0 req : IP) r :
  length req = 4%nat → IPRange start0 req = Some r → 0 <= r - 1 →
  IPAdd start0 (r - 1) = Some req
  ∧ ∃ e s, Uint32 req = Some e ∧ Uint32 (To4 start0) = Some s ∧ r - 1 = e - s.
Proof.
  intros Hlen Hr Hpos. unfold IPRange in Hr.
  rewrite (To4_length4 req Hlen) in Hr.
  destruct (length4 _ Hlen) as (a & b & c & d & ->).
  rewrite Uint32_word4 in Hr.
  destruct (Uint32 (To4 start0)) as [s|] eqn:Es; [|discriminate].
  injection Hr as <-.
  pose proof (Uint32_To4_range _ _ Es) as Hs.
  pose proof (word4_range a b c d) as He.
  split.
  - unfold IPAdd. rewrite Es. f_equal. unfold uint32.
    replace (word4 a b c d - s + 1 - 1) with (word4 a b c d - s) by lia.
    rewrite (Z.mod_small (word4 a b c d - s)) by lia.
    replace (s + (word4 a b c d - s)) with (word4 a b c d) by lia.
    rewrite Z.mod_small by lia. apply PutUint32_word4.
  - exists (word4 a b c d), s. rewrite Uint32_word4. repeat split; lia.
Qed.

Lemma copy_fresh4 (src : list byte) :
  length src = 4%nat → copy (replicate 4 x00) src = src.
Proof.
  intros H. destruct (length4 _ H) as (a & b & c & d & ->). reflexivity.
Qed.

Lemma IPAdd_length (start0 : IP) n a : IPAdd start0 n = Some a → length a = 4%nat.
Proof.
  unfold IPAdd. destruct (Uint32 (To4 start0)); [|done]. by intros [= <-].
Qed.

(** The [yiaddr] of a reply built for a four-byte address is that address. *)
Lemma YIAddr_ReplyPacket req mt serverId yIAddr d opts :
  length yIAddr = 4%nat → YIAddr (ReplyPacket req mt serverId yIAddr d opts) = yIAddr.
Proof. intros H. simpl. by apply copy_fresh4. Qed.

(** ** Running the methods *)

Lemma quiet_refl w : quiet w w.
Proof. by repeat split. Qed.

Lemma quiet_trans w1 w2 w3 : quiet w1 w2 → quiet w2 w3 → quiet w1 w3.
Proof. intros (?&?&?) (?&?&?). repeat split; congruence. Qed.

Ltac go_unfold :=
  cbv beta iota delta [bind ret panic orPanic this update with_hdl call_timeNow
                  time_Now rand_Intn call_Leases WriteTo] in *.

Lemma call_timeNow_Done w :
  ∃ w', call_timeNow w = Done (peek_timeNow w) w' ∧ quiet w w'.
Proof.
  unfold call_timeNow, time_Now, peek_timeNow.
  destruct (timeNow (hdl w)); eexists; split; try reflexivity; by repeat split.
Qed.

Lemma canLease_quiet reqIP hw w n w' :
  canLease reqIP hw w = Done n w' → quiet w w'.
Proof.
  unfold canLease. go_unfold. intros H.
  repeat case_match; simplify_eq; by repeat split.
Qed.

(** What an accepted offset of [canLease] satisfies. *)
Lemma canLease_accept reqIP hw w n w' :
  canLease reqIP hw w = Done n w' →
  n = -1 ∨
  (0 <= n ∧ length reqIP = 4%nat
   ∧ IPRange (start (hdl w)) reqIP = Some (n + 1)
   ∧ match leasesIP (hdl w) !! n with
     | None => n < leaseRange (hdl w)
     | Some l => HardwareAddr l = hw ∨ n < leaseRange (hdl w)
     end).
Proof.
  unfold canLease. go_unfold. intros H.
  destruct (negb (length reqIP =? 4)%nat || IP_Equal reqIP IPv4zero) eqn:Hreq;
    [left; congruence|].
  apply orb_false_iff in Hreq as [Hlen _].
  apply negb_false_iff, Nat.eqb_eq in Hlen.
  destruct (IPRange (start (hdl w)) reqIP) as [r|] eqn:Hr; [|discriminate].
  destruct (r - 1 <? 0) eqn:Hneg; [left; congruence|].
  apply Z.ltb_ge in Hneg.
  assert (Hr' : Some r = Some (r - 1 + 1)) by (f_equal; lia).
  destruct (leasesIP (hdl w) !! (r - 1)) as [l|] eqn:Hl.
  - destruct (string_eqb (HardwareAddr l) hw) eqn:Hown.
    + injection H as <- <-. right. rewrite Hl.
      apply bool_decide_eq_true in Hown. auto.
    + destruct (r - 1 >=? leaseRange (hdl w)) eqn:Hrange; [left; congruence|].
      repeat case_match; simplify_eq; try (by left);
        right; repeat split; auto; try (f_equal; lia); right; lia.
  - destruct (r - 1 >=? leaseRange (hdl w)) eqn:Hrange; [left; congruence|].
    injection H as <- <-. right. rewrite Hl. repeat split; auto. lia.
Qed.

Lemma leaseHW_Done hw w :
  leaseHW hw w
  = Done (match leasesHW (hdl w) !! hw with
          | None => (None, false)
          | Some num =>
              match leasesIP (hdl w) !! num with
              | None => (None, false)
              | Some l => (Some l, string_eqb (HardwareAddr l) hw)
              end
          end) w.
Proof. unfold leaseHW. go_unfold. repeat case_match; reflexivity. Qed.

(** ** REQUEST for another server *)

(** C7: a REQUEST whose options hold a ServerIdentifier (option 54) that
    is not the address of this server gets no reply, and nothing of the
    world changes: both lease indices and every stored lease are as they
    were, nothing is published and nothing is written to the wire. *)
Theorem request_for_other_server tbl p opts server w :
  opts !! OptionServerIdentifier = Some server →
  IP_Equal server (serverIP (hdl w)) = false →
  serveDHCP tbl p Request opts w = Done None w
  ∧ ServeDHCP tbl p Request opts w = Done None w.
Proof.
  intros Hopt Hneq.
  assert (H : serveDHCP tbl p Request opts w = Done None w).
  { unfold serveDHCP. go_unfold. rewrite Hopt, Hneq. reflexivity. }
  split; [exact H|].
  unfold ServeDHCP, bind. rewrite H. reflexivity.
Qed.

(** Scenario 3 of the specification: ServerIdentifier 192.0.2.1 while the
    server is 10.0.0.1. *)
Lemma request_for_other_server_witness :
  serveDHCP sample_prefixes (packet_of macX) Request other_server_opts fresh_world
  = Done None fresh_world
  ∧ ServeDHCP sample_prefixes (packet_of macX) Request other_server_opts fresh_world
    = Done None fresh_world.
Proof.
  apply (request_for_other_server sample_prefixes (packet_of macX)
           other_server_opts (ip 192 0 2 1) fresh_world); reflexivity.
Defined.

(** ** The effect of each operation on the world *)

Lemma bind_Done {A B} (m : Go A) (k : A → Go B) w b w' :
  bind m k w = Done b w' → ∃ a w1, m w = Done a w1 ∧ k a w1 = Done b w'.
Proof. unfold bind. destruct (m w) as [a w1|]; [eauto|discriminate]. Qed.

Lemma update_inv f w u w1 : update f w = Done u w1 → w1 = with_hdl (f (hdl w)) w.
Proof. unfold update. by intros [= _ <-]. Qed.

Lemma call_timeNow_inv w t w1 :
  call_timeNow w = Done t w1 → t = peek_timeNow w ∧ quiet w w1.
Proof.
  destruct (call_timeNow_Done w) as (w2 & E & Q). rewrite E. intros [= <- <-]. auto.
Qed.

Lemma callLeasesLocked_inv lease w u w1 :
  callLeasesLocked lease w = Done u w1 →
  hdl w1 = hdl w ∧ sent w1 = sent w
  ∧ published w1
    = published w ++ (if Leases (hdl w) then [(snapshot (hdl w), lease)] else []).
Proof.
  unfold callLeasesLocked. go_unfold.
  destruct (Leases (hdl w)); simpl; intros [= _ <-]; simpl;
    rewrite ?app_nil_r; by repeat split.
Qed.

Lemma inheritAndRelease_Done lease w :
  ∃ lease' w1,
    inheritAndRelease lease w = Done lease' w1
    ∧ Num lease' = Num lease ∧ Addr lease' = Addr lease
    ∧ HardwareAddr lease' = HardwareAddr lease
    ∧ published w1 = published w ∧ sent w1 = sent w
    ∧ hdl w1 = set_leasesIP (match heldBy (hdl w) (HardwareAddr lease) with
                             | Some l => delete (Num l) (leasesIP (hdl w))
                             | None => leasesIP (hdl w)
                             end) (hdl w).
Proof.
  unfold inheritAndRelease, bind. rewrite leaseHW_Done. unfold heldBy.
  destruct (leasesHW (hdl w) !! HardwareAddr lease) as [num|].
  2:{ exists lease, w. repeat split; try reflexivity. by destruct (hdl w). }
  destruct (leasesIP (hdl w) !! num) as [l|].
  2:{ exists lease, w. repeat split; try reflexivity. by destruct (hdl w). }
  destruct (string_eqb (HardwareAddr l) (HardwareAddr lease)).
  2:{ exists lease, w. repeat split; try reflexivity. by destruct (hdl w). }
  go_unfold. eexists _, _. split; [reflexivity|].
  repeat split; repeat case_match; reflexivity.
Qed.

(** REQUEST is the sequence of its blocks. *)
Lemma serveDHCP_Request_eq tbl p opts w :
  serveDHCP tbl p Request opts w =
  (let* h := this in
   let reqIP := requested p opts in
   let hwAddr := HardwareAddr_String (CHAddr p) in
   if match opts !! OptionServerIdentifier with
      | Some server => negb (IP_Equal server (serverIP h))
      | None => false
      end
   then ret None
   else
     let* leaseNum := canLease reqIP hwAddr in
     if leaseNum =? -1 then ret (Some (ReplyPacket p NAK (serverIP h) [] 0 []))
     else
       let* expiry := call_timeNow in
       let* lastACK := call_timeNow in
       let* lease := inheritAndRelease
                       {| Num := leaseNum;
                          Addr := copy (replicate 4 x00) (To4 reqIP);
                          HardwareAddr := hwAddr;
                          Expiry := Add expiry (leasePeriodForDevice tbl h hwAddr);
                          Hostname := match opts !! OptionHostName with
                                      | Some v => string_of_list_byte v
                                      | None => EmptyString
                                      end;
                          HostnameOverride := EmptyString;
                          LastACK := lastACK |} in
       let* _ := update (fun h => set_leasesIP (<[leaseNum := lease]> (leasesIP h)) h) in
       let* _ := update (fun h => set_leasesHW
                             (<[HardwareAddr lease := leaseNum]> (leasesHW h)) h) in
       let* _ := callLeasesLocked lease in
       ret (Some (ReplyPacket p ACK (serverIP h) reqIP
                    (leasePeriodForDevice tbl h hwAddr)
                    (SelectOrderOrAll (options h) (opts !! OptionParameterRequestList))))) w.
Proof.
  unfold serveDHCP, inheritAndRelease, requested.
  cbv beta iota delta [bind this ret panic].
  repeat case_match; simplify_eq; try reflexivity.
Qed.

(** A REQUEST either leaves the database alone (dropped, or answered by a
    NAK) or grants an offset that [canLease] accepted. *)
Lemma serveDHCP_Request_effect tbl p opts w r w' :
  serveDHCP tbl p Request opts w = Done r w' →
  (quiet w w' ∧ ∀ x, r = Some x → replyType x = NAK)
  ∨ ∃ n lease,
      0 <= n ∧ length (requested p opts) = 4%nat
      ∧ IPRange (start (hdl w)) (requested p opts) = Some (n + 1)
      ∧ match leasesIP (hdl w) !! n with
        | None => n < leaseRange (hdl w)
        | Some l => HardwareAddr l = HardwareAddr_String (CHAddr p)
                    ∨ n < leaseRange (hdl w)
        end
      ∧ Num lease = n ∧ Addr lease = requested p opts
      ∧ HardwareAddr lease = HardwareAddr_String (CHAddr p)
      ∧ hdl w' = granted (hdl w) (HardwareAddr_String (CHAddr p)) n lease
      ∧ published w'
        = published w ++ (if Leases (hdl w) then [(snapshot (hdl w'), lease)] else [])
      ∧ sent w' = sent w
      ∧ r = Some (ReplyPacket p ACK (serverIP (hdl w)) (requested p opts)
                    (leasePeriodForDevice tbl (hdl w) (HardwareAddr_String (CHAddr p)))
                    (SelectOrderOrAll (options (hdl w))
                                      (opts !! OptionParameterRequestList))).
Proof.
  rewrite serveDHCP_Request_eq.
  intros H. apply bind_Done in H as (h & w0 & Hthis & H).
  unfold this in Hthis. injection Hthis as <- <-.
  destruct (match opts !! OptionServerIdentifier with
            | Some server => negb (IP_Equal server (serverIP (hdl w)))
            | None => false
            end).
  { injection H as <- <-. left. split; [apply quiet_refl|discriminate]. }
  apply bind_Done in H as (n & w1 & Hcan & H).
  pose proof (canLease_quiet _ _ _ _ _ Hcan) as Q1.
  destruct (n =? -1) eqn:Hn.
  { injection H as <- <-. left. split; [exact Q1|]. by intros x [= <-]. }
  apply Z.eqb_neq in Hn.
  destruct (canLease_accept _ _ _ _ _ Hcan) as [?|(Hpos & Hlen & Hrange & Hslot)]; [done|].
  apply bind_Done in H as (t1 & w2 & Ht1 & H).
  apply call_timeNow_inv in Ht1 as [_ Q2].
  apply bind_Done in H as (t2 & w3 & Ht2 & H).
  apply call_timeNow_inv in Ht2 as [_ Q3].
  pose proof (quiet_trans _ _ _ Q1 (quiet_trans _ _ _ Q2 Q3)) as (Qh & Qp & Qs).
  apply bind_Done in H as (lease & w4 & Hinh & H).
  match type of Hinh with
  | inheritAndRelease ?l0 _ = _ =>
      destruct (inheritAndRelease_Done l0 w3)
        as (lease' & w4' & E & HNum & HAddr & HHw & Hp4 & Hs4 & Hh4)
  end.
  rewrite E in Hinh. injection Hinh as -> ->. simpl in HNum, HAddr, HHw, Hh4.
  apply bind_Done in H as (u1 & w5 & Hu1 & H). apply update_inv in Hu1 as ->.
  apply bind_Done in H as (u2 & w6 & Hu2 & H). apply update_inv in Hu2 as ->.
  apply bind_Done in H as (u3 & w7 & Hcall & H).
  apply callLeasesLocked_inv in Hcall as (Hh5 & Hs5 & Hp5).
  injection H as <- <-.
  right. exists n, lease.
  rewrite To4_length4, copy_fresh4 in HAddr by done.
  simpl in Hh5, Hs5, Hp5.
  repeat split; try done.
  - rewrite Hh5, Hh4, HHw, Qh. exact eq_refl.
  - rewrite Hp5, Hp4, Qp, Hh4, Qh. f_equal. simpl.
    destruct (Leases (hdl w)); [|done].
    rewrite Hh5, Hh4, HHw, Qh. exact eq_refl.
  - congruence.
Qed.
Lemma findLease_quiet w n w' : findLease w = Done n w' → quiet w w'.
Proof.
  unfold findLease. go_unfold. intros H.
  repeat case_match; simplify_eq; by repeat split.
Qed.

Lemma offerPrevious_quiet hw free w n w' :
  offerPrevious hw free w = Done n w' → quiet w w'.
Proof.
  unfold offerPrevious, bind. rewrite leaseHW_Done. go_unfold. intros H.
  repeat case_match; simplify_eq; by repeat split.
Qed.

Lemma discoverPreferred_quiet p opts w n w' :
  discoverPreferred p opts w = Done n w' → quiet w w'.
Proof.
  unfold discoverPreferred. intros H.
  apply bind_Done in H as (h & w0 & Hthis & H).
  unfold this in Hthis. injection Hthis as <- <-.
  apply bind_Done in H as (f1 & w1 & H1 & H).
  assert (Q1 : quiet w w1).
  { destruct (staticLeases (hdl w) !! _).
    - eapply canLease_quiet; eauto.
    - injection H1 as <- <-. apply quiet_refl. }
  destruct ((f1 <? 0) && _).
  - eapply quiet_trans; [exact Q1|]. eapply canLease_quiet; eauto.
  - by injection H as <- <-.
Qed.

Lemma offerOrSearch_quiet tbl h p opts free w r w' :
  offerOrSearch tbl h p opts free w = Done r w' → quiet w w'.
Proof.
  unfold offerOrSearch. intros H.
  apply bind_Done in H as (f1 & w1 & H1 & H).
  assert (Q1 : quiet w w1).
  { destruct (free =? -1).
    - eapply findLease_quiet; eauto.
    - injection H1 as <- <-. apply quiet_refl. }
  destruct (f1 =? -1); [by injection H as <- <-|].
  apply bind_Done in H as (yi & w2 & Hyi & H).
  injection H as <- <-.
  unfold orPanic in Hyi. destruct (IPAdd _ _); [|discriminate].
  by injection Hyi as <- <-.
Qed.

(** DISCOVER is the sequence of its four steps. *)
Lemma serveDHCP_Discover_eq tbl p opts w :
  serveDHCP tbl p Discover opts w =
  (let* free := discoverPreferred p opts in
   let* free := offerPrevious (HardwareAddr_String (CHAddr p)) free in
   offerOrSearch tbl (hdl w) p opts free) w.
Proof.
  unfold serveDHCP, discoverPreferred, offerPrevious, offerOrSearch.
  cbv beta iota delta [bind this ret panic].
  repeat case_match; simplify_eq; try reflexivity.
Qed.

Lemma serveDHCP_Discover_quiet tbl p opts w r w' :
  serveDHCP tbl p Discover opts w = Done r w' → quiet w w'.
Proof.
  rewrite serveDHCP_Discover_eq. intros H.
  apply bind_Done in H as (f1 & w1 & H1 & H).
  apply bind_Done in H as (f2 & w2 & H2 & H).
  eapply quiet_trans; [eapply discoverPreferred_quiet; eauto|].
  eapply quiet_trans; [eapply offerPrevious_quiet; eauto|].
  eapply offerOrSearch_quiet; eauto.
Qed.

(** [expireLease] either finds no lease of [hwAddr] and changes nothing,
    or stamps the lease of [hwAddr] with the process clock. *)
Lemma expireLease_effect hw w b w' :
  expireLease hw w = Done b w' →
  (b = false ∧ w' = w ∧ heldBy (hdl w) hw = None)
  ∨ ∃ num l,
      b = true ∧ leasesHW (hdl w) !! hw = Some num
      ∧ leasesIP (hdl w) !! num = Some l ∧ HardwareAddr l = hw
      ∧ hdl w' = set_leasesIP
                   (<[num := set_Expiry (wallClock w (wallCalls w)) l]> (leasesIP (hdl w)))
                   (hdl w)
      ∧ published w' = published w ∧ sent w' = sent w
      ∧ clockCalls w' = clockCalls w ∧ wallClock w' = wallClock w
      ∧ wallCalls w' = S (wallCalls w).
Proof.
  unfold expireLease, heldBy. go_unfold. intros H.
  destruct (leasesHW (hdl w) !! hw) as [num|] eqn:Hhw;
    [|injection H as <- <-; by left].
  destruct (leasesIP (hdl w) !! num) as [l|] eqn:Hip;
    [|injection H as <- <-; by left].
  destruct (string_eqb (HardwareAddr l) hw) eqn:Hown; simpl in H;
    [|injection H as <- <-; by left].
  injection H as <- <-. right. exists num, l.
  apply bool_decide_eq_true in Hown. by repeat split.
Qed.

Lemma serveDHCP_Decline_eq tbl p opts w :
  serveDHCP tbl p Decline opts w
  = (let* _ := expireLease (HardwareAddr_String (CHAddr p)) in ret None) w.
Proof. reflexivity. Qed.

Lemma serveDHCP_other tbl p msgType opts w :
  msgType ≠ Discover → msgType ≠ Request → msgType ≠ Decline →
  serveDHCP tbl p msgType opts w = Done None w.
Proof. by destruct msgType. Qed.

(** [ServeDHCP] changes the handler and the observer's log as [serveDHCP]
    does. *)
Lemma ServeDHCP_inv tbl p msgType opts w r w' :
  ServeDHCP tbl p msgType opts w = Done r w' →
  r = None
  ∧ ∃ r0 w0, serveDHCP tbl p msgType opts w = Done r0 w0
             ∧ hdl w' = hdl w0 ∧ published w' = published w0
             ∧ clockCalls w' = clockCalls w0 ∧ wallCalls w' = wallCalls w0
             ∧ wallClock w' = wallClock w0
             ∧ sent w' = sent w0 ++ match r0 with
                                    | Some reply =>
                                        [mkFrame (if Broadcast p
                                                  then [xff; xff; xff; xff; xff; xff]
                                                  else CHAddr p)
                                                 (if Broadcast p then IPv4bcast
                                                  else YIAddr reply)
                                                 reply]
                                    | None => []
                                    end.
Proof.
  unfold ServeDHCP. intros H.
  apply bind_Done in H as (r0 & w0 & H0 & H).
  destruct r0 as [reply|].
  - go_unfold. injection H as <- <-. split; [done|].
    exists (Some reply), w0. by repeat split.
  - injection H as <- <-. split; [done|].
    exists None, w0. rewrite app_nil_r. by repeat split.
Qed.

(** [SetHostname], when it does not panic, either fails and changes
    nothing, or renames the lease stored under the offset it looked up. *)
Lemma SetHostname_effect hwaddr hostname w e w' :
  SetHostname hwaddr hostname w = Done e w' →
  (e = Some (no_valid_lease hwaddr) ∧ quiet w w')
  ∨ ∃ lease,
      e = None
      ∧ leasesIP (hdl w) !! default 0 (leasesHW (hdl w) !! hwaddr) = Some lease
      ∧ HardwareAddr lease = hwaddr
      ∧ Expired lease (peek_timeNow w) = false
      ∧ hdl w' = set_leasesIP
                   (<[default 0 (leasesHW (hdl w) !! hwaddr)
                      := set_HostnameOverride hostname (set_Hostname hostname lease)]>
                      (leasesIP (hdl w)))
                   (hdl w)
      ∧ published w'
        = published w
          ++ (if Leases (hdl w)
              then [(snapshot (hdl w'),
                     set_HostnameOverride hostname (set_Hostname hostname lease))]
              else [])
      ∧ sent w' = sent w.
Proof.
  unfold SetHostname. intros H.
  apply bind_Done in H as (h & w0 & Hthis & H).
  unfold this in Hthis. injection Hthis as <- <-.
  destruct (leasesIP (hdl w) !! default 0 (leasesHW (hdl w) !! hwaddr))
    as [lease|] eqn:Hl; [|discriminate].
  destruct (string_eqb (HardwareAddr lease) hwaddr) eqn:Hown; simpl in H.
  2:{ injection H as <- <-. left. split; [done|apply quiet_refl]. }
  apply bool_decide_eq_true in Hown.
  apply bind_Done in H as (now & w1 & Hnow & H).
  apply call_timeNow_inv in Hnow as [-> Q1].
  destruct (Expired lease (peek_timeNow w)) eqn:Hexp.
  { injection H as <- <-. by left. }
  destruct Q1 as (Qh & Qp & Qs).
  apply bind_Done in H as (u1 & w2 & Hu1 & H). apply update_inv in Hu1 as ->.
  apply bind_Done in H as (u2 & w3 & Hcall & H).
  apply callLeasesLocked_inv in Hcall as (Hh3 & Hs3 & Hp3).
  injection H as <- <-. simpl in Hh3, Hs3, Hp3.
  right. exists lease. rewrite Hh3, Hp3, Hs3, Qh, Qp, Qs. by repeat split.
Qed.
(** ** Invariants of the reachable states *)

Section Invariant.

Variable tbl : list (byte * byte * byte).
Variable I : Handler → Prop.
Variable P : Handler → Prop.

Hypothesis P_empty : ∀ h, leasesIP h = ∅ → P h.
Hypothesis P_restored : ∀ h, I h → P h.
Hypothesis P_granted :
  ∀ h hw n lease reqIP,
    P h → 0 <= n → length reqIP = 4%nat →
    IPRange (start h) reqIP = Some (n + 1) →
    match leasesIP h !! n with
    | None => n < leaseRange h
    | Some l => HardwareAddr l = hw ∨ n < leaseRange h
    end →
    Num lease = n → Addr lease = reqIP → HardwareAddr lease = hw →
    P (granted h hw n lease).
Hypothesis P_field :
  ∀ h k l l',
    P h → leasesIP h !! k = Some l →
    Num l' = Num l → Addr l' = Addr l → HardwareAddr l' = HardwareAddr l →
    P (set_leasesIP (<[k := l']> (leasesIP h)) h).

Lemma serveDHCP_preserves p msgType opts w r w' :
  P (hdl w) → serveDHCP tbl p msgType opts w = Done r w' → P (hdl w').
Proof.
  intros HP H.
  destruct (decide (msgType = Discover)) as [->|HD].
  { apply serveDHCP_Discover_quiet in H as (-> & _). exact HP. }
  destruct (decide (msgType = Request)) as [->|HR].
  { apply serveDHCP_Request_effect in H
      as [[(-> & _) _]|(n & lease & ? & ? & ? & ? & ? & ? & ? & -> & _)]; [exact HP|].
    eapply P_granted; eauto. }
  destruct (decide (msgType = Decline)) as [->|HDe].
  { rewrite serveDHCP_Decline_eq in H.
    apply bind_Done in H as (b & w1 & Hexp & H). injection H as _ <-.
    apply expireLease_effect in Hexp
      as [(_ & -> & _)|(num & l & _ & _ & Hl & _ & -> & _)]; [exact HP|].
    eapply P_field; eauto. }
  rewrite serveDHCP_other in H by done. by injection H as _ <-.
Qed.

Lemma reachable_invariant w : reachable tbl I w → P (hdl w).
Proof.
  induction 1 as [w He1 He2|w leases w' _ HI|w p mt opts r w' _ IH H
                 |w hw name e w' _ IH H].
  - by apply P_empty.
  - by apply P_restored.
  - apply ServeDHCP_inv in H as (_ & r0 & w0 & H0 & -> & _).
    eapply serveDHCP_preserves; eauto.
  - apply SetHostname_effect in H
      as [(_ & -> & _)|(lease & _ & Hl & _ & _ & -> & _)]; [exact IH|].
    eapply P_field; eauto.
Qed.

End Invariant.

Lemma heldBy_Some h hw l :
  heldBy h hw = Some l ↔
  ∃ n, leasesHW h !! hw = Some n ∧ leasesIP h !! n = Some l ∧ HardwareAddr l = hw.
Proof.
  unfold heldBy. split.
  - destruct (leasesHW h !! hw) as [n|]; [|done].
    destruct (leasesIP h !! n) as [l0|] eqn:Hl; [|done].
    destruct (string_eqb (HardwareAddr l0) hw) eqn:Hown; [|done].
    intros [= <-]. apply bool_decide_eq_true in Hown. eauto.
  - intros (n & -> & -> & Hown).
    unfold string_eqb. by rewrite bool_decide_eq_true_2.
Qed.

(** The leases a granted REQUEST leaves in place were there before. *)
Lemma granted_lookup h hw n lease k l :
  leasesIP (granted h hw n lease) !! k = Some l →
  (k = n ∧ l = lease) ∨ (k ≠ n ∧ leasesIP h !! k = Some l
                         ∧ ∀ l0, heldBy h hw = Some l0 → k ≠ Num l0).
Proof.
  unfold granted. simpl. intros H.
  apply lookup_insert_Some in H as [[-> ->]|[Hne H]]; [by left|].
  right. split; [done|].
  destruct (heldBy h hw) as [l0|].
  - apply lookup_delete_Some in H as [Hne' H]. split; [done|]. by intros ? [= <-].
  - split; [done|]. done.
Qed.

Lemma pool_ok_granted h hw n lease reqIP :
  pool_ok h → 0 <= n → length reqIP = 4%nat →
  IPRange (start h) reqIP = Some (n + 1) →
  match leasesIP h !! n with
  | None => n < leaseRange h
  | Some l => HardwareAddr l = hw ∨ n < leaseRange h
  end →
  Num lease = n → Addr lease = reqIP → HardwareAddr lease = hw →
  pool_ok (granted h hw n lease).
Proof.
  intros Hok Hpos Hlen Hrange Hslot HNum HAddr _ k l Hk.
  apply granted_lookup in Hk as [[-> ->]|(_ & Hk & _)]; [|by apply Hok].
  split; [done|]. unfold lease_wf. simpl. rewrite HNum, HAddr.
  split.
  - split; [done|].
    destruct (leasesIP h !! n) as [l0|] eqn:Hl0; [|done].
    destruct (Hok _ _ Hl0) as (HN0 & (? & ?) & _). lia.
  - destruct (IPAdd_IPRange (start h) reqIP (n + 1)) as [HA _]; try done; [lia|].
    by replace (n + 1 - 1) with n in HA by lia.
Qed.

Lemma pool_ok_field h k l l' :
  pool_ok h → leasesIP h !! k = Some l →
  Num l' = Num l → Addr l' = Addr l → HardwareAddr l' = HardwareAddr l →
  pool_ok (set_leasesIP (<[k := l']> (leasesIP h)) h).
Proof.
  intros Hok Hl HNum HAddr _ k0 l0. simpl. intros H.
  apply lookup_insert_Some in H as [[-> ->]|[_ H]]; [|by apply Hok].
  destruct (Hok _ _ Hl) as (? & ? & ?).
  unfold lease_wf. simpl. rewrite HNum, HAddr. done.
Qed.

Lemma indexed_granted h hw n lease reqIP :
  indexed h → 0 <= n → length reqIP = 4%nat →
  IPRange (start h) reqIP = Some (n + 1) →
  match leasesIP h !! n with
  | None => n < leaseRange h
  | Some l => HardwareAddr l = hw ∨ n < leaseRange h
  end →
  Num lease = n → Addr lease = reqIP → HardwareAddr lease = hw →
  indexed (granted h hw n lease).
Proof.
  intros Hix _ _ _ _ HNum _ HHw k l Hk.
  apply granted_lookup in Hk as [[-> ->]|(Hne & Hk & Hheld)].
  - split; [done|]. simpl. rewrite HHw. apply lookup_insert_eq.
  - destruct (Hix _ _ Hk) as [HN Hhw]. split; [done|]. simpl.
    destruct (decide (HardwareAddr l = hw)) as [Hown|Hown].
    + exfalso. apply (Hheld l); [|done].
      apply heldBy_Some. exists k. by rewrite <- Hown.
    + by rewrite lookup_insert_ne.
Qed.

Lemma indexed_field h k l l' :
  indexed h → leasesIP h !! k = Some l →
  Num l' = Num l → Addr l' = Addr l → HardwareAddr l' = HardwareAddr l →
  indexed (set_leasesIP (<[k := l']> (leasesIP h)) h).
Proof.
  intros Hix Hl HNum _ HHw k0 l0. simpl. intros H.
  apply lookup_insert_Some in H as [[-> ->]|[_ H]]; [|by apply Hix].
  destruct (Hix _ _ Hl). rewrite HNum, HHw. done.
Qed.

Lemma pool_ok_empty h : leasesIP h = ∅ → pool_ok h.
Proof. intros He k l. by rewrite He, lookup_empty. Qed.

Lemma indexed_empty h : leasesIP h = ∅ → indexed h.
Proof. intros He k l. by rewrite He, lookup_empty. Qed.

(** [SetLeases] stores each lease under its own [Num], so a restore of
    leases that lie in the pool gives a database that satisfies
    invariant 1. *)
Lemma restore_pool_ok h leases hw ips :
  Forall (lease_wf h) leases →
  (∀ k l, ips !! k = Some l → Num l = k ∧ lease_wf h l) →
  ∀ k l, (restore leases hw ips).2 !! k = Some l → Num l = k ∧ lease_wf h l.
Proof.
  intros Hall. revert hw ips.
  induction Hall as [|l0 leases Hl0 _ IH]; intros hw ips Hips; [exact Hips|].
  simpl. apply IH. intros k l Hk.
  apply lookup_insert_Some in Hk as [[<- <-]|[_ Hk]]; [|by apply Hips].
  destruct (IsZero (LastACK l0)); done.
Qed.

Lemma SetLeases_pool_ok leases w w' :
  Forall (lease_wf (hdl w)) leases →
  SetLeases leases w = Done tt w' → pool_ok (hdl w').
Proof.
  intros Hall. unfold SetLeases.
  destruct (restore leases ∅ ∅) as [hw ips] eqn:E. go_unfold.
  intros [= <-]. simpl. intros k l Hk.
  pose proof (restore_pool_ok (hdl w) leases ∅ ∅ Hall) as H.
  rewrite E in H. simpl in H.
  destruct (H ltac:(intros ? ?; by rewrite lookup_empty) k l Hk) as [? ?].
  done.
Qed.

(** C2: in every state reached from an empty database, or from a restored
    one that satisfies the invariant, by serving packets (and renaming
    leases), every stored lease has [0 <= num < lease_range] and
    [addr = start_ip + num] on 32 bits, big-endian.  In particular an
    offset that [canLease] accepts for a requested address is that address
    minus [start_ip], so the lease a granted REQUEST stores, with the
    requested address and that offset, satisfies [addr = start_ip + num]. *)
Theorem stored_leases_in_pool tbl w :
  reachable tbl pool_ok w →
  (∀ k l, leasesIP (hdl w) !! k = Some l →
          Num l = k ∧ 0 <= Num l < leaseRange (hdl w)
          ∧ IPAdd (start (hdl w)) (Num l) = Some (Addr l))
  ∧ (∀ reqIP hw n w',
       canLease reqIP hw w = Done n w' → n ≠ -1 →
       IPAdd (start (hdl w)) n = Some reqIP
       ∧ ∃ e s, Uint32 reqIP = Some e ∧ Uint32 (To4 (start (hdl w))) = Some s
                ∧ n = e - s)
  ∧ (∀ p opts x w',
       serveDHCP tbl p Request opts w = Done (Some x) w' → replyType x = ACK →
       ∃ lease, leasesIP (hdl w') !! Num lease = Some lease
                ∧ Addr lease = requested p opts
                ∧ IPAdd (start (hdl w')) (Num lease) = Some (Addr lease)).
Proof.
  intros Hreach.
  assert (Hok : pool_ok (hdl w)).
  { revert Hreach. apply reachable_invariant.
    - apply pool_ok_empty.
    - done.
    - apply pool_ok_granted.
    - apply pool_ok_field. }
  assert (Hcan : ∀ reqIP hw n w',
             canLease reqIP hw w = Done n w' → n ≠ -1 →
             IPAdd (start (hdl w)) n = Some reqIP
             ∧ ∃ e s, Uint32 reqIP = Some e ∧ Uint32 (To4 (start (hdl w))) = Some s
                      ∧ n = e - s).
  { intros reqIP hw n w' H Hn.
    apply canLease_accept in H as [?|(Hpos & Hlen & Hrange & _)]; [done|].
    destruct (IPAdd_IPRange _ _ _ Hlen Hrange) as [HA (e & s & ? & ? & ?)]; [lia|].
    replace (n + 1 - 1) with n in * by lia. eauto 10. }
  split; [|split; [exact Hcan|]].
  - intros k l Hl. destruct (Hok k l Hl) as (? & ? & ?). done.
  - intros p opts x w' H Hack.
    apply serveDHCP_Request_effect in H
      as [[_ HNAK]|(n & lease & Hpos & Hlen & Hrange & _ & HNum & HAddr & _ & -> & _)].
    { rewrite (HNAK x eq_refl) in Hack. discriminate. }
    exists lease. rewrite HNum, HAddr. unfold granted. simpl.
    rewrite lookup_insert_eq. split; [done|]. split; [done|].
    destruct (IPAdd_IPRange _ _ _ Hlen Hrange) as [HA _]; [lia|].
    by replace (n + 1 - 1) with n in HA by lia.
Qed.

Lemma leaseX_world_reachable I w :
  leasesHW (hdl w) = ∅ → leasesIP (hdl w) = ∅ →
  ServeDHCP sample_prefixes (packet_of macX) Request (requesting (ip 10 0 0 13)) w
  = Done None (leaseX_world w) →
  reachable sample_prefixes I (leaseX_world w).
Proof.
  intros H1 H2 H. eapply reach_serve; [|exact H]. by apply reach_empty.
Defined.

(** The lease of X at offset 3, in the state after X was granted
    10.0.0.13 out of the pool that starts at 10.0.0.10. *)
Lemma stored_leases_in_pool_witness :
  leasesIP (hdl (leaseX_world fresh_world)) !! 3
  = Some (mkLease 3 (ip 10 0 0 13) "aa:bb:cc:00:00:01" "" "" 1200000005000 5000)
  ∧ 0 <= 3 < leaseRange (hdl (leaseX_world fresh_world))
  ∧ IPAdd (start (hdl (leaseX_world fresh_world))) 3 = Some (ip 10 0 0 13).
Proof.
  assert (Hl : leasesIP (hdl (leaseX_world fresh_world)) !! 3
               = Some (mkLease 3 (ip 10 0 0 13) "aa:bb:cc:00:00:01" "" ""
                               1200000005000 5000))
    by (vm_compute; reflexivity).
  split; [exact Hl|].
  assert (Hr : reachable sample_prefixes pool_ok (leaseX_world fresh_world))
    by (apply leaseX_world_reachable; vm_compute; reflexivity).
  destruct (stored_leases_in_pool sample_prefixes (leaseX_world fresh_world) Hr)
    as [Hpool _].
  destruct (Hpool 3 _ Hl) as (_ & Hrange & Hadd).
  split; [exact Hrange|exact Hadd].
Defined.

(** ** The two indices *)

(** C4, as stated, fails: once Y has taken over the expired lease of X at
    offset 3, [leases_by_hw] still maps X to 3 while the lease stored
    there is Y's. *)
Lemma indices_agree_counterexample :
  ¬ (∀ w, reachable sample_prefixes indices_agree w → indices_agree (hdl w)).
Proof.
  intros H.
  assert (Hr : reachable sample_prefixes indices_agree takeover_world).
  { eapply reach_serve with (w := leaseX_world aging_world)
                            (p := packet_of macY) (msgType := Request)
                            (opts := requesting (ip 10 0 0 13)) (r := None).
    - apply leaseX_world_reachable; vm_compute; reflexivity.
    - vm_compute. reflexivity. }
  destruct (H takeover_world Hr "aa:bb:cc:00:00:01"%string 3) as (l & Hl & Hhw).
  - vm_compute. reflexivity.
  - vm_compute in Hl. injection Hl as <-. discriminate Hhw.
Qed.

(** C4, amended: in every state reached from an empty database, or from a
    restored one in which every lease is indexed, each stored lease lies
    under its own [Num] and [leases_by_hw] maps its owner to that offset;
    so a client owns at most one stored lease.  (The converse is what
    fails: an entry of [leases_by_hw] may outlive the lease it pointed
    to, and the lookups compare the owner for that reason.) *)
Theorem stored_leases_indexed tbl w :
  reachable tbl indexed w →
  (∀ n l, leasesIP (hdl w) !! n = Some l →
          Num l = n ∧ leasesHW (hdl w) !! HardwareAddr l = Some n)
  ∧ (∀ n1 l1 n2 l2,
       leasesIP (hdl w) !! n1 = Some l1 → leasesIP (hdl w) !! n2 = Some l2 →
       HardwareAddr l1 = HardwareAddr l2 → n1 = n2).
Proof.
  intros Hreach.
  assert (Hix : indexed (hdl w)).
  { revert Hreach. apply reachable_invariant.
    - apply indexed_empty.
    - done.
    - apply indexed_granted.
    - apply indexed_field. }
  split; [exact Hix|].
  intros n1 l1 n2 l2 H1 H2 Hhw.
  destruct (Hix _ _ H1) as [_ E1]. destruct (Hix _ _ H2) as [_ E2].
  rewrite Hhw in E1. congruence.
Qed.

(** After the takeover the lease at offset 3 is Y's and Y is indexed
    there. *)
Lemma stored_leases_indexed_witness :
  HardwareAddr_String macY = "aa:bb:cc:00:00:03"%string
  ∧ leasesHW (hdl takeover_world) !! "aa:bb:cc:00:00:03"%string = Some 3.
Proof.
  split; [reflexivity|].
  assert (Hr : reachable sample_prefixes indexed takeover_world).
  { eapply reach_serve with (w := leaseX_world aging_world)
                            (p := packet_of macY) (msgType := Request)
                            (opts := requesting (ip 10 0 0 13)) (r := None).
    - apply leaseX_world_reachable; vm_compute; reflexivity.
    - vm_compute. reflexivity. }
  destruct (stored_leases_indexed sample_prefixes takeover_world Hr) as [Hix _].
  assert (Hl : leasesIP (hdl takeover_world) !! 3
               = Some (mkLease 3 (ip 10 0 0 13) "aa:bb:cc:00:00:03" "" ""
                               (1000 + 3 * 10 ^ 13 + leasePeriod) (1000 + 4 * 10 ^ 13)))
    by (vm_compute; reflexivity).
  destruct (Hix 3 _ Hl) as [_ Hhw]. exact Hhw.
Defined.

(** ** SetHostname *)

(** The lease [SetHostname] dereferences is the one under
    [h.leasesHW[hwaddr]], which is offset 0 when the key is missing; when
    no lease is stored there the method panics instead of returning its
    error. *)
Lemma SetHostname_nil_lease hwaddr hostname w :
  leasesIP (hdl w) !! default 0 (leasesHW (hdl w) !! hwaddr) = None →
  SetHostname hwaddr hostname w = Panic.
Proof. intros H. unfold SetHostname. go_unfold. by rewrite H. Qed.

(** C5 (what the code does where the claim fails): on a handler that has
    no lease at all, [SetHostname] for an unknown hardware address does
    not return an error: it panics on the nil lease. *)
Theorem SetHostname_unknown_panics :
  leasesHW (hdl fresh_world) !! "aa:bb:cc:00:00:01"%string = None
  ∧ SetHostname "aa:bb:cc:00:00:01" "laptop" fresh_world = Panic.
Proof. split; [reflexivity|]. by apply SetHostname_nil_lease. Qed.

(** ** DECLINE *)

(** DECLINE from a client that holds a lease stamps that lease with the
    process clock [time.Now()], whatever clock the handler was given,
    publishes nothing and sends no reply. *)
Lemma serveDHCP_Decline_held tbl p opts w l :
  heldBy (hdl w) (HardwareAddr_String (CHAddr p)) = Some l →
  ∃ n w',
    serveDHCP tbl p Decline opts w = Done None w'
    ∧ leasesHW (hdl w) !! HardwareAddr_String (CHAddr p) = Some n
    ∧ leasesIP (hdl w) !! n = Some l
    ∧ hdl w' = set_leasesIP
                 (<[n := set_Expiry (wallClock w (wallCalls w)) l]> (leasesIP (hdl w)))
                 (hdl w)
    ∧ published w' = published w ∧ sent w' = sent w
    ∧ clockCalls w' = clockCalls w ∧ wallClock w' = wallClock w
    ∧ wallCalls w' = S (wallCalls w).
Proof.
  intros Hheld. rewrite serveDHCP_Decline_eq. unfold bind.
  destruct (expireLease (HardwareAddr_String (CHAddr p)) w) as [b w'|] eqn:E.
  - apply expireLease_effect in E
      as [(_ & _ & Hnone)|(n & l' & _ & Hhw & Hip & _ & Hh & Hp & Hs & Hc & Hw & Hn)];
      [congruence|].
    apply heldBy_Some in Hheld as (n' & Hhw' & Hip' & _).
    assert (n' = n) as -> by congruence. assert (l' = l) as -> by congruence.
    exists n, w'. by repeat split.
  - exfalso. apply heldBy_Some in Hheld as (n & Hhw & Hip & Hown).
    unfold expireLease in E. go_unfold. rewrite Hhw, Hip in E.
    unfold string_eqb in E. rewrite bool_decide_eq_true_2 in E by done.
    discriminate.
Qed.

(** With the production clock, the lease a DECLINE stamped is expired at
    the next reading exactly when the clock moved on in between. *)
Lemma decline_production_clock tbl p opts w l :
  timeNow (hdl w) = None →
  heldBy (hdl w) (HardwareAddr_String (CHAddr p)) = Some l →
  ∃ n w',
    serveDHCP tbl p Decline opts w = Done None w'
    ∧ leasesIP (hdl w') !! n = Some (set_Expiry (wallClock w (wallCalls w)) l)
    ∧ (Expired (set_Expiry (wallClock w (wallCalls w)) l) (peek_timeNow w') = true
       ↔ wallClock w (wallCalls w) ≠ 0
         ∧ wallClock w (wallCalls w) < wallClock w (S (wallCalls w))).
Proof.
  intros Hclock Hheld.
  destruct (serveDHCP_Decline_held tbl p opts w l Hheld)
    as (n & w' & E & _ & _ & Hh & _ & _ & _ & Hwc & Hwn).
  exists n, w'. split; [done|]. split.
  - rewrite Hh. simpl. apply lookup_insert_eq.
  - unfold peek_timeNow. rewrite Hh. simpl. rewrite Hclock, Hwc, Hwn.
    unfold Expired, IsZero, After. simpl.
    rewrite andb_true_iff, negb_true_iff, Z.eqb_neq, Z.ltb_lt. done.
Qed.

(** C6 (what the code does where the claim fails): X holds the lease at
    offset 3 in a handler whose injected clock stays at 1000 while the
    process clock reads 5000.  DECLINE from X sets the expiry to 5000, the
    reading of the process clock, so for [time_now], which still reads
    1000, the lease is not expired; and the address stays unavailable to
    another client. *)
Theorem decline_bypasses_injected_clock :
  ∃ w',
    serveDHCP sample_prefixes (packet_of macX) Decline ∅ (leaseX_world frozen_world)
    = Done None w'
    ∧ leasesIP (hdl w') !! 3
      = Some (mkLease 3 (ip 10 0 0 13) "aa:bb:cc:00:00:01" "" "" 5000 1000)
    ∧ peek_timeNow w' = 1000
    ∧ Expired (mkLease 3 (ip 10 0 0 13) "aa:bb:cc:00:00:01" "" "" 5000 1000)
              (peek_timeNow w') = false
    ∧ ∃ w'', canLease (ip 10 0 0 13) (HardwareAddr_String macY) w' = Done (-1) w''.
Proof.
  eexists. split; [vm_compute; reflexivity|].
  split; [vm_compute; reflexivity|].
  split; [reflexivity|]. split; [reflexivity|].
  eexists. vm_compute. reflexivity.
Qed.

(** ** The observer *)

(** C9, as stated, fails: DECLINE from X changes the lease stored at
    offset 3 (its expiry) while an observer is registered, and the
    observer is not called. *)
Lemma every_mutation_published_counterexample :
  ¬ every_mutation_published sample_prefixes.
Proof.
  intros [H _].
  eapply (H (leaseX_world fresh_world) (packet_of macX) Decline ∅ None).
  - reflexivity.
  - vm_compute. reflexivity.
  - vm_compute. intros E. discriminate E.
  - reflexivity.
Qed.

(** ** The lookup by hardware address *)

Lemma heldBy_None_stale h hw n l :
  leasesHW h !! hw = Some n → leasesIP h !! n = Some l → HardwareAddr l ≠ hw →
  heldBy h hw = None.
Proof.
  intros Hhw Hip Hown. unfold heldBy. rewrite Hhw, Hip.
  unfold string_eqb. by rewrite bool_decide_eq_false_2.
Qed.

Lemma leaseHW_heldBy_None hw w :
  heldBy (hdl w) hw = None → ∃ o, leaseHW hw w = Done (o, false) w.
Proof.
  intros H. rewrite leaseHW_Done. unfold heldBy in H.
  destruct (leasesHW (hdl w) !! hw) as [n|]; [|eauto].
  destruct (leasesIP (hdl w) !! n) as [l|]; [|eauto].
  destruct (string_eqb (HardwareAddr l) hw); [done|eauto].
Qed.

Lemma leaseHW_heldBy_Some hw w l :
  heldBy (hdl w) hw = Some l → leaseHW hw w = Done (Some l, true) w.
Proof.
  intros H. rewrite leaseHW_Done. unfold heldBy in H.
  destruct (leasesHW (hdl w) !! hw) as [n|]; [|done].
  destruct (leasesIP (hdl w) !! n) as [l0|]; [|done].
  destruct (string_eqb (HardwareAddr l0) hw); [|done]. by injection H as ->.
Qed.

(** C10: [leaseHW hw] reports a lease only when [leases_by_hw] holds
    [hw], a lease is stored at that offset and that lease is owned by
    [hw].  So when the entry of [hw] is stale (it points at a lease owned
    by another client, as after a takeover) the lookup fails, the reuse
    step of DISCOVER ([offerPrevious]) keeps the candidate it was given and
    the inherit-and-release block of REQUEST ([inheritAndRelease]) returns
    the new lease untouched and changes nothing.  Whenever the reuse step
    replaces the candidate it is by the offset of a lease of [hw];
    whatever the REQUEST block inherits or deletes is a lease of [hw]; and
    in a database where each lease lies under its own [Num] every lease of
    another client is still stored afterwards. *)
Theorem leaseHW_only_own_lease w hw :
  (∀ o w', leaseHW hw w = Done (o, true) w' →
           w' = w
           ∧ ∃ n l, o = Some l ∧ leasesHW (hdl w) !! hw = Some n
                    ∧ leasesIP (hdl w) !! n = Some l ∧ HardwareAddr l = hw)
  ∧ (∀ n l, leasesHW (hdl w) !! hw = Some n → leasesIP (hdl w) !! n = Some l →
            HardwareAddr l ≠ hw →
            (∃ o, leaseHW hw w = Done (o, false) w)
            ∧ (∀ free, offerPrevious hw free w = Done free w)
            ∧ (∀ lease, HardwareAddr lease = hw →
                        inheritAndRelease lease w = Done lease w))
  ∧ (∀ free n w', offerPrevious hw free w = Done n w' →
                  n = free
                  ∨ ∃ k l, leasesIP (hdl w) !! k = Some l ∧ HardwareAddr l = hw
                           ∧ n = Num l)
  ∧ (∀ lease lease' w',
       HardwareAddr lease = hw →
       inheritAndRelease lease w = Done lease' w' →
       (lease' = lease ∧ w' = w)
       ∨ ∃ k l, leasesIP (hdl w) !! k = Some l ∧ HardwareAddr l = hw
                ∧ leasesIP (hdl w') = delete (Num l) (leasesIP (hdl w))
                ∧ leasesHW (hdl w') = leasesHW (hdl w)
                ∧ (Hostname lease' = Hostname lease
                   ∨ Hostname lease' = Hostname l
                   ∨ Hostname lease' = HostnameOverride l)
                ∧ (HostnameOverride lease' = HostnameOverride lease
                   ∨ HostnameOverride lease' = HostnameOverride l)
                ∧ (Expiry lease' = Expiry lease ∨ Expiry lease' = Expiry l))
  ∧ (∀ lease lease' w' k l',
       HardwareAddr lease = hw →
       (∀ k l, leasesIP (hdl w) !! k = Some l → Num l = k) →
       inheritAndRelease lease w = Done lease' w' →
       leasesIP (hdl w) !! k = Some l' → HardwareAddr l' ≠ hw →
       leasesIP (hdl w') !! k = Some l').
Proof.
  assert (Hstep4 : ∀ lease lease' w',
       HardwareAddr lease = hw →
       inheritAndRelease lease w = Done lease' w' →
       (lease' = lease ∧ w' = w)
       ∨ ∃ k l, leasesIP (hdl w) !! k = Some l ∧ HardwareAddr l = hw
                ∧ leasesIP (hdl w') = delete (Num l) (leasesIP (hdl w))
                ∧ leasesHW (hdl w') = leasesHW (hdl w)
                ∧ (Hostname lease' = Hostname lease
                   ∨ Hostname lease' = Hostname l
                   ∨ Hostname lease' = HostnameOverride l)
                ∧ (HostnameOverride lease' = HostnameOverride lease
                   ∨ HostnameOverride lease' = HostnameOverride l)
                ∧ (Expiry lease' = Expiry lease ∨ Expiry lease' = Expiry l)).
  { intros lease lease' w' Hhw H. unfold inheritAndRelease, bind in H.
    rewrite Hhw in H.
    destruct (heldBy (hdl w) hw) as [l|] eqn:Hheld.
    - rewrite (leaseHW_heldBy_Some _ _ _ Hheld) in H.
      apply heldBy_Some in Hheld as (k & _ & Hip & Hown).
      go_unfold. injection H as <- <-. right. exists k, l. simpl.
      split; [done|]. split; [done|]. split; [done|]. split; [done|].
      destruct (IsZero (Expiry l)) eqn:Hz;
        destruct (string_eqb (HostnameOverride l) EmptyString); simpl;
        try apply Z.eqb_eq in Hz; rewrite ?Hz; auto 10.
    - destruct (leaseHW_heldBy_None _ _ Hheld) as [o Ho]. rewrite Ho in H.
      left. destruct o; by injection H as <- <-. }
  split; [|split; [|split; [|split; [exact Hstep4|]]]].
  - intros o w' H. rewrite leaseHW_Done in H.
    destruct (leasesHW (hdl w) !! hw) as [n|] eqn:Hhw; [|done].
    destruct (leasesIP (hdl w) !! n) as [l|] eqn:Hip; [|done].
    injection H as <- Hown <-. split; [done|].
    apply bool_decide_eq_true in Hown. eauto 10.
  - intros n l Hhw Hip Hown.
    pose proof (heldBy_None_stale _ _ _ _ Hhw Hip Hown) as Hnone.
    destruct (leaseHW_heldBy_None _ _ Hnone) as [o Ho].
    split; [eauto|]. split.
    + intros free. unfold offerPrevious, bind. rewrite Ho. by destruct o.
    + intros lease <-. unfold inheritAndRelease, bind. rewrite Ho. by destruct o.
  - intros free n w' H. unfold offerPrevious, bind in H.
    destruct (heldBy (hdl w) hw) as [l|] eqn:Hheld.
    + rewrite (leaseHW_heldBy_Some _ _ _ Hheld) in H.
      apply heldBy_Some in Hheld as (k & _ & Hip & Hown).
      destruct (call_timeNow w) as [t w1|]; [|done].
      destruct (negb (Expired l t)); injection H as <- <-; eauto 10.
    + destruct (leaseHW_heldBy_None _ _ Hheld) as [o Ho]. rewrite Ho in H.
      left. destruct o; by injection H as <- _.
  - intros lease lease' w' k l' Hhw Hkeys H Hk Hown.
    destruct (Hstep4 _ _ _ Hhw H) as [[_ ->]|(k0 & l & Hk0 & Hown0 & Hdel & _)];
      [done|].
    rewrite Hdel. rewrite lookup_delete_ne; [done|].
    rewrite (Hkeys _ _ Hk0). intros ->. congruence.
Qed.

(** After the takeover the entry of X is stale: it points at offset 3,
    where the lease is Y's.  A DISCOVER of X does not reuse it and a
    REQUEST of X neither inherits from it nor deletes it. *)
Lemma leaseHW_only_own_lease_witness :
  offerPrevious "aa:bb:cc:00:00:01" (-1) takeover_world = Done (-1) takeover_world
  ∧ inheritAndRelease (mkLease 1 (ip 10 0 0 11) "aa:bb:cc:00:00:01" "" "" 0 0)
                      takeover_world
    = Done (mkLease 1 (ip 10 0 0 11) "aa:bb:cc:00:00:01" "" "" 0 0) takeover_world.
Proof.
  destruct (leaseHW_only_own_lease takeover_world "aa:bb:cc:00:00:01")
    as (_ & Hstale & _).
  destruct (Hstale 3 (mkLease 3 (ip 10 0 0 13) "aa:bb:cc:00:00:03" "" ""
                               (1000 + 3 * 10 ^ 13 + leasePeriod) (1000 + 4 * 10 ^ 13)))
    as (_ & Hoffer & Hinherit).
  - vm_compute. reflexivity.
  - vm_compute. reflexivity.
  - discriminate.
  - split; [apply Hoffer|apply Hinherit; reflexivity].
Defined.

(** ** DISCOVER *)

Lemma canLease_sign reqIP hw w n w' :
  canLease reqIP hw w = Done n w' → n = -1 ∨ 0 <= n.
Proof. intros H. apply canLease_accept in H as [?|(? & _)]; auto. Qed.

(** C1, amended: DISCOVER takes the offset of the static lease when
    [canLease] accepts it, else the one of a non-zero requested address
    when [canLease] accepts it; then, if the client has an unexpired lease
    of its own, the offset of that lease replaces the candidate, whatever
    the first two steps gave; only when the candidate is still [-1] the
    search runs.  No offset gives no reply; otherwise the reply is an OFFER
    whose YIAddr is [start_ip] plus the offset. *)
Theorem discover_offer tbl w p opts s ws r wr :
  let h := hdl w in
  let hw := HardwareAddr_String (CHAddr p) in
  let reqIP := requested p opts in
  match staticLeases h !! ToLower hw with
  | Some sl => canLease (sl_Addr sl) hw w
  | None => Done (-1) w
  end = Done s ws →
  (if (s <? 0) && negb (IP_Equal (To4 reqIP) IPv4zero)
   then canLease reqIP hw ws else Done (-1) ws) = Done r wr →
  let held := match heldBy h hw with
              | Some l => if Expired l (peek_timeNow wr) then None else Some (Num l)
              | None => None
              end in
  let w3 := match heldBy h hw with
            | Some _ => world_after wr (call_timeNow wr)
            | None => wr
            end in
  ∀ f w4,
    (if discover_choice s r held (-1) =? -1 then findLease w3 else Done (-1) w3)
    = Done f w4 →
    serveDHCP tbl p Discover opts w
    = if discover_choice s r held f =? -1 then Done None w4
      else match IPAdd (start h) (discover_choice s r held f) with
           | Some yi =>
               Done (Some (ReplyPacket p Offer (serverIP h) yi
                             (leasePeriodForDevice tbl h hw)
                             (SelectOrderOrAll (options h)
                                               (opts !! OptionParameterRequestList))))
                    w4
           | None => Panic
           end.
Proof.
  cbv zeta. intros Hs Hr f w4 Hf.
  set (h := hdl w) in *. set (hw := HardwareAddr_String (CHAddr p)) in *.
  set (reqIP := requested p opts) in *.
  assert (Hsign : s = -1 ∨ 0 <= s).
  { destruct (staticLeases h !! ToLower hw).
    - eapply canLease_sign; eauto.
    - injection Hs as <- _. by left. }
  assert (Qs : quiet w ws).
  { destruct (staticLeases h !! ToLower hw).
    - eapply canLease_quiet; eauto.
    - injection Hs as _ <-. apply quiet_refl. }
  assert (Qr : quiet ws wr).
  { destruct ((s <? 0) && _).
    - eapply canLease_quiet; eauto.
    - injection Hr as _ <-. apply quiet_refl. }
  assert (Hh : hdl wr = h) by (destruct Qs as (? & _), Qr as (? & _); subst h; congruence).
  (* the first two steps *)
  assert (Hpre : discoverPreferred p opts w
                 = Done (if s <? 0 then r else s) wr).
  { unfold discoverPreferred, bind, this. fold (requested p opts). fold h hw reqIP.
    assert (Hs' : match staticLeases h !! ToLower hw with
                  | Some sl => canLease (sl_Addr sl) hw
                  | None => ret (-1)
                  end w = Done s ws) by (destruct (staticLeases h !! ToLower hw); exact Hs).
    rewrite Hs'.
    destruct (s <? 0) eqn:Hneg; simpl in *.
    - destruct (negb (IP_Equal (To4 reqIP) IPv4zero)); simpl in *; [exact Hr|].
      injection Hr as <- <-. unfold ret. f_equal. apply Z.ltb_lt in Hneg. lia.
    - by injection Hr as _ <-. }
  (* the third step *)
  set (held := match heldBy h hw with
               | Some l => if Expired l (peek_timeNow wr) then None else Some (Num l)
               | None => None
               end) in *.
  set (w3 := match heldBy h hw with
             | Some _ => world_after wr (call_timeNow wr)
             | None => wr
             end) in *.
  assert (Hprev : offerPrevious hw (if s <? 0 then r else s) wr
                  = Done (match held with
                          | Some n => n
                          | None => if s <? 0 then r else s
                          end) w3).
  { unfold offerPrevious, bind. subst held w3. rewrite <- Hh.
    destruct (heldBy (hdl wr) hw) as [l|] eqn:Hheld.
    - rewrite (leaseHW_heldBy_Some _ _ _ Hheld).
      destruct (call_timeNow_Done wr) as (w' & E & _). rewrite E. simpl.
      by destruct (Expired l (peek_timeNow wr)).
    - destruct (leaseHW_heldBy_None _ _ Hheld) as [o Ho]. rewrite Ho.
      by destruct o. }
  rewrite serveDHCP_Discover_eq. fold h hw. unfold bind at 1. rewrite Hpre.
  unfold bind at 1. rewrite Hprev.
  unfold offerOrSearch, bind. fold h hw.
  unfold discover_choice in *.
  destruct ((match held with Some n => n | None => if s <? 0 then r else s end) =? -1)
    eqn:E1; simpl in Hf |- *.
  - rewrite Hf.
    destruct (f =? -1); [done|]. unfold orPanic, ret, panic.
    by destruct (IPAdd (start h) f).
  - rewrite E1 in Hf. injection Hf as <- <-. unfold ret at 1. rewrite E1.
    unfold orPanic, ret, panic. by destruct (IPAdd (start h) _).
Qed.

(** X holds the unexpired lease at offset 3 and asks for 10.0.0.11, which
    is free: the OFFER is for 10.0.0.13. *)
Lemma discover_offer_witness :
  match serveDHCP sample_prefixes (packet_of macX) Discover (requesting (ip 10 0 0 11))
                  (leaseX_world fresh_world) with
  | Done (Some reply) _ => replyType reply = Offer ∧ YIAddr reply = ip 10 0 0 13
  | _ => False
  end.
Proof.
  rewrite (discover_offer sample_prefixes (leaseX_world fresh_world) (packet_of macX)
             (requesting (ip 10 0 0 11))
             (-1) (leaseX_world fresh_world) 1 (leaseX_world fresh_world)
             ltac:(vm_compute; reflexivity) ltac:(vm_compute; reflexivity)
             (-1) (world_after (leaseX_world fresh_world)
                               (call_timeNow (leaseX_world fresh_world)))
             ltac:(vm_compute; reflexivity)).
  vm_compute. split; reflexivity.
Defined.

(** C1, as stated, fails: in that same exchange the requested address gave
    offset 1, and the OFFER is not for 10.0.0.11 but for the address of
    the lease X already holds. *)
Lemma discover_first_wins_counterexample :
  ¬ discover_first_wins sample_prefixes.
Proof.
  intros H.
  pose proof (H (leaseX_world fresh_world) (packet_of macX) (requesting (ip 10 0 0 11))
                (-1) (leaseX_world fresh_world) 1 (leaseX_world fresh_world)) as H1.
  destruct (serveDHCP sample_prefixes (packet_of macX) Discover
                      (requesting (ip 10 0 0 11)) (leaseX_world fresh_world))
    as [[reply|] w'|] eqn:E; try (vm_compute in E; discriminate E).
  specialize (H1 reply w' ltac:(vm_compute; reflexivity)
                 ltac:(vm_compute; reflexivity) ltac:(right; lia) eq_refl).
  vm_compute in E. injection E as <- _.
  vm_compute in H1. discriminate H1.
Qed.

(** ** The lease period *)




















(** ** Reserved offsets *)

(** What [NewHandler] reserves for a static lease is [IPRange(start, addr)],
    one more than the offset of the address. *)
Lemma add_static_reserved startIP sls acc acc' :
  add_static startIP sls acc = Some acc' →
  ∀ i, i ∈ acc'.2 ↔
       i ∈ acc.2 ∨ ∃ sl, sl ∈ sls ∧ IPRange startIP (sl_Addr sl) = Some i.
Proof.
  revert acc. induction sls as [|sl sls IH]; intros acc H i; simpl in H.
  - injection H as <-. split; [auto|]. intros [?|(sl & Hin & _)]; [done|].
    by apply elem_of_nil in Hin.
  - destruct (IPRange startIP (sl_Addr sl)) as [j|] eqn:Hj; [|done].
    rewrite (IH _ H i). simpl. rewrite elem_of_union, elem_of_singleton.
    split.
    + intros [[->|?]|(sl' & Hin & Hr)]; [right|by left|right].
      * exists sl. split; [apply list_elem_of_here|done].
      * exists sl'. split; [by apply list_elem_of_further|done].
    + intros [?|(sl' & Hin & Hr)]; [auto|].
      apply elem_of_cons in Hin as [->|Hin]; [|eauto].
      left. left. congruence.
Qed.

Lemma scan_spec h now n i m :
  scan h now n i = m → m ≠ -1 → 0 <= i →
  i <= m ∧ m < i + Z.of_nat n
  ∧ available h now m = true ∧ reserved h m = false.
Proof.
  revert i. induction n as [|n IH]; intros i H Hm Hi; simpl in H; [congruence|].
  destruct (available h now i && negb (reserved h i)) eqn:E.
  - subst m. apply andb_true_iff in E as [? ?%negb_true_iff].
    repeat split; auto; lia.
  - destruct (IH (i + 1) H Hm ltac:(lia)) as (? & ? & ? & ?).
    repeat split; auto; lia.
Qed.

(** Invariants 2 and 8 of the specification: the search returns an offset
    of the pool that is not reserved and whose lease, if any, is expired. *)
Lemma findLease_spec w n w' :
  findLease w = Done n w' → n ≠ -1 →
  0 <= n < leaseRange (hdl w)
  ∧ (n ∉ reservedOffsets (hdl w))
  ∧ match leasesIP (hdl w) !! n with
    | None => True
    | Some l => Expired l (peek_timeNow w) = true
    end.
Proof.
  unfold findLease. intros H Hn.
  apply bind_Done in H as (h & w0 & Hthis & H).
  unfold this in Hthis. injection Hthis as <- <-.
  apply bind_Done in H as (now & w1 & Hnow & H).
  apply call_timeNow_inv in Hnow as [-> _].
  destruct (Z.of_nat (size (leasesIP (hdl w))) <? leaseRange (hdl w)) eqn:Hsz;
    [|by injection H as <- _].
  apply Z.ltb_lt in Hsz.
  apply bind_Done in H as (i & w2 & Hi & H).
  unfold rand_Intn in Hi.
  destruct (leaseRange (hdl w) <=? 0) eqn:Hpos; [done|].
  apply Z.leb_gt in Hpos. injection Hi as <- <-.
  assert (Hfin : ∀ m, available (hdl w) (peek_timeNow w) m = true →
                      reserved (hdl w) m = false →
                      (m ∉ reservedOffsets (hdl w))
                      ∧ match leasesIP (hdl w) !! m with
                        | None => True
                        | Some l => Expired l (peek_timeNow w) = true
                        end).
  { intros m Ha Hr. split.
    - by apply bool_decide_eq_false in Hr.
    - unfold available in Ha. by destruct (leasesIP (hdl w) !! m). }
  destruct (available (hdl w) (peek_timeNow w) _ && negb (reserved (hdl w) _)) eqn:E.
  - injection H as <- _. apply andb_true_iff in E as [Ha Hr%negb_true_iff].
    split; [|by apply Hfin].
    apply Z.mod_pos_bound. lia.
  - injection H as Hscan _.
    apply scan_spec in Hscan as (? & ? & Ha & Hr); [|done|lia].
    split; [lia|by apply Hfin].
Qed.

(** C3 (what the code does where the claim fails): for the pool that
    starts at 10.0.0.10 with a static lease for 10.0.0.12, whose offset is
    2, [NewHandler] reserves [IPRange(start, addr)], which is 3.  Offset 2
    is not reserved: the search returns it when the random draw is 2, and a
    DISCOVER of another client is then offered 10.0.0.12. *)
Theorem static_offset_not_reserved :
  static_config = Built static_handler
  ∧ IPAdd (start static_handler) 2 = Some (ip 10 0 0 12)
  ∧ reserved static_handler 2 = false
  ∧ reserved static_handler 3 = true
  ∧ (∃ w', findLease (world_of static_handler (fun _ => 5000) 2) = Done 2 w')
  ∧ (∃ reply w',
       serveDHCP sample_prefixes (packet_of macX) Discover ∅
                 (world_of static_handler (fun _ => 5000) 2)
       = Done (Some reply) w'
       ∧ replyType reply = Offer ∧ YIAddr reply = ip 10 0 0 12).
Proof.
  split; [vm_compute; reflexivity|].
  split; [vm_compute; reflexivity|].
  split; [vm_compute; reflexivity|].
  split; [vm_compute; reflexivity|].
  split.
  - eexists. vm_compute. reflexivity.
  - eexists _, _. split; [vm_compute; reflexivity|]. split; reflexivity.
Qed.

(** * Further properties of the handler *)

(** ** The search for a free offset *)

Lemma scan_none h now n i :
  0 <= i → scan h now n i = -1 →
  ∀ j, i <= j → j < i + Z.of_nat n →
       available h now j && negb (reserved h j) = false.
Proof.
  revert i. induction n as [|n IH]; intros i Hi H j Hj1 Hj2; [lia|].
  simpl in H. destruct (available h now i && negb (reserved h i)) eqn:E; [lia|].
  destruct (Z.eq_dec j i) as [->|Hne]; [done|].
  apply (IH (i + 1)); auto; lia.
Qed.

Lemma scan_least h now n i m :
  scan h now n i = m → m ≠ -1 → 0 <= i →
  ∀ j, i <= j → j < m → available h now j && negb (reserved h j) = false.
Proof.
  revert i. induction n as [|n IH]; intros i H Hm Hi j Hj1 Hj2; simpl in H;
    [congruence|].
  destruct (available h now i && negb (reserved h i)) eqn:E; [lia|].
  destruct (Z.eq_dec j i) as [->|Hne]; [done|].
  apply (IH (i + 1)); auto; lia.
Qed.

Lemma findLease_Done w :
  ∃ n w', findLease w = Done n w' ∧ quiet w w'
          ∧ (leaseRange (hdl w) <= Z.of_nat (size (leasesIP (hdl w))) → n = -1).
Proof.
  unfold findLease, bind, this.
  destruct (call_timeNow_Done w) as (w1 & E & Q). rewrite E.
  destruct (Z.of_nat (size (leasesIP (hdl w))) <? leaseRange (hdl w)) eqn:Hsz.
  - apply Z.ltb_lt in Hsz. unfold rand_Intn.
    assert (Hpos : (leaseRange (hdl w) <=? 0) = false) by (apply Z.leb_gt; lia).
    rewrite Hpos.
    destruct (available _ _ _ && negb (reserved _ _)); unfold ret;
      eexists _, _; (split; [reflexivity|]); (split; [|lia]);
      destruct Q as (? & ? & ?); by repeat split.
  - unfold ret. eexists _, _. split; [reflexivity|]. split; auto.
Qed.

(** X1: an offset that [findLease] returns (anything but [-1]) lies
    in [[0, leaseRange)], is not a reserved offset, and the lease stored
    there, if any, is expired at the instant [h.timeNow()] returned; the
    search changes nothing of the handler. *)
Theorem findLease_offset_is_free w n w' :
  findLease w = Done n w' → n ≠ -1 →
  0 <= n < leaseRange (hdl w)
  ∧ (n ∉ reservedOffsets (hdl w))
  ∧ (∀ l, leasesIP (hdl w) !! n = Some l → Expired l (peek_timeNow w) = true)
  ∧ hdl w' = hdl w.
Proof.
  intros H Hn. destruct (findLease_spec w n w' H Hn) as (Hr & Hres & Hl).
  apply findLease_quiet in H as (Hh & _).
  repeat split; try done; try lia.
  intros l El. by rewrite El in Hl.
Qed.

Lemma findLease_offset_is_free_witness :
  0 <= 2 < leaseRange (hdl fresh_world) ∧ (2 ∉ reservedOffsets (hdl fresh_world)).
Proof.
  destruct (findLease_offset_is_free fresh_world 2
              (world_after fresh_world (findLease fresh_world)))
    as (H1 & H2 & _).
  - vm_compute. reflexivity.
  - discriminate.
  - split; [exact H1|exact H2].
Defined.

(** X2: [findLease] always returns, with [-1] or an offset of
    [[0, leaseRange)]: the draw [rand.Intn(leaseRange)], which panics on a
    range that is not positive, is only made when the database holds fewer
    than [leaseRange] leases.  When the database holds [leaseRange] leases or
    more the result is [-1], whether or not some of them are expired. *)
Theorem findLease_never_panics w :
  ∃ n w', findLease w = Done n w'
          ∧ (n = -1 ∨ 0 <= n < leaseRange (hdl w))
          ∧ (leaseRange (hdl w) <= Z.of_nat (size (leasesIP (hdl w))) → n = -1).
Proof.
  destruct (findLease_Done w) as (n & w' & E & _ & Hfull).
  exists n, w'. split; [done|]. split; [|done].
  destruct (Z.eq_dec n (-1)) as [?|Hn]; [by left|right].
  by destruct (findLease_spec w n w' E Hn) as (? & _).
Qed.

(** X3: when the database holds fewer leases than [leaseRange] and some
    offset of the pool is vacant or expired and not reserved, [findLease]
    finds an offset.  It is the draw [rand.Intn(leaseRange)] whenever that
    offset is free (vacant or expired, and not reserved); otherwise it is
    the least free offset of the pool. *)
Theorem findLease_finds_free_offset w i :
  Z.of_nat (size (leasesIP (hdl w))) < leaseRange (hdl w) →
  0 <= i < leaseRange (hdl w) →
  available (hdl w) (peek_timeNow w) i = true →
  reserved (hdl w) i = false →
  let free j := available (hdl w) (peek_timeNow w) j && negb (reserved (hdl w) j) in
  let draw := randSource w (randCalls w) mod leaseRange (hdl w) in
  ∃ n w',
    findLease w = Done n w' ∧ n ≠ -1
    ∧ (free draw = true → n = draw)
    ∧ (free draw = false →
       0 <= n ∧ n <= i ∧ free n = true ∧ ∀ j, 0 <= j → j < n → free j = false).
Proof.
  intros Hsz Hi Ha Hr free draw.
  unfold findLease, bind, this.
  destruct (call_timeNow_Done w) as (w1 & E & Q). rewrite E.
  assert (Hlt : (Z.of_nat (size (leasesIP (hdl w))) <? leaseRange (hdl w)) = true)
    by (by apply Z.ltb_lt).
  rewrite Hlt. unfold rand_Intn.
  assert (Hpos : (leaseRange (hdl w) <=? 0) = false) by (apply Z.leb_gt; lia).
  rewrite Hpos.
  assert (Hq : randSource w1 (randCalls w1) = randSource w (randCalls w)).
  { unfold call_timeNow, time_Now in E.
    destruct (timeNow (hdl w)); by injection E as _ <-. }
  rewrite Hq. fold draw. fold (free draw).
  destruct (free draw) eqn:Ed.
  - eexists _, _. split; [reflexivity|].
    assert (0 <= draw < leaseRange (hdl w)) by (apply Z.mod_pos_bound; lia).
    split; [lia|]. split; [done|]. done.
  - eexists _, _. split; [reflexivity|].
    set (m := scan (hdl w) (peek_timeNow w) (Z.to_nat (leaseRange (hdl w))) 0).
    assert (Hm : m ≠ -1).
    { intros Hm.
      pose proof (scan_none _ _ _ 0 ltac:(lia) Hm i ltac:(lia) ltac:(lia)) as Hc.
      rewrite Ha, Hr in Hc. done. }
    split; [done|]. split; [done|]. intros _.
    destruct (scan_spec _ _ _ 0 m eq_refl Hm ltac:(lia)) as (Hm0 & _ & Hma & Hmr).
    split; [done|]. split; [|split].
    + destruct (Z.le_gt_cases m i) as [?|Hgt]; [done|].
      pose proof (scan_least _ _ _ 0 m eq_refl Hm ltac:(lia) i ltac:(lia) ltac:(lia))
        as Hc.
      rewrite Ha, Hr in Hc. done.
    + unfold free. by rewrite Hma, Hmr.
    + intros j Hj1 Hj2. by apply (scan_least _ _ _ 0 m eq_refl Hm ltac:(lia)).
Qed.

(** ** The validation of a requested address *)

Lemma canLease_unfold reqIP hw w r :
  length reqIP = 4%nat → IP_Equal reqIP IPv4zero = false →
  IPRange (start (hdl w)) reqIP = Some r →
  canLease reqIP hw w
  = if r - 1 <? 0 then Done (-1) w
    else match leasesIP (hdl w) !! (r - 1) with
         | None => if r - 1 >=? leaseRange (hdl w) then Done (-1) w else Done (r - 1) w
         | Some l =>
             if string_eqb (HardwareAddr l) hw then Done (r - 1) w
             else if r - 1 >=? leaseRange (hdl w) then Done (-1) w
             else Done (if Expired l (peek_timeNow w) then r - 1 else -1)
                       (world_after w (call_timeNow w))
         end.
Proof.
  intros Hlen Hnz Hr. unfold canLease, bind, this.
  rewrite Hlen, Hnz, Hr. simpl.
  destruct (r - 1 <? 0); [done|].
  destruct (leasesIP (hdl w) !! (r - 1)) as [l|]; [|by destruct (_ >=? _)].
  destruct (string_eqb (HardwareAddr l) hw); [done|].
  destruct (r - 1 >=? leaseRange (hdl w)); [done|].
  destruct (call_timeNow_Done w) as (w1 & E & _). rewrite E. simpl.
  by destruct (Expired l (peek_timeNow w)).
Qed.

Lemma canLease_invalid reqIP hw w :
  length reqIP ≠ 4%nat ∨ IP_Equal reqIP IPv4zero = true →
  canLease reqIP hw w = Done (-1) w.
Proof.
  intros H. unfold canLease, bind, this.
  destruct H as [H|H].
  - apply Nat.eqb_neq in H. by rewrite H.
  - rewrite H. by rewrite orb_true_r.
Qed.

Lemma IPRange_Some start0 req :
  is_Some (Uint32 (To4 start0)) → length req = 4%nat → is_Some (IPRange start0 req).
Proof.
  intros [s Hs] Hlen. unfold IPRange. rewrite (To4_length4 _ Hlen), Hs.
  destruct (length4 _ Hlen) as (a & b & c & d & ->). by rewrite Uint32_word4.
Qed.

Lemma canLease_Done reqIP hw w :
  is_Some (Uint32 (To4 (start (hdl w)))) →
  ∃ n w', canLease reqIP hw w = Done n w' ∧ quiet w w'.
Proof.
  intros Hstart.
  destruct (decide (length reqIP = 4%nat)) as [Hlen|Hlen].
  2:{ exists (-1), w. split; [apply canLease_invalid; auto|apply quiet_refl]. }
  destruct (IP_Equal reqIP IPv4zero) eqn:Hz.
  { exists (-1), w. split; [apply canLease_invalid; auto|apply quiet_refl]. }
  destruct (IPRange_Some _ _ Hstart Hlen) as [r Hr].
  rewrite (canLease_unfold _ _ _ _ Hlen Hz Hr).
  assert (Qc : quiet w (world_after w (call_timeNow w))).
  { destruct (call_timeNow_Done w) as (w1 & E & Q). by rewrite E. }
  repeat case_match; eexists _, _; (split; [reflexivity|]);
    first [apply quiet_refl|exact Qc].
Qed.

Lemma canLease_taken_expired reqIP hw w n w' l :
  canLease reqIP hw w = Done n w' → n ≠ -1 →
  leasesIP (hdl w) !! n = Some l → HardwareAddr l ≠ hw →
  Expired l (peek_timeNow w) = true ∧ Expiry l ≠ 0 ∧ 0 <= n < leaseRange (hdl w).
Proof.
  intros H Hn Hl Hown.
  assert (Hlen : length reqIP = 4%nat).
  { destruct (decide (length reqIP = 4%nat)); [done|].
    rewrite canLease_invalid in H by auto. congruence. }
  assert (Hz : IP_Equal reqIP IPv4zero = false).
  { destruct (IP_Equal reqIP IPv4zero) eqn:E; [|done].
    rewrite canLease_invalid in H by auto. congruence. }
  destruct (IPRange (start (hdl w)) reqIP) as [r|] eqn:Hr.
  2:{ unfold canLease, bind, this in H. rewrite Hlen, Hz, Hr in H. done. }
  rewrite (canLease_unfold _ _ _ _ Hlen Hz Hr) in H.
  destruct (r - 1 <? 0) eqn:Hneg; [congruence|]. apply Z.ltb_ge in Hneg.
  destruct (leasesIP (hdl w) !! (r - 1)) as [l0|] eqn:Hl0.
  - destruct (string_eqb (HardwareAddr l0) hw) eqn:Ho.
    + injection H as <- _. rewrite Hl0 in Hl. injection Hl as ->.
      by apply bool_decide_eq_true in Ho.
    + destruct (r - 1 >=? leaseRange (hdl w)) eqn:Hrg; [congruence|].
      destruct (Expired l0 (peek_timeNow w)) eqn:He; injection H as <- _; [|done].
      rewrite Hl0 in Hl. injection Hl as <-.
      split; [done|]. split; [|lia].
      unfold Expired, IsZero in He. apply andb_true_iff in He as [He _].
      by apply negb_true_iff, Z.eqb_neq in He.
  - destruct (r - 1 >=? leaseRange (hdl w)); injection H as <- _; [done|].
    congruence.
Qed.

(** X4: when [canLease] accepts an address whose offset holds
    the lease of another client, that lease is expired at the instant
    [h.timeNow()] returned (so it is not a permanent lease, whose expiry is
    the zero instant) and the offset lies in the pool. *)
Theorem canLease_never_takes_live_lease reqIP hw w n w' l :
  canLease reqIP hw w = Done n w' → n ≠ -1 →
  leasesIP (hdl w) !! n = Some l → HardwareAddr l ≠ hw →
  Expired l (peek_timeNow w) = true ∧ Expiry l ≠ 0 ∧ 0 <= n < leaseRange (hdl w).
Proof. apply canLease_taken_expired. Qed.

Lemma canLease_granted reqIP hw w n :
  length reqIP = 4%nat → IP_Equal reqIP IPv4zero = false →
  IPRange (start (hdl w)) reqIP = Some (n + 1) → 0 <= n →
  match leasesIP (hdl w) !! n with
  | None => n < leaseRange (hdl w)
  | Some l => HardwareAddr l = hw
              ∨ (n < leaseRange (hdl w) ∧ Expired l (peek_timeNow w) = true)
  end →
  ∃ w', canLease reqIP hw w = Done n w' ∧ quiet w w'.
Proof.
  intros Hlen Hz Hr Hn Hslot.
  rewrite (canLease_unfold _ _ _ _ Hlen Hz Hr).
  replace (n + 1 - 1) with n by lia.
  assert (Hneg : (n <? 0) = false) by (apply Z.ltb_ge; lia). rewrite Hneg.
  assert (Qc : quiet w (world_after w (call_timeNow w))).
  { destruct (call_timeNow_Done w) as (w1 & E & Q). by rewrite E. }
  destruct (leasesIP (hdl w) !! n) as [l|].
  - destruct (string_eqb (HardwareAddr l) hw) eqn:Ho.
    { exists w. split; [done|apply quiet_refl]. }
    destruct Hslot as [Hown|[Hrg He]].
    { unfold string_eqb in Ho. by rewrite bool_decide_eq_true_2 in Ho. }
    assert (Hge : (n >=? leaseRange (hdl w)) = false) by (rewrite Z.geb_leb; apply Z.leb_gt; lia).
    rewrite Hge, He. eauto.
  - assert (Hge : (n >=? leaseRange (hdl w)) = false) by (rewrite Z.geb_leb; apply Z.leb_gt; lia).
    rewrite Hge. exists w. split; [done|apply quiet_refl].
Qed.

(** X5: [canLease] accepts a four-byte address other than 0.0.0.0
    at or above [start], and returns its offset [addr - start], when the
    offset is vacant and in the pool, or holds a lease of the requesting
    client (even beyond the pool), or is in the pool and holds an expired
    lease.  The reserved offsets play no part, and nothing of the handler
    changes. *)
Theorem canLease_grants reqIP hw w n :
  length reqIP = 4%nat → IP_Equal reqIP IPv4zero = false →
  IPRange (start (hdl w)) reqIP = Some (n + 1) → 0 <= n →
  match leasesIP (hdl w) !! n with
  | None => n < leaseRange (hdl w)
  | Some l => HardwareAddr l = hw
              ∨ (n < leaseRange (hdl w) ∧ Expired l (peek_timeNow w) = true)
  end →
  ∃ w', canLease reqIP hw w = Done n w' ∧ quiet w w'.
Proof. apply canLease_granted. Qed.

(** X6: [canLease] answers [-1], leaving the handler as it was,
    for an address that is not four bytes long or is 0.0.0.0, for an address
    below [start], for an offset beyond the pool that does not hold a lease
    of the requesting client, and for an offset that holds an unexpired
    lease of another client. *)
Theorem canLease_refuses reqIP hw w :
  (length reqIP ≠ 4%nat ∨ IP_Equal reqIP IPv4zero = true →
   canLease reqIP hw w = Done (-1) w)
  ∧ (∀ r, length reqIP = 4%nat → IP_Equal reqIP IPv4zero = false →
          IPRange (start (hdl w)) reqIP = Some r →
          (r - 1 < 0
           ∨ (leaseRange (hdl w) <= r - 1
              ∧ ∀ l, leasesIP (hdl w) !! (r - 1) = Some l → HardwareAddr l ≠ hw)
           ∨ (∃ l, leasesIP (hdl w) !! (r - 1) = Some l ∧ HardwareAddr l ≠ hw
                   ∧ Expired l (peek_timeNow w) = false)) →
          ∃ w', canLease reqIP hw w = Done (-1) w' ∧ quiet w w').
Proof.
  split; [apply canLease_invalid|].
  intros r Hlen Hz Hr Hcase.
  rewrite (canLease_unfold _ _ _ _ Hlen Hz Hr).
  assert (Qc : quiet w (world_after w (call_timeNow w))).
  { destruct (call_timeNow_Done w) as (w1 & E & Q). by rewrite E. }
  destruct (r - 1 <? 0) eqn:Hneg; [exists w; split; [done|apply quiet_refl]|].
  apply Z.ltb_ge in Hneg.
  destruct Hcase as [?|[[Hrg Hother]|(l & Hl & Hown & He)]]; [lia| |].
  - assert (Hge : (r - 1 >=? leaseRange (hdl w)) = true) by (rewrite Z.geb_leb; apply Z.leb_le; lia).
    destruct (leasesIP (hdl w) !! (r - 1)) as [l|] eqn:Hl.
    + specialize (Hother l eq_refl).
      unfold string_eqb. rewrite bool_decide_eq_false_2 by done.
      rewrite Hge. exists w. split; [done|apply quiet_refl].
    + rewrite Hge. exists w. split; [done|apply quiet_refl].
  - rewrite Hl. unfold string_eqb. rewrite bool_decide_eq_false_2 by done.
    destruct (r - 1 >=? leaseRange (hdl w)); [exists w; split; [done|apply quiet_refl]|].
    rewrite He. eauto.
Qed.

(** X7: with a [start] that is an IPv4 address [canLease]
    always returns; with a [start] for which [To4] is nil it panics on every
    four-byte address other than 0.0.0.0, in [dhcp4.IPRange]. *)
Theorem canLease_panics_only_without_start reqIP hw w :
  (is_Some (Uint32 (To4 (start (hdl w)))) →
   ∃ n w', canLease reqIP hw w = Done n w' ∧ quiet w w')
  ∧ (To4 (start (hdl w)) = [] →
     length reqIP = 4%nat → IP_Equal reqIP IPv4zero = false →
     canLease reqIP hw w = Panic).
Proof.
  split; [apply canLease_Done|].
  intros Hs Hlen Hz. unfold canLease, bind, this. rewrite Hlen, Hz. simpl.
  unfold IPRange. rewrite Hs. simpl.
  by destruct (Uint32 (To4 reqIP)).
Qed.

(** ** The lease a REQUEST stores *)

Lemma inheritAndRelease_inherit lease w lease' w1 :
  inheritAndRelease lease w = Done lease' w1 →
  lease' = inherit (heldBy (hdl w) (HardwareAddr lease)) lease.
Proof.
  unfold inheritAndRelease, bind. rewrite leaseHW_Done. unfold heldBy, inherit.
  destruct (leasesHW (hdl w) !! HardwareAddr lease) as [num|]; [|by intros [= <- _]].
  destruct (leasesIP (hdl w) !! num) as [l|]; [|by intros [= <- _]].
  destruct (string_eqb (HardwareAddr l) (HardwareAddr lease)); [|by intros [= <- _]].
  go_unfold. by intros [= <- _].
Qed.

(** The lease an acknowledged REQUEST stores. *)
Lemma serveDHCP_Request_lease tbl p opts w x w' :
  serveDHCP tbl p Request opts w = Done (Some x) w' → replyType x = ACK →
  ∃ n w1,
    canLease (requested p opts) (HardwareAddr_String (CHAddr p)) w = Done n w1
    ∧ 0 <= n ∧ length (requested p opts) = 4%nat
    ∧ hdl w' = granted (hdl w) (HardwareAddr_String (CHAddr p)) n
                 (inherit (heldBy (hdl w) (HardwareAddr_String (CHAddr p)))
                    (new_lease tbl (hdl w) p opts n (peek_timeNow w1)
                       (peek_timeNow (world_after w1 (call_timeNow w1)))))
    ∧ YIAddr x = requested p opts.
Proof.
  rewrite serveDHCP_Request_eq.
  intros H Hack. apply bind_Done in H as (h & w0 & Hthis & H).
  unfold this in Hthis. injection Hthis as <- <-.
  destruct (match opts !! OptionServerIdentifier with
            | Some server => negb (IP_Equal server (serverIP (hdl w)))
            | None => false
            end); [done|].
  apply bind_Done in H as (n & w1 & Hcan & H).
  pose proof (canLease_quiet _ _ _ _ _ Hcan) as Q1.
  destruct (n =? -1) eqn:Hn.
  { injection H as <- _. done. }
  apply Z.eqb_neq in Hn.
  destruct (canLease_accept _ _ _ _ _ Hcan) as [?|(Hpos & Hlen & _)]; [done|].
  apply bind_Done in H as (t1 & w2 & Ht1 & H).
  assert (Hw2 : w2 = world_after w1 (call_timeNow w1)) by (by rewrite Ht1).
  apply call_timeNow_inv in Ht1 as [-> Q2].
  apply bind_Done in H as (t2 & w3 & Ht2 & H).
  apply call_timeNow_inv in Ht2 as [-> Q3].
  pose proof (quiet_trans _ _ _ Q1 (quiet_trans _ _ _ Q2 Q3)) as (Qh & Qp & Qs).
  apply bind_Done in H as (lease & w4 & Hinh & H).
  pose proof (inheritAndRelease_inherit _ _ _ _ Hinh) as Hlease.
  cbn [HardwareAddr] in Hlease. rewrite Qh in Hlease.
  match type of Hinh with
  | inheritAndRelease ?l0 _ = _ =>
      destruct (inheritAndRelease_Done l0 w3)
        as (lease' & w4' & E & HNum & HAddr & HHw & Hp4 & Hs4 & Hh4)
  end.
  rewrite E in Hinh. injection Hinh as -> ->. simpl in HNum, HAddr, HHw, Hh4.
  apply bind_Done in H as (u1 & w5 & Hu1 & H). apply update_inv in Hu1 as ->.
  apply bind_Done in H as (u2 & w6 & Hu2 & H). apply update_inv in Hu2 as ->.
  apply bind_Done in H as (u3 & w7 & Hcall & H).
  apply callLeasesLocked_inv in Hcall as (Hh5 & _).
  injection H as <- <-. simpl in Hh5.
  exists n, w1. repeat split; try done.
  - rewrite Hh5, Hh4, HHw, Qh, Hlease, Hw2. exact eq_refl.
  - simpl. by apply copy_fresh4.
Qed.

Lemma heldBy_granted h hw n lease :
  HardwareAddr lease = hw → heldBy (granted h hw n lease) hw = Some lease.
Proof.
  intros Hhw. unfold heldBy, granted. simpl.
  rewrite !lookup_insert_eq. unfold string_eqb.
  by rewrite bool_decide_eq_true_2.
Qed.

Lemma inherit_fields old lease :
  Num (inherit old lease) = Num lease
  ∧ Addr (inherit old lease) = Addr lease
  ∧ HardwareAddr (inherit old lease) = HardwareAddr lease
  ∧ LastACK (inherit old lease) = LastACK lease.
Proof.
  unfold inherit. destruct old as [l|]; [|done].
  by destruct (IsZero (Expiry l)), (negb (string_eqb (HostnameOverride l) EmptyString)).
Qed.

(** ** The database after a REQUEST *)

(** X8: after a REQUEST that was answered by an ACK the client holds
    a lease: [leasesHW] maps its hardware address to the lease's offset,
    [leasesIP] holds the lease under that offset, the lease carries the
    hardware address of the client and the requested address, and that
    address is the [yiaddr] of the ACK. *)
Theorem request_then_lookup tbl p opts w x w' :
  serveDHCP tbl p Request opts w = Done (Some x) w' → replyType x = ACK →
  ∃ lease,
    heldBy (hdl w') (HardwareAddr_String (CHAddr p)) = Some lease
    ∧ leasesHW (hdl w') !! HardwareAddr_String (CHAddr p) = Some (Num lease)
    ∧ leasesIP (hdl w') !! Num lease = Some lease
    ∧ HardwareAddr lease = HardwareAddr_String (CHAddr p)
    ∧ Addr lease = requested p opts
    ∧ YIAddr x = Addr lease.
Proof.
  intros H Hack.
  destruct (serveDHCP_Request_lease _ _ _ _ _ _ H Hack)
    as (n & w1 & Hcan & Hpos & Hlen & Hh & Hyi).
  set (lease := inherit _ _) in Hh.
  destruct (inherit_fields (heldBy (hdl w) (HardwareAddr_String (CHAddr p)))
              (new_lease tbl (hdl w) p opts n (peek_timeNow w1)
                 (peek_timeNow (world_after w1 (call_timeNow w1)))))
    as (HN & HA & HH & _).
  fold lease in HN, HA, HH. simpl in HN, HA, HH.
  exists lease. rewrite Hh.
  split; [by apply heldBy_granted|].
  unfold granted. simpl. rewrite HN, !lookup_insert_eq.
  rewrite To4_length4, copy_fresh4 in HA by done.
  by rewrite Hyi, HA.
Qed.

Lemma request_then_lookup_witness :
  ∃ lease,
    heldBy (hdl (world_after fresh_world
                   (serveDHCP sample_prefixes (packet_of macX) Request
                              (requesting (ip 10 0 0 13)) fresh_world)))
           (HardwareAddr_String macX) = Some lease
    ∧ Addr lease = ip 10 0 0 13.
Proof.
  destruct (serveDHCP sample_prefixes (packet_of macX) Request
                      (requesting (ip 10 0 0 13)) fresh_world)
    as [[x|] w'|] eqn:E; try (vm_compute in E; discriminate E).
  assert (Hack : replyType x = ACK).
  { pose proof E as E'. vm_compute in E'. by injection E' as <- _. }
  destruct (request_then_lookup sample_prefixes (packet_of macX)
              (requesting (ip 10 0 0 13)) fresh_world x w' E Hack)
    as (lease & H1 & _ & _ & _ & H2 & _).
  exists lease. split; [exact H1|exact H2].
Defined.

(** X9: a REQUEST answered by an ACK writes the offset of the
    requested address ([start] plus that offset is the address) and releases
    the lease the client held; every other offset of [leasesIP] and the
    entries of every other client in [leasesHW] are as before. *)
Theorem request_touches_two_offsets tbl p opts w x w' :
  serveDHCP tbl p Request opts w = Done (Some x) w' → replyType x = ACK →
  ∃ n,
    IPAdd (start (hdl w)) n = Some (requested p opts)
    ∧ (∀ k, k ≠ n →
            (∀ l, heldBy (hdl w) (HardwareAddr_String (CHAddr p)) = Some l → k ≠ Num l) →
            leasesIP (hdl w') !! k = leasesIP (hdl w) !! k)
    ∧ (∀ l, heldBy (hdl w) (HardwareAddr_String (CHAddr p)) = Some l → Num l ≠ n →
            leasesIP (hdl w') !! Num l = None)
    ∧ (∀ hw, hw ≠ HardwareAddr_String (CHAddr p) →
             leasesHW (hdl w') !! hw = leasesHW (hdl w) !! hw).
Proof.
  intros H Hack.
  destruct (serveDHCP_Request_lease _ _ _ _ _ _ H Hack)
    as (n & w1 & Hcan & Hpos & Hlen & Hh & Hyi).
  exists n. rewrite Hh. unfold granted. simpl. split; [|split; [|split]].
  - apply canLease_accept in Hcan as [?|(_ & _ & Hr & _)]; [lia|].
    destruct (IPAdd_IPRange _ _ _ Hlen Hr) as [HA _]; [lia|].
    by replace (n + 1 - 1) with n in HA by lia.
  - intros k Hk Hheld. rewrite lookup_insert_ne by done.
    destruct (heldBy (hdl w) _) as [l|]; [|done].
    rewrite lookup_delete_ne; [done|]. intros E. by apply (Hheld l).
  - intros l Hheld Hne. rewrite lookup_insert_ne by done.
    rewrite Hheld. apply lookup_delete_eq.
  - intros hw Hhw. by rewrite lookup_insert_ne.
Qed.

(** X10: in a database where every stored lease is indexed, when a
    REQUEST is granted an offset that held the lease of another client, that
    lease was expired; afterwards the previous owner holds no lease at all
    (no stored lease carries its hardware address and the lookup by hardware
    address fails), while its entry in [leasesHW] still points at the
    offset. *)
Theorem takeover_dispossesses tbl p opts w x w' n l0 :
  indexed (hdl w) →
  serveDHCP tbl p Request opts w = Done (Some x) w' → replyType x = ACK →
  leasesHW (hdl w') !! HardwareAddr_String (CHAddr p) = Some n →
  leasesIP (hdl w) !! n = Some l0 →
  HardwareAddr l0 ≠ HardwareAddr_String (CHAddr p) →
  Expired l0 (peek_timeNow w) = true
  ∧ heldBy (hdl w') (HardwareAddr l0) = None
  ∧ (∀ k l, leasesIP (hdl w') !! k = Some l → HardwareAddr l ≠ HardwareAddr l0)
  ∧ leasesHW (hdl w') !! HardwareAddr l0 = Some n.
Proof.
  intros Hix H Hack Hn Hl0 Hown.
  destruct (serveDHCP_Request_lease _ _ _ _ _ _ H Hack)
    as (n' & w1 & Hcan & Hpos & Hlen & Hh & Hyi).
  set (lease := inherit _ _) in Hh.
  assert (HH : HardwareAddr lease = HardwareAddr_String (CHAddr p)).
  { subst lease.
    by destruct (inherit_fields
          (heldBy (hdl w) (HardwareAddr_String (CHAddr p)))
          (new_lease tbl (hdl w) p opts n' (peek_timeNow w1)
             (peek_timeNow (world_after w1 (call_timeNow w1))))) as (_ & _ & ? & _). }
  assert (n' = n) as ->.
  { rewrite Hh in Hn. unfold granted in Hn. simpl in Hn.
    rewrite lookup_insert_eq in Hn. congruence. }
  destruct (Hix _ _ Hl0) as [HN0 Hhw0].
  assert (Hstale : leasesHW (hdl w') !! HardwareAddr l0 = Some n).
  { rewrite Hh. unfold granted. simpl. by rewrite lookup_insert_ne. }
  assert (Hat : leasesIP (hdl w') !! n = Some lease).
  { rewrite Hh. unfold granted. simpl. apply lookup_insert_eq. }
  split; [|split; [|split; [|done]]].
  - eapply canLease_taken_expired; eauto. lia.
  - eapply heldBy_None_stale; eauto. congruence.
  - intros k l Hk Hl. rewrite Hh in Hk.
    apply granted_lookup in Hk as [[-> ->]|(Hne & Hk & _)]; [congruence|].
    destruct (Hix _ _ Hk) as [_ Hidx]. rewrite Hl in Hidx. congruence.
Qed.

(** X11: a REQUEST that is not addressed to another server (it carries
    no server identifier, or the one of this server) for an address whose
    offset holds an unexpired lease of another client is answered by a NAK
    with the address 0.0.0.0, no duration and no options, and leaves the
    handler, the observer and the wire as they were. *)
Theorem request_refused_when_taken tbl p opts w r l :
  match opts !! OptionServerIdentifier with
  | Some server => IP_Equal server (serverIP (hdl w)) = true
  | None => True
  end →
  length (requested p opts) = 4%nat →
  IP_Equal (requested p opts) IPv4zero = false →
  IPRange (start (hdl w)) (requested p opts) = Some r → 0 <= r - 1 →
  leasesIP (hdl w) !! (r - 1) = Some l →
  HardwareAddr l ≠ HardwareAddr_String (CHAddr p) →
  Expired l (peek_timeNow w) = false →
  ∃ w', serveDHCP tbl p Request opts w
        = Done (Some (ReplyPacket p NAK (serverIP (hdl w)) [] 0 [])) w'
        ∧ YIAddr (ReplyPacket p NAK (serverIP (hdl w)) [] 0 []) = ip 0 0 0 0
        ∧ quiet w w'.
Proof.
  intros Hsrv Hlen Hz Hr Hpos Hl Hown He.
  assert (E : ∃ w1, canLease (requested p opts) (HardwareAddr_String (CHAddr p)) w
                    = Done (-1) w1 ∧ quiet w w1).
  { rewrite (canLease_unfold _ _ _ _ Hlen Hz Hr), Hl.
    assert (Hneg : (r - 1 <? 0) = false) by (apply Z.ltb_ge; lia). rewrite Hneg.
    unfold string_eqb. rewrite bool_decide_eq_false_2 by done.
    assert (Qc : quiet w (world_after w (call_timeNow w))).
    { destruct (call_timeNow_Done w) as (w1 & E & Q). by rewrite E. }
    rewrite He.
    destruct (r - 1 >=? leaseRange (hdl w)); eexists;
      (split; [reflexivity|]); [apply quiet_refl|exact Qc]. }
  destruct E as (w1 & E & Q). exists w1. split; [|done].
  assert (Hsrv' : match opts !! OptionServerIdentifier with
                  | Some server => negb (IP_Equal server (serverIP (hdl w)))
                  | None => false
                  end = false).
  { destruct (opts !! OptionServerIdentifier); [by rewrite Hsrv|done]. }
  rewrite serveDHCP_Request_eq. cbv beta zeta iota delta [bind this IP].
  cbv beta zeta iota delta [IP] in Hsrv'. rewrite Hsrv', E. reflexivity.
Qed.

(** ** What a renewed lease inherits *)

Lemma serveDHCP_Request_held tbl p opts w x w' :
  serveDHCP tbl p Request opts w = Done (Some x) w' → replyType x = ACK →
  ∃ n w1,
    canLease (requested p opts) (HardwareAddr_String (CHAddr p)) w = Done n w1
    ∧ heldBy (hdl w') (HardwareAddr_String (CHAddr p))
      = Some (inherit (heldBy (hdl w) (HardwareAddr_String (CHAddr p)))
                (new_lease tbl (hdl w) p opts n (peek_timeNow w1)
                   (peek_timeNow (world_after w1 (call_timeNow w1))))).
Proof.
  intros H Hack.
  destruct (serveDHCP_Request_lease _ _ _ _ _ _ H Hack)
    as (n & w1 & Hcan & Hpos & Hlen & Hh & Hyi).
  exists n, w1. split; [done|]. rewrite Hh. apply heldBy_granted.
  by destruct (inherit_fields (heldBy (hdl w) (HardwareAddr_String (CHAddr p)))
                 (new_lease tbl (hdl w) p opts n (peek_timeNow w1)
                    (peek_timeNow (world_after w1 (call_timeNow w1)))))
    as (_ & _ & ? & _).
Qed.

(** X12: the lease that an ACK stores is the lease the client holds
    afterwards.  Its [LastACK] is the second reading of [h.timeNow()] after
    [canLease].  For a client that held no lease it has the hostname of
    option 12 (empty when absent), no hostname override, and an expiry that
    is the first of these readings plus the lease period of the device.
    For a client that held a lease it keeps the hostname override of that
    lease; its hostname is the override when there is one, else the
    previous hostname when the previous lease was permanent, else the
    hostname of option 12; its expiry stays the zero instant when the
    previous lease was permanent and is the reading plus the lease period
    otherwise. *)
Theorem request_stored_lease tbl p opts w x w' :
  serveDHCP tbl p Request opts w = Done (Some x) w' → replyType x = ACK →
  let hw := HardwareAddr_String (CHAddr p) in
  let w1 := world_after w (canLease (requested p opts) hw w) in
  let name := match opts !! OptionHostName with
              | Some v => string_of_list_byte v
              | None => EmptyString
              end in
  let expiry := peek_timeNow w1 + leasePeriodForDevice tbl (hdl w) hw in
  ∃ lease,
    heldBy (hdl w') hw = Some lease
    ∧ LastACK lease = peek_timeNow (world_after w1 (call_timeNow w1))
    ∧ match heldBy (hdl w) hw with
      | None =>
          Hostname lease = name ∧ HostnameOverride lease = EmptyString
          ∧ Expiry lease = expiry
      | Some l =>
          HostnameOverride lease = HostnameOverride l
          ∧ Hostname lease
            = (if bool_decide (HostnameOverride l = EmptyString)
               then if bool_decide (Expiry l = 0) then Hostname l else name
               else HostnameOverride l)
          ∧ Expiry lease = (if bool_decide (Expiry l = 0) then 0 else expiry)
      end.
Proof.
  intros H Hack hw w1 name expiry.
  destruct (serveDHCP_Request_held _ _ _ _ _ _ H Hack) as (n & w1' & Hcan & Hheld).
  assert (w1 = w1') as <- by (subst w1 hw; by rewrite Hcan).
  fold hw in Hheld. eexists. split; [exact Hheld|].
  destruct (heldBy (hdl w) hw) as [l|]; [|done].
  unfold inherit, IsZero, string_eqb.
  destruct (Z.eqb_spec (Expiry l) 0) as [Hz|Hz];
    [rewrite (bool_decide_eq_true_2 (Expiry l = 0)) by done
    |rewrite (bool_decide_eq_false_2 (Expiry l = 0)) by done];
    destruct (decide (HostnameOverride l = EmptyString)) as [Ho|Ho];
    [rewrite (bool_decide_eq_true_2 _ Ho)|rewrite (bool_decide_eq_false_2 _ Ho)
    |rewrite (bool_decide_eq_true_2 _ Ho)|rewrite (bool_decide_eq_false_2 _ Ho)];
    simpl; rewrite ?Ho; done.
Qed.

Lemma SetHostname_held hw hostname w w1 :
  is_Some (leasesHW (hdl w) !! hw) →
  SetHostname hw hostname w = Done None w1 →
  ∃ l, heldBy (hdl w) hw = Some l
       ∧ Expired l (peek_timeNow w) = false
       ∧ heldBy (hdl w1) hw
         = Some (set_HostnameOverride hostname (set_Hostname hostname l)).
Proof.
  intros [k Hk] H.
  apply SetHostname_effect in H as [[? _]|(l & _ & Hl & Hown & Hexp & Hh & _)];
    [done|].
  rewrite Hk in Hl, Hh. simpl in Hl, Hh.
  exists l. split; [apply heldBy_Some; eauto|]. split; [done|].
  apply heldBy_Some. exists k. rewrite Hh. simpl.
  by rewrite lookup_insert_eq.
Qed.

Lemma inherit_override l lease :
  HostnameOverride l ≠ EmptyString →
  Hostname (inherit (Some l) lease) = HostnameOverride l
  ∧ HostnameOverride (inherit (Some l) lease) = HostnameOverride l.
Proof.
  intros Hname. unfold inherit, string_eqb.
  rewrite (bool_decide_eq_false_2 _ Hname). simpl.
  by destruct (IsZero (Expiry l)).
Qed.

(** A packet that leaves [hw] with a lease leaves the name of that lease
    in force. *)
Lemma ServeDHCP_keeps_override tbl hw hostname p msgType opts w r w' :
  hostname ≠ EmptyString →
  (∃ lease, heldBy (hdl w) hw = Some lease
            ∧ Hostname lease = hostname ∧ HostnameOverride lease = hostname) →
  ServeDHCP tbl p msgType opts w = Done r w' →
  is_Some (heldBy (hdl w') hw) →
  ∃ lease, heldBy (hdl w') hw = Some lease
           ∧ Hostname lease = hostname ∧ HostnameOverride lease = hostname.
Proof.
  intros Hname (lease & Hheld & Hn1 & Hn2) H [l2 Hl2].
  apply ServeDHCP_inv in H as (_ & r0 & w0 & H0 & Hh & _).
  rewrite Hh in *. clear Hh w'.
  destruct (decide (msgType = Discover)) as [->|HD].
  { apply serveDHCP_Discover_quiet in H0 as (-> & _). eauto. }
  destruct (decide (msgType = Request)) as [->|HR].
  { pose proof H0 as H0'.
    apply serveDHCP_Request_effect in H0
      as [[(-> & _) _]
         |(n & lease' & _ & _ & _ & _ & _ & _ & HHw & Hg & _ & _ & Hx)]; [eauto|].
    destruct (decide (HardwareAddr_String (CHAddr p) = hw)) as [Hsame|Hother].
    - subst r0.
      destruct (serveDHCP_Request_held _ _ _ _ _ _ H0' eq_refl) as (n' & w1 & _ & Hnew).
      rewrite Hsame in Hnew. rewrite Hheld in Hnew.
      eexists. split; [exact Hnew|].
      rewrite <- Hn2 in Hname.
      destruct (inherit_override lease
                  (new_lease tbl (hdl w) p opts n' (peek_timeNow w1)
                     (peek_timeNow (world_after w1 (call_timeNow w1)))) Hname)
        as [E1 E2].
      rewrite E1, E2. by split.
    - exists lease. split; [|done]. rewrite Hl2. f_equal.
      apply heldBy_Some in Hl2 as (k & Hk & Hl & Hown).
      apply heldBy_Some in Hheld as (k0 & Hk0 & Hl0 & _).
      rewrite Hg in Hk, Hl. unfold granted in Hk. simpl in Hk.
      rewrite lookup_insert_ne in Hk by done.
      assert (k = k0) as -> by congruence.
      apply granted_lookup in Hl as [[_ ->]|(_ & Hl & _)]; [congruence|].
      congruence. }
  destruct (decide (msgType = Decline)) as [->|HDe].
  2:{ rewrite serveDHCP_other in H0 by done. injection H0 as _ <-. eauto. }
  rewrite serveDHCP_Decline_eq in H0.
  apply bind_Done in H0 as (b & w1 & Hexp & H0). injection H0 as _ <-.
  apply expireLease_effect in Hexp
    as [(_ & -> & _)|(num & l & _ & Hnum & Hl & Hown & Hh & _)]; [eauto|].
  apply heldBy_Some in Hl2 as (k & Hk & Hl' & Hown').
  apply heldBy_Some in Hheld as (k0 & Hk0 & Hl0 & _).
  rewrite Hh in Hk, Hl'. simpl in Hk, Hl'.
  assert (k = k0) as -> by congruence.
  eexists. split.
  { apply heldBy_Some. exists k0. rewrite Hh. simpl. eauto. }
  apply lookup_insert_Some in Hl' as [[<- <-]|[_ Hl']].
  - assert (l = lease) as -> by congruence. by destruct lease.
  - assert (l2 = lease) as -> by congruence. done.
Qed.

(** Renaming the lease of another hardware address leaves the lease of
    [hw] as it is. *)
Lemma SetHostname_keeps_other hw hwaddr hostname w e w' lease :
  hwaddr ≠ hw → heldBy (hdl w) hw = Some lease →
  SetHostname hwaddr hostname w = Done e w' →
  heldBy (hdl w') hw = Some lease.
Proof.
  intros Hne Hheld H.
  apply SetHostname_effect in H
    as [(_ & -> & _)|(l & _ & Hl & Hown & _ & Hh & _)]; [done|].
  apply heldBy_Some in Hheld as (k & Hk & Hlease & Hhw).
  apply heldBy_Some. exists k. rewrite Hh. simpl.
  split; [done|]. split; [|done].
  rewrite lookup_insert_ne; [done|].
  intros E. rewrite E in Hl. congruence.
Qed.

(** X13: a name given by a successful [SetHostname] to a client
    that has an entry in [leasesHW] stays in force for as long as the client
    keeps a lease: whatever packets of this and of other clients are served
    afterwards, whatever option 12 they carry, and whatever leases of other
    hardware addresses are renamed, as long as [leaseHW] finds a lease of
    the client after each packet (its offset was not taken over after an
    expiry), the hostname and the hostname override of that lease are the
    name given; so they are after each renewal of the client. *)
Theorem SetHostname_survives_renewal tbl hw hostname w w1 w2 :
  is_Some (leasesHW (hdl w) !! hw) →
  hostname ≠ EmptyString →
  SetHostname hw hostname w = Done None w1 →
  holding tbl hw w1 w2 →
  ∃ lease,
    heldBy (hdl w2) hw = Some lease
    ∧ Hostname lease = hostname ∧ HostnameOverride lease = hostname.
Proof.
  intros Hidx Hname Hset Hhold.
  induction Hhold as [w1|w1 w2 p mt opts r w3 _ IH H Hsome
                         |w1 w2 hwaddr name e w3 _ IH Hne H].
  - destruct (SetHostname_held _ _ _ _ Hidx Hset) as (l & _ & _ & Hheld).
    eexists. split; [exact Hheld|]. by destruct l.
  - eapply ServeDHCP_keeps_override; eauto.
  - destruct (IH Hset) as (lease & Hheld & Hn).
    exists lease. split; [|done]. eapply SetHostname_keeps_other; eauto.
Qed.

(** X14: a stored lease whose expiry is the zero instant is
    never taken: [canLease] does not return its offset to another client
    and [findLease] does not return it, whatever the clocks read. *)
Theorem permanent_lease_never_reclaimed w n l :
  leasesIP (hdl w) !! n = Some l → Expiry l = 0 → 0 <= n →
  (∀ reqIP hw n' w',
     HardwareAddr l ≠ hw → canLease reqIP hw w = Done n' w' → n' ≠ n)
  ∧ (∀ n' w', findLease w = Done n' w' → n' ≠ n).
Proof.
  intros Hl Hz Hn. split.
  - intros reqIP hw n' w' Hown H ->.
    destruct (canLease_taken_expired _ _ _ _ _ _ H ltac:(lia) Hl Hown) as (_ & ? & _).
    done.
  - intros n' w' H ->.
    destruct (findLease_spec _ _ _ H ltac:(lia)) as (_ & _ & He).
    rewrite Hl in He. unfold Expired, IsZero in He. rewrite Hz in He. done.
Qed.

(** ** Where the offset of an OFFER comes from *)

Lemma discoverPreferred_inv p opts w n w' :
  discoverPreferred p opts w = Done n w' →
  n = -1
  ∨ ∃ reqIP w0 w1,
      canLease reqIP (HardwareAddr_String (CHAddr p)) w0 = Done n w1
      ∧ hdl w0 = hdl w
      ∧ (reqIP = requested p opts
         ∨ ∃ sl, staticLeases (hdl w) !! ToLower (HardwareAddr_String (CHAddr p))
                 = Some sl ∧ reqIP = sl_Addr sl).
Proof.
  unfold discoverPreferred. intros H.
  apply bind_Done in H as (h & w0 & Hthis & H).
  unfold this in Hthis. injection Hthis as <- <-.
  apply bind_Done in H as (f1 & w1 & H1 & H).
  fold (requested p opts) in H.
  destruct (staticLeases (hdl w) !! ToLower (HardwareAddr_String (CHAddr p)))
    as [sl|] eqn:Hsl.
  - pose proof (canLease_quiet _ _ _ _ _ H1) as (Qh & _).
    destruct ((f1 <? 0) && negb (IP_Equal (To4 (requested p opts)) IPv4zero)) eqn:E.
    + right. exists (requested p opts), w1, w'. auto.
    + injection H as <- <-.
      destruct (canLease_sign _ _ _ _ _ H1) as [?|?]; [by left|].
      right. exists (sl_Addr sl), w, w1. split; [done|]. split; [done|]. eauto.
  - injection H1 as <- <-. simpl in H.
    destruct (negb (IP_Equal (To4 (requested p opts)) IPv4zero)).
    + right. exists (requested p opts), w, w'. auto.
    + injection H as <- _. by left.
Qed.

Lemma offerPrevious_inv hw free w n w' :
  offerPrevious hw free w = Done n w' →
  n = free
  ∨ ∃ l, heldBy (hdl w) hw = Some l ∧ n = Num l
         ∧ Expired l (peek_timeNow w) = false.
Proof.
  unfold offerPrevious, bind. intros H.
  destruct (heldBy (hdl w) hw) as [l|] eqn:Hheld.
  - rewrite (leaseHW_heldBy_Some _ _ _ Hheld) in H.
    destruct (call_timeNow_Done w) as (w1 & E & _). rewrite E in H.
    destruct (Expired l (peek_timeNow w)) eqn:He; injection H as <- _; [by left|].
    right. eauto.
  - destruct (leaseHW_heldBy_None _ _ Hheld) as [o Ho]. rewrite Ho in H.
    left. destruct o; by injection H as <- _.
Qed.

Lemma offerOrSearch_inv tbl h p opts free w x w' :
  offerOrSearch tbl h p opts free w = Done (Some x) w' →
  ∃ n, n ≠ -1 ∧ IPAdd (start h) n = Some (YIAddr x)
       ∧ x = ReplyPacket p Offer (serverIP h) (YIAddr x)
               (leasePeriodForDevice tbl h (HardwareAddr_String (CHAddr p)))
               (SelectOrderOrAll (options h) (opts !! OptionParameterRequestList))
       ∧ (n = free ∨ (free = -1 ∧ ∃ w1, findLease w = Done n w1)).
Proof.
  unfold offerOrSearch. intros H.
  apply bind_Done in H as (n & w1 & H1 & H).
  destruct (n =? -1) eqn:Hn; [done|]. apply Z.eqb_neq in Hn.
  apply bind_Done in H as (yi & w2 & Hyi & H).
  unfold orPanic in Hyi. destruct (IPAdd (start h) n) as [a|] eqn:Ha; [|done].
  injection Hyi as <- <-. injection H as <- <-.
  exists n. rewrite !YIAddr_ReplyPacket by (eapply IPAdd_length; eauto).
  split; [done|]. split; [done|]. split; [done|].
  destruct (free =? -1) eqn:Hf.
  - apply Z.eqb_eq in Hf. right. eauto.
  - injection H1 as <- _. by left.
Qed.

(** The offset behind every OFFER. *)
Lemma serveDHCP_Discover_offset tbl p opts w x w' :
  serveDHCP tbl p Discover opts w = Done (Some x) w' →
  ∃ n, n ≠ -1 ∧ IPAdd (start (hdl w)) n = Some (YIAddr x) ∧ replyType x = Offer
       ∧ ((∃ reqIP w0 w1,
             canLease reqIP (HardwareAddr_String (CHAddr p)) w0 = Done n w1
             ∧ hdl w0 = hdl w)
          ∨ (∃ l, heldBy (hdl w) (HardwareAddr_String (CHAddr p)) = Some l
                  ∧ n = Num l)
          ∨ (∃ w0 w1, findLease w0 = Done n w1 ∧ hdl w0 = hdl w)).
Proof.
  rewrite serveDHCP_Discover_eq. intros H.
  apply bind_Done in H as (f1 & w1 & H1 & H).
  apply bind_Done in H as (f2 & w2 & H2 & H).
  pose proof (discoverPreferred_quiet _ _ _ _ _ H1) as (Qh1 & _).
  pose proof (offerPrevious_quiet _ _ _ _ _ H2) as (Qh2 & _).
  apply offerOrSearch_inv in H as (n & Hn & Ha & Hx & Hsrc).
  exists n. split; [done|]. split; [done|]. split; [by rewrite Hx|].
  destruct Hsrc as [->|[-> [w3 Hfind]]].
  - apply offerPrevious_inv in H2 as [->|(l & Hheld & -> & _)].
    + apply discoverPreferred_inv in H1 as [?|(reqIP & w0 & w0' & Hcan & Hh & _)];
        [done|].
      left. eauto.
    + right. left. rewrite Qh1 in Hheld. eauto.
  - right. right. exists w2, w3. split; [done|]. congruence.
Qed.

Lemma pool_ok_in_pool h : pool_ok h → in_pool h.
Proof. intros Hok k l Hl. by destruct (Hok _ _ Hl) as (? & ? & _). Qed.

(** X15: in a database where every stored lease lies under its own [Num]
    and that is an offset of the pool, the address of every OFFER and of
    every ACK is [start] plus an offset of [[0, leaseRange)]. *)
Theorem replies_within_pool tbl p msgType opts w x w' :
  in_pool (hdl w) →
  serveDHCP tbl p msgType opts w = Done (Some x) w' →
  replyType x ≠ NAK →
  ∃ n, 0 <= n < leaseRange (hdl w)
       ∧ IPAdd (start (hdl w)) n = Some (YIAddr x)
       ∧ (replyType x = Offer ∨ replyType x = ACK).
Proof.
  intros Hok H Hnak.
  assert (Hcan : ∀ reqIP hw w0 n w1,
             canLease reqIP hw w0 = Done n w1 → hdl w0 = hdl w → n ≠ -1 →
             0 <= n < leaseRange (hdl w)).
  { intros reqIP hw w0 n w1 Hc Hh Hn.
    apply canLease_accept in Hc as [?|(Hpos & _ & _ & Hslot)]; [done|].
    rewrite Hh in Hslot.
    destruct (leasesIP (hdl w) !! n) as [l|] eqn:Hl; [|lia].
    destruct (Hok _ _ Hl) as (HN & ? & ?). lia. }
  destruct (decide (msgType = Discover)) as [->|HD].
  { apply serveDHCP_Discover_offset in H as (n & Hn & Ha & Hty & Hsrc).
    exists n. split; [|auto].
    destruct Hsrc as [(reqIP & w0 & w1 & Hc & Hh)|[(l & Hheld & ->)|(w0 & w1 & Hf & Hh)]].
    - eapply Hcan; eauto.
    - apply heldBy_Some in Hheld as (k & _ & Hl & _).
      by destruct (Hok _ _ Hl) as (_ & ?).
    - apply findLease_spec in Hf as (? & _); [|done]. by rewrite Hh in *. }
  destruct (decide (msgType = Request)) as [->|HR].
  { destruct (serveDHCP_Request_effect _ _ _ _ _ _ H)
      as [[_ HN]|(n & lease & Hpos & Hlen & Hr & Hslot & _ & _ & _ & _ & _ & _ & Hx)].
    { by specialize (HN x eq_refl). }
    injection Hx as ->. exists n. rewrite YIAddr_ReplyPacket by done.
    split; [|split; [|by right]].
    - split; [done|].
      destruct (leasesIP (hdl w) !! n) as [l|] eqn:Hl; [|done].
      destruct (Hok _ _ Hl) as (HN & ? & ?). lia.
    - destruct (IPAdd_IPRange _ _ _ Hlen Hr) as [HA _]; [lia|].
      by replace (n + 1 - 1) with n in HA by lia. }
  destruct (decide (msgType = Decline)) as [->|HDe].
  { rewrite serveDHCP_Decline_eq in H.
    apply bind_Done in H as (b & w1 & _ & H). done. }
  rewrite serveDHCP_other in H by done. done.
Qed.

(** X16: a DISCOVER of a client that has a static lease and
    holds no lease is answered by an OFFER of the static address, whatever
    address the packet asks for, when that address is a four-byte address
    of the pool whose offset is vacant, expired or the client's own; nothing
    of the handler changes. *)
Theorem discover_offers_static_address tbl p opts w sl n :
  staticLeases (hdl w) !! ToLower (HardwareAddr_String (CHAddr p)) = Some sl →
  length (sl_Addr sl) = 4%nat → IP_Equal (sl_Addr sl) IPv4zero = false →
  IPRange (start (hdl w)) (sl_Addr sl) = Some (n + 1) → 0 <= n →
  match leasesIP (hdl w) !! n with
  | None => n < leaseRange (hdl w)
  | Some l => HardwareAddr l = HardwareAddr_String (CHAddr p)
              ∨ (n < leaseRange (hdl w) ∧ Expired l (peek_timeNow w) = true)
  end →
  heldBy (hdl w) (HardwareAddr_String (CHAddr p)) = None →
  ∃ w',
    serveDHCP tbl p Discover opts w
    = Done (Some (ReplyPacket p Offer (serverIP (hdl w)) (sl_Addr sl)
                    (leasePeriodForDevice tbl (hdl w) (HardwareAddr_String (CHAddr p)))
                    (SelectOrderOrAll (options (hdl w))
                                      (opts !! OptionParameterRequestList)))) w'
    ∧ quiet w w'.
Proof.
  intros Hsl Hlen Hz Hr Hn Hslot Hheld.
  destruct (canLease_granted _ (HardwareAddr_String (CHAddr p)) _ _ Hlen Hz Hr Hn Hslot)
    as (w1 & Hcan & Q).
  exists w1. split; [|done].
  assert (Hneg : (n <? 0) = false) by (apply Z.ltb_ge; lia).
  assert (Hpre : discoverPreferred p opts w = Done n w1).
  { unfold discoverPreferred, bind, this. rewrite Hsl, Hcan, Hneg. done. }
  assert (Hprev : offerPrevious (HardwareAddr_String (CHAddr p)) n w1 = Done n w1).
  { unfold offerPrevious, bind. destruct Q as (Qh & _).
    rewrite <- Qh in Hheld.
    destruct (leaseHW_heldBy_None _ _ Hheld) as [o Ho]. rewrite Ho. by destruct o. }
  rewrite serveDHCP_Discover_eq. unfold bind. rewrite Hpre, Hprev.
  unfold offerOrSearch, bind.
  assert (Hne : (n =? -1) = false) by (apply Z.eqb_neq; lia).
  rewrite Hne. unfold ret at 1. rewrite Hne.
  destruct (IPAdd_IPRange _ _ _ Hlen Hr) as [HA _]; [lia|].
  replace (n + 1 - 1) with n in HA by lia. rewrite HA. done.
Qed.

(** X17: when the database holds [leaseRange] leases or more, a
    DISCOVER of a client with no static lease, no lease of its own and no
    requested address gets no reply, even when stored leases are expired. *)
Theorem discover_database_full tbl p opts w :
  staticLeases (hdl w) !! ToLower (HardwareAddr_String (CHAddr p)) = None →
  IP_Equal (To4 (requested p opts)) IPv4zero = true →
  heldBy (hdl w) (HardwareAddr_String (CHAddr p)) = None →
  leaseRange (hdl w) <= Z.of_nat (size (leasesIP (hdl w))) →
  ∃ w', serveDHCP tbl p Discover opts w = Done None w' ∧ quiet w w'.
Proof.
  intros Hsl Hz Hheld Hfull.
  assert (Hpre : discoverPreferred p opts w = Done (-1) w).
  { unfold discoverPreferred, bind, this. fold (requested p opts). rewrite Hsl.
    unfold ret at 1. rewrite Hz. done. }
  assert (Hprev : offerPrevious (HardwareAddr_String (CHAddr p)) (-1) w = Done (-1) w).
  { unfold offerPrevious, bind.
    destruct (leaseHW_heldBy_None _ _ Hheld) as [o Ho]. rewrite Ho. by destruct o. }
  destruct (findLease_Done w) as (n & w' & Hf & Q & Hn).
  rewrite (Hn Hfull) in Hf.
  exists w'. split; [|done].
  rewrite serveDHCP_Discover_eq. unfold bind. rewrite Hpre, Hprev.
  unfold offerOrSearch, bind. simpl. rewrite Hf. done.
Qed.

(** ** DECLINE, from any state *)

Lemma serveDHCP_Decline_unknown tbl p opts w :
  heldBy (hdl w) (HardwareAddr_String (CHAddr p)) = None →
  serveDHCP tbl p Decline opts w = Done None w.
Proof.
  intros Hheld. rewrite serveDHCP_Decline_eq. unfold expireLease.
  unfold heldBy in Hheld. go_unfold.
  destruct (leasesHW (hdl w) !! HardwareAddr_String (CHAddr p)) as [n|]; [|done].
  destruct (leasesIP (hdl w) !! n) as [l|]; [|done].
  by destruct (string_eqb (HardwareAddr l) (HardwareAddr_String (CHAddr p))).
Qed.

Lemma serveDHCP_Decline_Done tbl p opts w :
  ∃ w',
    serveDHCP tbl p Decline opts w = Done None w'
    ∧ leasesHW (hdl w') = leasesHW (hdl w)
    ∧ published w' = published w ∧ sent w' = sent w
    ∧ match heldBy (hdl w) (HardwareAddr_String (CHAddr p)) with
      | None => w' = w
      | Some l =>
          ∃ n, leasesHW (hdl w) !! HardwareAddr_String (CHAddr p) = Some n
               ∧ leasesIP (hdl w) !! n = Some l
               ∧ leasesIP (hdl w')
                 = <[n := set_Expiry (wallClock w (wallCalls w)) l]> (leasesIP (hdl w))
      end.
Proof.
  destruct (heldBy (hdl w) (HardwareAddr_String (CHAddr p))) as [l|] eqn:Hheld.
  - destruct (serveDHCP_Decline_held tbl p opts w l Hheld)
      as (n & w' & E & Hhw & Hip & Hh & Hp & Hs & _).
    exists w'. rewrite Hh. simpl. repeat split; try done. eauto.
  - exists w. by rewrite serveDHCP_Decline_unknown.
Qed.

(** X18: a DECLINE always returns without a reply; it publishes
    and sends nothing and leaves [leasesHW] alone.  From a client that holds
    no lease it changes nothing at all; otherwise the only change is that
    the expiry of the client's lease becomes the reading of [time.Now()]. *)
Theorem decline_only_stamps_expiry tbl p opts w :
  ∃ w',
    serveDHCP tbl p Decline opts w = Done None w'
    ∧ leasesHW (hdl w') = leasesHW (hdl w)
    ∧ published w' = published w ∧ sent w' = sent w
    ∧ match heldBy (hdl w) (HardwareAddr_String (CHAddr p)) with
      | None => w' = w
      | Some l =>
          ∃ n, leasesHW (hdl w) !! HardwareAddr_String (CHAddr p) = Some n
               ∧ leasesIP (hdl w) !! n = Some l
               ∧ leasesIP (hdl w')
                 = <[n := set_Expiry (wallClock w (wallCalls w)) l]> (leasesIP (hdl w))
      end.
Proof. apply serveDHCP_Decline_Done. Qed.

(** X19: with the production clock, once a client declined its
    lease at an instant other than the zero instant and the clock moved on,
    [canLease] accepts the address of that lease for any client. *)
Theorem declined_address_is_free tbl p opts w l n reqIP hw :
  timeNow (hdl w) = None →
  heldBy (hdl w) (HardwareAddr_String (CHAddr p)) = Some l →
  leasesHW (hdl w) !! HardwareAddr_String (CHAddr p) = Some n →
  wallClock w (wallCalls w) ≠ 0 →
  wallClock w (wallCalls w) < wallClock w (S (wallCalls w)) →
  length reqIP = 4%nat → IP_Equal reqIP IPv4zero = false →
  IPRange (start (hdl w)) reqIP = Some (n + 1) → 0 <= n < leaseRange (hdl w) →
  ∃ w' w'',
    serveDHCP tbl p Decline opts w = Done None w'
    ∧ canLease reqIP hw w' = Done n w''.
Proof.
  intros Hclock Hheld Hn Hnz Hadv Hlen Hz Hr Hrange.
  destruct (serveDHCP_Decline_held tbl p opts w l Hheld)
    as (n' & w' & E & Hhw & Hip & Hh & _ & _ & _ & Hwc & Hwn).
  assert (n' = n) as -> by congruence.
  assert (Hstart : start (hdl w') = start (hdl w)) by (by rewrite Hh).
  assert (Hrg : leaseRange (hdl w') = leaseRange (hdl w)) by (by rewrite Hh).
  destruct (canLease_granted reqIP hw w' n Hlen Hz) as (w'' & Hcan & _).
  - by rewrite Hstart.
  - lia.
  - assert (Hlk : leasesIP (hdl w') !! n
                  = Some (set_Expiry (wallClock w (wallCalls w)) l))
      by (rewrite Hh; simpl; apply lookup_insert_eq).
    rewrite Hlk. right. split; [lia|].
    unfold peek_timeNow. rewrite Hh. simpl. rewrite Hclock, Hwc, Hwn.
    unfold Expired, IsZero, After. simpl.
    apply andb_true_iff. split; [by apply negb_true_iff, Z.eqb_neq|by apply Z.ltb_lt].
  - eauto.
Qed.

(** ** SetHostname, from any state *)

(** X20: when a lease is stored under the offset [SetHostname]
    looks up, the method returns its error and changes nothing if the lease
    belongs to another hardware address or is expired; otherwise it returns
    nil, sets the hostname and the hostname override of that lease and calls
    the observer, if any, with the new database and the lease. *)
Theorem SetHostname_outcome hwaddr hostname w l :
  leasesIP (hdl w) !! default 0 (leasesHW (hdl w) !! hwaddr) = Some l →
  (HardwareAddr l ≠ hwaddr ∨ Expired l (peek_timeNow w) = true →
   ∃ w', SetHostname hwaddr hostname w = Done (Some (no_valid_lease hwaddr)) w'
         ∧ quiet w w')
  ∧ (HardwareAddr l = hwaddr → Expired l (peek_timeNow w) = false →
     ∃ w', SetHostname hwaddr hostname w = Done None w'
           ∧ leasesIP (hdl w')
             = <[default 0 (leasesHW (hdl w) !! hwaddr)
                 := set_HostnameOverride hostname (set_Hostname hostname l)]>
                 (leasesIP (hdl w))
           ∧ leasesHW (hdl w') = leasesHW (hdl w)
           ∧ published w'
             = published w
               ++ (if Leases (hdl w)
                   then [(snapshot (hdl w'),
                          set_HostnameOverride hostname (set_Hostname hostname l))]
                   else [])).
Proof.
  intros Hl.
  destruct (call_timeNow_Done w) as (w1 & E & Q).
  split.
  - intros Hcase. unfold SetHostname, bind, this. rewrite Hl.
    destruct (string_eqb (HardwareAddr l) hwaddr) eqn:Hown; simpl.
    + destruct Hcase as [Hne|He].
      { apply bool_decide_eq_true in Hown. done. }
      rewrite E, He. eauto.
    + exists w. split; [done|apply quiet_refl].
  - intros Hown He.
    destruct (SetHostname hwaddr hostname w) as [e w'|] eqn:Hset.
    + pose proof Hset as Hset'.
      apply SetHostname_effect in Hset'
        as [[-> _]|(l' & -> & Hl' & _ & _ & Hh & Hp & _)].
      * exfalso. unfold SetHostname, bind, this in Hset. rewrite Hl in Hset.
        unfold string_eqb in Hset. rewrite bool_decide_eq_true_2 in Hset by done.
        simpl in Hset. rewrite E, He in Hset.
        unfold bind, update in Hset.
        destruct (callLeasesLocked _ _); done.
      * assert (l' = l) as -> by congruence.
        exists w'. split; [done|]. rewrite Hp, Hh. done.
    + exfalso. unfold SetHostname, bind, this in Hset. rewrite Hl in Hset.
      unfold string_eqb in Hset. rewrite bool_decide_eq_true_2 in Hset by done.
      simpl in Hset. rewrite E, He in Hset.
      unfold bind, update, callLeasesLocked, bind, this in Hset. simpl in Hset.
      destruct (negb (Leases (hdl w1))); done.
Qed.

(** X21: [SetHostname] never adds or removes a lease, never
    touches [leasesHW] or the wire, and changes nothing when it returns an
    error; a lease it changes is a lease of the given hardware address, and
    only its hostname and hostname override change. *)
Theorem SetHostname_only_renames hwaddr hostname w e w' :
  SetHostname hwaddr hostname w = Done e w' →
  leasesHW (hdl w') = leasesHW (hdl w) ∧ sent w' = sent w
  ∧ (e ≠ None → quiet w w')
  ∧ ∀ k,
      match leasesIP (hdl w') !! k, leasesIP (hdl w) !! k with
      | Some l', Some l =>
          Num l' = Num l ∧ Addr l' = Addr l ∧ HardwareAddr l' = HardwareAddr l
          ∧ Expiry l' = Expiry l ∧ LastACK l' = LastACK l
          ∧ (l' = l
             ∨ (e = None ∧ HardwareAddr l = hwaddr
                ∧ Hostname l' = hostname ∧ HostnameOverride l' = hostname))
      | None, None => True
      | _, _ => False
      end.
Proof.
  intros H.
  apply SetHostname_effect in H as [[-> Q]|(l & -> & Hl & Hown & _ & Hh & _ & Hs)].
  - destruct Q as (Qh & Qp & Qs). rewrite Qh.
    split; [done|]. split; [done|]. split; [by intros _|].
    intros k. destruct (leasesIP (hdl w) !! k); [|done]. by repeat split; auto.
  - rewrite Hh. simpl. split; [done|]. split; [done|]. split; [done|].
    intros k.
    destruct (decide (k = default 0 (leasesHW (hdl w) !! hwaddr))) as [->|Hne].
    + rewrite lookup_insert_eq, Hl. simpl. repeat split; auto.
    + rewrite lookup_insert_ne by done.
      destruct (leasesIP (hdl w) !! k); [|done]. by repeat split; auto.
Qed.

(** ** SetLeases *)

Lemma backfill_fields l :
  Num (backfill l) = Num l ∧ Addr (backfill l) = Addr l
  ∧ HardwareAddr (backfill l) = HardwareAddr l
  ∧ Hostname (backfill l) = Hostname l
  ∧ HostnameOverride (backfill l) = HostnameOverride l
  ∧ Expiry (backfill l) = Expiry l.
Proof. unfold backfill. by destruct (IsZero (LastACK l)). Qed.

Lemma restore_lookup leases hw ips :
  (∀ k, (restore leases hw ips).2 !! k
        = match last (filter (λ l, Num l = k) (backfill <$> leases)) with
          | Some l => Some l
          | None => ips !! k
          end)
  ∧ (∀ a, (restore leases hw ips).1 !! a
          = match last (filter (λ l, HardwareAddr l = a) (backfill <$> leases)) with
            | Some l => Some (Num l)
            | None => hw !! a
            end).
Proof.
  revert hw ips. induction leases as [|l r IH]; intros hw ips; [done|].
  simpl restore. fold (backfill l).
  destruct (IH (<[HardwareAddr (backfill l) := Num (backfill l)]> hw)
               (<[Num (backfill l) := backfill l]> ips)) as [IH1 IH2].
  split.
  - intros k. rewrite IH1, fmap_cons, filter_cons.
    destruct (decide (Num (backfill l) = k)) as [<-|Hne].
    + rewrite last_cons, lookup_insert_eq. by destruct (last _).
    + rewrite lookup_insert_ne by done. done.
  - intros a. rewrite IH2, fmap_cons, filter_cons.
    destruct (decide (HardwareAddr (backfill l) = a)) as [<-|Hne].
    + rewrite last_cons, lookup_insert_eq. by destruct (last _).
    + rewrite lookup_insert_ne by done. done.
Qed.

Lemma SetLeases_Done leases w :
  SetLeases leases w
  = Done tt (with_hdl (set_leasesIP (restore leases ∅ ∅).2
                         (set_leasesHW (restore leases ∅ ∅).1 (hdl w))) w).
Proof.
  unfold SetLeases. destruct (restore leases ∅ ∅) as [hw ips]. reflexivity.
Qed.

(** X22: [SetLeases] always returns and replaces both indices:
    under an offset [leasesIP] holds the last lease of the list with that
    [Num], [leasesHW] maps a hardware address to the [Num] of the last lease
    of the list with that address, each lease with a zero [LastACK] set to
    its expiry; nothing of the previous database is left, and the
    configuration, the observer's log and the wire are untouched. *)
Theorem SetLeases_replaces_database leases w :
  ∃ w',
    SetLeases leases w = Done tt w'
    ∧ (∀ k, leasesIP (hdl w') !! k
            = last (filter (λ l, Num l = k) (backfill <$> leases)))
    ∧ (∀ a, leasesHW (hdl w') !! a
            = Num <$> last (filter (λ l, HardwareAddr l = a) (backfill <$> leases)))
    ∧ start (hdl w') = start (hdl w) ∧ leaseRange (hdl w') = leaseRange (hdl w)
    ∧ staticLeases (hdl w') = staticLeases (hdl w)
    ∧ reservedOffsets (hdl w') = reservedOffsets (hdl w)
    ∧ published w' = published w ∧ sent w' = sent w.
Proof.
  eexists. split; [apply SetLeases_Done|]. simpl.
  destruct (restore_lookup leases ∅ ∅) as [H1 H2].
  split; [|split; [|done]].
  - intros k. rewrite H1, lookup_empty. by destruct (last _).
  - intros a. rewrite H2, lookup_empty. by destruct (last _).
Qed.

Lemma filter_absent {A B} `{EqDecision B} (f : A → B) (xs : list A) b :
  b ∉ f <$> xs → filter (λ y, f y = b) xs = [].
Proof.
  induction xs as [|y r IH]; intros Hb; [done|].
  rewrite fmap_cons in Hb. apply not_elem_of_cons in Hb as [Hne Hb].
  rewrite filter_cons, decide_False by done. by apply IH.
Qed.

Lemma filter_unique {A B} `{EqDecision B} (f : A → B) (xs : list A) x :
  NoDup (f <$> xs) → x ∈ xs → filter (λ y, f y = f x) xs = [x].
Proof.
  induction xs as [|y r IH]; intros Hnd Hin; [by apply elem_of_nil in Hin|].
  rewrite fmap_cons in Hnd. apply NoDup_cons in Hnd as [Hy Hnd].
  rewrite filter_cons.
  apply elem_of_cons in Hin as [<-|Hin].
  - rewrite decide_True by done. f_equal. by apply filter_absent.
  - rewrite decide_False; [by apply IH|].
    intros E. apply Hy. rewrite E. by apply list_elem_of_fmap_2.
Qed.

Lemma last_filter_elem {A} (P : A → Prop) `{∀ x, Decision (P x)} (xs : list A) x :
  last (filter P xs) = Some x → x ∈ xs ∧ P x.
Proof.
  intros Hl. apply last_Some in Hl as [pre Hl].
  assert (Hin : x ∈ filter P xs) by (rewrite Hl; apply elem_of_app; right; apply list_elem_of_here).
  by apply list_elem_of_filter in Hin as [? ?].
Qed.

(** X23: restoring leases that lie in the pool and have
    pairwise different hardware addresses gives a database whose leases lie
    in the pool and are indexed; when their offsets are pairwise different
    too, every client of the list holds its lease. *)
Theorem SetLeases_restores_invariants leases w w' :
  Forall (lease_wf (hdl w)) leases →
  NoDup (HardwareAddr <$> leases) →
  SetLeases leases w = Done tt w' →
  pool_ok (hdl w') ∧ indexed (hdl w')
  ∧ (NoDup (Num <$> leases) →
     ∀ l, l ∈ leases → heldBy (hdl w') (HardwareAddr l) = Some (backfill l)).
Proof.
  intros Hwf Hnd H.
  split; [by eapply SetLeases_pool_ok|].
  rewrite SetLeases_Done in H. injection H as <-. simpl.
  destruct (restore_lookup leases ∅ ∅) as [H1 H2].
  assert (Hnd' : NoDup (HardwareAddr <$> (backfill <$> leases))).
  { rewrite <- list_fmap_compose.
    erewrite list_fmap_ext; [exact Hnd|].
    intros i l _. simpl. by destruct (backfill_fields l) as (_ & _ & ? & _). }
  assert (Hhw : ∀ l, l ∈ backfill <$> leases →
                     (restore leases ∅ ∅).1 !! HardwareAddr l = Some (Num l)).
  { intros l Hin. rewrite H2.
    by rewrite (filter_unique HardwareAddr _ l Hnd' Hin). }
  split.
  - intros k l Hk. simpl in Hk. rewrite H1, lookup_empty in Hk.
    destruct (last _) as [l0|] eqn:Hlast; [|done]. injection Hk as ->.
    apply last_filter_elem in Hlast as [Hin HN].
    split; [done|]. simpl. rewrite <- HN. by apply Hhw.
  - intros HndN l Hin. apply heldBy_Some. simpl.
    destruct (backfill_fields l) as (HN & _ & HH & _).
    assert (Hin' : backfill l ∈ backfill <$> leases) by (by apply list_elem_of_fmap_2).
    assert (HndN' : NoDup (Num <$> (backfill <$> leases))).
    { rewrite <- list_fmap_compose.
      erewrite list_fmap_ext; [exact HndN|].
      intros i l0 _. simpl. by destruct (backfill_fields l0) as (? & _). }
    exists (Num l). split.
    + rewrite <- HH, <- HN. by apply Hhw.
    + split; [|done]. rewrite H1, <- HN.
      by rewrite (filter_unique Num _ (backfill l) HndN' Hin').
Qed.

(** ** NewHandler *)

Lemma parse_dns_spec (ParseIP : string → option IP) dns acc :
  match parse_dns ParseIP dns acc with
  | inr bs =>
      ∃ ips, Forall2 (λ s a, ParseIP s = Some a) dns ips
             ∧ bs = acc ++ concat (To4 <$> ips)
  | inl e =>
      ∃ pre s post,
        dns = pre ++ s :: post ∧ Forall (λ s, is_Some (ParseIP s)) pre
        ∧ ParseIP s = None ∧ e = ("parse dns ip error invalid: " ++ s)%string
  end.
Proof.
  revert acc. induction dns as [|s r IH]; intros acc; simpl.
  - exists []. split; [constructor|]. by rewrite app_nil_r.
  - destruct (ParseIP s) as [a|] eqn:Hs.
    + specialize (IH (acc ++ To4 a)).
      destruct (parse_dns ParseIP r (acc ++ To4 a)) as [e|bs].
      * destruct IH as (pre & s' & post & -> & Hpre & Hs' & ->).
        exists (s :: pre), s', post. split; [done|]. split; [|done].
        constructor; [by rewrite Hs|done].
      * destruct IH as (ips & Hall & ->).
        exists (a :: ips). split; [by constructor|].
        simpl. by rewrite app_assoc.
    + exists [], s, r. by repeat split.
Qed.

Lemma add_static_spec startIP sls acc :
  match add_static startIP sls acc with
  | None => Exists (λ sl, IPRange startIP (sl_Addr sl) = None) sls
  | Some acc' =>
      Forall (λ sl, is_Some (IPRange startIP (sl_Addr sl))) sls
      ∧ ∀ key, acc'.1 !! key
               = match last (filter (λ sl, ToLower (sl_HardwareAddr sl) = key) sls) with
                 | Some sl => Some sl
                 | None => acc.1 !! key
                 end
  end.
Proof.
  revert acc. induction sls as [|sl r IH]; intros acc; simpl; [by split|].
  destruct (IPRange startIP (sl_Addr sl)) as [i|] eqn:Hi; [|by constructor].
  specialize (IH (<[ToLower (sl_HardwareAddr sl) := sl]> acc.1, {[i]} ∪ acc.2)).
  destruct (add_static startIP r _) as [acc'|]; [|by apply Exists_cons_tl].
  destruct IH as [Hall Hlook]. split; [constructor; [by rewrite Hi|done]|].
  intros key. rewrite Hlook, filter_cons. simpl.
  destruct (decide (ToLower (sl_HardwareAddr sl) = key)) as [<-|Hne].
  - rewrite last_cons, lookup_insert_eq. by destruct (last _).
  - by rewrite lookup_insert_ne.
Qed.

(** X24: [NewHandler] fails on the first DNS server that does not
    parse, before it looks at the static leases; else it panics when a
    static lease has an address for which [dhcp4.IPRange] panics; else it
    builds a handler with an empty database, the production clock, the
    addresses in their four-byte form, and the options subnet mask, router,
    server identifier and DNS servers, the latter being the four-byte forms
    of the parsed servers in order. *)
Theorem NewHandler_outcome (ParseIP : string → option IP) serverIP0 startIP0 netMask0 range period dns statics :
  match NewHandler ParseIP serverIP0 startIP0 netMask0 range period dns statics with
  | Failed e =>
      ∃ pre s post,
        dns = pre ++ s :: post ∧ Forall (λ s, is_Some (ParseIP s)) pre
        ∧ ParseIP s = None ∧ e = ("parse dns ip error invalid: " ++ s)%string
  | Crashed =>
      Forall (λ s, is_Some (ParseIP s)) dns
      ∧ Exists (λ sl, IPRange (To4 startIP0) (sl_Addr sl) = None) statics
  | Built h =>
      (∃ ips, Forall2 (λ s a, ParseIP s = Some a) dns ips
              ∧ options h !! OptionDomainNameServer = Some (concat (To4 <$> ips)))
      ∧ Forall (λ sl, is_Some (IPRange (To4 startIP0) (sl_Addr sl))) statics
      ∧ options h !! OptionSubnetMask = Some (To4 netMask0)
      ∧ options h !! OptionRouter = Some (To4 serverIP0)
      ∧ options h !! OptionServerIdentifier = Some (To4 serverIP0)
      ∧ serverIP h = To4 serverIP0 ∧ start h = To4 startIP0
      ∧ leaseRange h = range ∧ LeasePeriod h = period ∧ timeNow h = None
      ∧ leasesHW h = ∅ ∧ leasesIP h = ∅
  end.
Proof.
  unfold NewHandler.
  pose proof (parse_dns_spec ParseIP dns []) as Hdns.
  destruct (parse_dns ParseIP dns []) as [e|bs]; [exact Hdns|].
  destruct Hdns as (ips & Hall & ->).
  pose proof (add_static_spec (To4 startIP0) statics (∅, ∅)) as Hst.
  destruct (add_static (To4 startIP0) statics (∅, ∅)) as [[m res]|].
  - destruct Hst as [Hst _]. simpl.
    split; [exists ips; split; [done|]|by repeat split].
    rewrite lookup_insert_ne by done. rewrite lookup_insert_ne by done.
    by rewrite lookup_insert_eq.
  - split; [|done].
    clear -Hall. induction Hall as [|s a dns ips Hs _ IH]; constructor; [by rewrite Hs|done].
Qed.

Lemma is_upper_hexDigit b :
  is_upper (hexDigit (Z.shiftr (byteZ b) 4)) = false
  ∧ is_upper (hexDigit (Z.land (byteZ b) 15)) = false.
Proof. destruct b; vm_compute; auto. Qed.

Lemma ToLower_hwString first a :
  ToLower (hwString_from first a) = hwString_from first a.
Proof.
  revert first. induction a as [|b r IH]; intros first; [done|].
  destruct (is_upper_hexDigit b) as [H1 H2].
  destruct first; simpl; rewrite H1, H2, IH; reflexivity.
Qed.

Lemma isASCII_hexDigit b :
  (nat_of_ascii (hexDigit (Z.shiftr (byteZ b) 4)) <? 128)%nat = true
  ∧ (nat_of_ascii (hexDigit (Z.land (byteZ b) 15)) <? 128)%nat = true.
Proof. destruct b; vm_compute; auto. Qed.

(** The text of a hardware address is ASCII: on it [strings.ToLower] takes
    its ASCII path. *)
Lemma isASCII_hwString first a : isASCII (hwString_from first a) = true.
Proof.
  revert first. induction a as [|b r IH]; intros first; [done|].
  destruct (isASCII_hexDigit b) as [H1 H2].
  specialize (IH false). unfold isASCII in *.
  destruct first; simpl; rewrite H1, H2; simpl; exact IH.
Qed.

(** X25: the reserved offsets of the handler [NewHandler] builds are the
    values of [dhcp4.IPRange(start, addr)] over the static leases.  When
    the hardware addresses of the configuration are written in ASCII, where
    [strings.ToLower] is [ToLower], the handler maps a key to the last
    static lease of the configuration whose hardware address is the key up
    to the case of its letters; and the lookup DISCOVER makes for a client,
    by the lower-cased text of its [chaddr], finds a static lease for that
    client whenever the configuration has one, in whatever case it is
    written. *)
Theorem NewHandler_static_leases (ParseIP : string → option IP) serverIP0 startIP0 netMask0 range period dns
    statics h :
  NewHandler ParseIP serverIP0 startIP0 netMask0 range period dns statics = Built h →
  (∀ i, i ∈ reservedOffsets h
        ↔ ∃ sl, sl ∈ statics ∧ IPRange (To4 startIP0) (sl_Addr sl) = Some i)
  ∧ (Forall (λ sl, isASCII (sl_HardwareAddr sl) = true) statics →
     (∀ key, staticLeases h !! key
             = last (filter (λ sl, ToLower (sl_HardwareAddr sl) = key) statics))
     ∧ (∀ sl mac, sl ∈ statics →
                  ToLower (sl_HardwareAddr sl) = HardwareAddr_String mac →
                  ∃ sl', staticLeases h !! ToLower (HardwareAddr_String mac) = Some sl'
                         ∧ sl' ∈ statics
                         ∧ ToLower (sl_HardwareAddr sl') = HardwareAddr_String mac)).
Proof.
  unfold NewHandler. intros H.
  destruct (parse_dns ParseIP dns []) as [e|bs]; [done|].
  pose proof (add_static_spec (To4 startIP0) statics (∅, ∅)) as Hst.
  pose proof (add_static_reserved (To4 startIP0) statics (∅, ∅)) as Hres.
  destruct (add_static (To4 startIP0) statics (∅, ∅)) as [[m res]|]; [|done].
  injection H as <-. simpl. destruct Hst as [_ Hlook]. simpl in Hlook.
  assert (Hkey : ∀ key, m !! key
            = last (filter (λ sl, ToLower (sl_HardwareAddr sl) = key) statics)).
  { intros key. rewrite Hlook, lookup_empty. by destruct (last _). }
  split.
  { intros i. rewrite (Hres (m, res) eq_refl i). simpl. rewrite elem_of_empty.
    split; [by intros [?|?]|auto]. }
  intros _. split; [exact Hkey|].
  intros sl mac Hin Hmac.
  unfold HardwareAddr_String. rewrite ToLower_hwString. fold (HardwareAddr_String mac).
  rewrite Hkey.
  destruct (last (filter (λ sl0, ToLower (sl_HardwareAddr sl0) = HardwareAddr_String mac)
                    statics)) as [sl'|] eqn:Hlast.
  - exists sl'. split; [done|].
    by apply last_filter_elem in Hlast as [? ?].
  - exfalso. apply last_None in Hlast.
    assert (Hin' : sl ∈ filter (λ sl0, ToLower (sl_HardwareAddr sl0)
                                       = HardwareAddr_String mac) statics)
      by (by apply list_elem_of_filter).
    rewrite Hlast in Hin'. by apply elem_of_nil in Hin'.
Qed.

(** ** The lease period, whatever the order of the table *)

(** X26: whatever the order of the Vendor Prefix Table,
    [leasePeriodForDevice] returns one hour or the configured default, and
    it departs from the default only for the text of a 6-byte MAC whose
    first three bytes are an entry of the table. *)
Theorem leasePeriodForDevice_sound tbl h hw :
  (leasePeriodForDevice tbl h hw = 1 * Hour
   ∨ leasePeriodForDevice tbl h hw = LeasePeriod h)
  ∧ (leasePeriodForDevice tbl h hw ≠ LeasePeriod h → vendor_match tbl hw).
Proof.
  unfold leasePeriodForDevice.
  destruct (DecodeString (removeColons hw)) as [decoded|] eqn:Hdec; [|by split; auto].
  destruct (negb (length decoded =? 6)%nat) eqn:Hlen; [by split; auto|].
  apply negb_false_iff, Nat.eqb_eq in Hlen.
  destruct decoded as [|a [|b [|c [|d [|e [|f [|? ?]]]]]]]; try discriminate Hlen.
  simpl take.
  destruct ((_ <? _) && _) eqn:Hfound; [|by split; auto].
  split; [by left|]. intros _.
  apply andb_true_iff in Hfound as [_ Heq]. apply bool_decide_eq_true in Heq.
  exists a, b, c, d, e, f. split; [done|].
  unfold prefix_slice in Heq.
  destruct (tbl !! Z.to_nat _) as [[[x y] z]|] eqn:Hl; [|done].
  injection Heq as -> -> ->. by apply list_elem_of_lookup_2 in Hl.
Qed.

(** ** Serving without a panic *)

Lemma IPAdd_Some start0 n :
  is_Some (Uint32 (To4 start0)) → is_Some (IPAdd start0 n).
Proof. intros [s Hs]. unfold IPAdd. rewrite Hs. eauto. Qed.

Lemma discoverPreferred_Done p opts w :
  is_Some (Uint32 (To4 (start (hdl w)))) →
  ∃ n w', discoverPreferred p opts w = Done n w' ∧ quiet w w'.
Proof.
  intros Hstart. unfold discoverPreferred, bind, this.
  assert (H1 : ∃ f1 w1,
             match staticLeases (hdl w) !! ToLower (HardwareAddr_String (CHAddr p)) with
             | Some sl => canLease (sl_Addr sl) (HardwareAddr_String (CHAddr p))
             | None => ret (-1)
             end w = Done f1 w1 ∧ quiet w w1).
  { destruct (staticLeases (hdl w) !! _) as [sl|].
    - by apply canLease_Done.
    - exists (-1), w. split; [done|apply quiet_refl]. }
  destruct H1 as (f1 & w1 & -> & Q1).
  destruct ((f1 <? 0) && _).
  - destruct (canLease_Done
                match opts !! OptionRequestedIPAddress with
                | Some v => v
                | None => CIAddr p
                end (HardwareAddr_String (CHAddr p)) w1) as (n & w' & -> & Q2).
    { destruct Q1 as (-> & _). done. }
    exists n, w'. split; [done|]. by eapply quiet_trans.
  - by exists f1, w1.
Qed.

Lemma offerPrevious_Done hw free w :
  ∃ n w', offerPrevious hw free w = Done n w' ∧ quiet w w'.
Proof.
  unfold offerPrevious, bind.
  destruct (heldBy (hdl w) hw) as [l|] eqn:Hheld.
  - rewrite (leaseHW_heldBy_Some _ _ _ Hheld).
    destruct (call_timeNow_Done w) as (w1 & -> & Q).
    destruct (negb (Expired l (peek_timeNow w))); by eexists _, _.
  - destruct (leaseHW_heldBy_None _ _ Hheld) as [o ->].
    exists free, w. split; [by destruct o|apply quiet_refl].
Qed.

Lemma offerOrSearch_Done tbl h p opts free w :
  is_Some (Uint32 (To4 (start h))) →
  ∃ r w', offerOrSearch tbl h p opts free w = Done r w' ∧ quiet w w'.
Proof.
  intros Hstart. unfold offerOrSearch, bind.
  assert (H1 : ∃ n w1, (if free =? -1 then findLease else ret free) w = Done n w1
                       ∧ quiet w w1).
  { destruct (free =? -1).
    - destruct (findLease_Done w) as (n & w1 & ? & ? & _). eauto.
    - exists free, w. split; [done|apply quiet_refl]. }
  destruct H1 as (n & w1 & -> & Q).
  destruct (n =? -1); [by eexists _, _|].
  destruct (IPAdd_Some (start h) n Hstart) as [a ->]. simpl.
  by eexists _, _.
Qed.

Lemma serveDHCP_Done tbl p msgType opts w :
  is_Some (Uint32 (To4 (start (hdl w)))) →
  ∃ r w', serveDHCP tbl p msgType opts w = Done r w'.
Proof.
  intros Hstart.
  destruct (decide (msgType = Discover)) as [->|HD].
  { rewrite serveDHCP_Discover_eq. unfold bind.
    destruct (discoverPreferred_Done p opts w Hstart) as (f1 & w1 & -> & Q1).
    destruct (offerPrevious_Done (HardwareAddr_String (CHAddr p)) f1 w1)
      as (f2 & w2 & -> & Q2).
    destruct (offerOrSearch_Done tbl (hdl w) p opts f2 w2 Hstart) as (r & w3 & -> & _).
    eauto. }
  destruct (decide (msgType = Request)) as [->|HR].
  { rewrite serveDHCP_Request_eq. cbv beta zeta iota delta [bind this].
    destruct (match opts !! OptionServerIdentifier with
              | Some server => negb (IP_Equal server (serverIP (hdl w)))
              | None => false
              end); [by eexists _, _|].
    destruct (canLease_Done (requested p opts) (HardwareAddr_String (CHAddr p)) w Hstart)
      as (n & w1 & -> & _).
    destruct (n =? -1); [by eexists _, _|].
    destruct (call_timeNow_Done w1) as (w2 & -> & _).
    destruct (call_timeNow_Done w2) as (w3 & -> & _).
    match goal with
    | |- context [inheritAndRelease ?l0 w3] =>
        destruct (inheritAndRelease_Done l0 w3) as (lease & w4 & -> & _)
    end.
    unfold update, callLeasesLocked, bind, this, ret, call_Leases. simpl.
    destruct (negb (Leases (hdl w4))); by eexists _, _. }
  destruct (decide (msgType = Decline)) as [->|HDe].
  { destruct (serveDHCP_Decline_Done tbl p opts w) as (w' & -> & _). eauto. }
  rewrite serveDHCP_other by done. eauto.
Qed.

Lemma serveDHCP_config tbl p msgType opts w r w' :
  serveDHCP tbl p msgType opts w = Done r w' →
  start (hdl w') = start (hdl w) ∧ leaseRange (hdl w') = leaseRange (hdl w)
  ∧ serverIP (hdl w') = serverIP (hdl w)
  ∧ reservedOffsets (hdl w') = reservedOffsets (hdl w)
  ∧ staticLeases (hdl w') = staticLeases (hdl w)
  ∧ timeNow (hdl w') = timeNow (hdl w)
  ∧ sent w' = sent w.
Proof.
  intros H.
  destruct (decide (msgType = Discover)) as [->|HD].
  { apply serveDHCP_Discover_quiet in H as (-> & _ & ->). done. }
  destruct (decide (msgType = Request)) as [->|HR].
  { apply serveDHCP_Request_effect in H
      as [[(-> & _ & ->) _]|(n & lease & _ & _ & _ & _ & _ & _ & _ & -> & _ & -> & _)];
      done. }
  destruct (decide (msgType = Decline)) as [->|HDe].
  { rewrite serveDHCP_Decline_eq in H.
    apply bind_Done in H as (b & w1 & Hexp & H). injection H as _ <-.
    apply expireLease_effect in Hexp
      as [(_ & -> & _)|(num & l & _ & _ & _ & _ & -> & _ & -> & _)]; done. }
  rewrite serveDHCP_other in H by done. by injection H as _ <-.
Qed.

(** X27: on a handler whose [start] is an IPv4 address, none of
    the panics of the lease logic is reached ([dhcp4.IPRange] and
    [dhcp4.IPAdd] on an address that is not IPv4, [rand.Intn] on a range
    that is not positive, a nil lease): [ServeDHCP] returns nil for every
    packet, message type and option table, and leaves [start] as it was. *)
Theorem serving_never_panics tbl p msgType opts w :
  is_Some (Uint32 (To4 (start (hdl w)))) →
  ∃ w', ServeDHCP tbl p msgType opts w = Done None w'
        ∧ is_Some (Uint32 (To4 (start (hdl w')))).
Proof.
  intros Hstart.
  destruct (serveDHCP_Done tbl p msgType opts w Hstart) as (r & w0 & H).
  pose proof (serveDHCP_config _ _ _ _ _ _ _ H) as (Hs & _).
  unfold ServeDHCP, bind. rewrite H.
  destruct r as [x|].
  - eexists. split; [reflexivity|]. simpl. by rewrite Hs.
  - exists w0. split; [done|]. by rewrite Hs.
Qed.

(** X28: [ServeDHCP] returns nil and writes at most one frame, the
    reply of [serveDHCP]: an OFFER for a DISCOVER, an ACK or a NAK for a
    REQUEST.  The frame goes to the broadcast MAC and 255.255.255.255 when
    the packet has the broadcast flag, else to the client's [chaddr] and,
    for an OFFER or an ACK, to the address it hands out.  A DISCOVER changes
    neither the database nor the observer's log; a message that is neither
    DISCOVER nor REQUEST sends and publishes nothing, and one that is not
    DECLINE either changes nothing at all. *)
Theorem ServeDHCP_frames tbl p msgType opts w r w' :
  ServeDHCP tbl p msgType opts w = Done r w' →
  r = None
  ∧ (sent w' = sent w
     ∨ ∃ f w0,
         sent w' = sent w ++ [f]
         ∧ serveDHCP tbl p msgType opts w = Done (Some (Payload f)) w0
         ∧ DstMAC f = (if Broadcast p then [xff; xff; xff; xff; xff; xff] else CHAddr p)
         ∧ (Broadcast p = true → DstIP f = IPv4bcast)
         ∧ (Broadcast p = false → replyType (Payload f) ≠ NAK →
            DstIP f = YIAddr (Payload f))
         ∧ (msgType = Discover ∧ replyType (Payload f) = Offer
            ∨ msgType = Request
              ∧ (replyType (Payload f) = ACK ∨ replyType (Payload f) = NAK)))
  ∧ (msgType = Discover → hdl w' = hdl w ∧ published w' = published w)
  ∧ (msgType ≠ Discover → msgType ≠ Request →
     sent w' = sent w ∧ published w' = published w)
  ∧ (msgType ≠ Discover → msgType ≠ Request → msgType ≠ Decline → w' = w).
Proof.
  intros H. pose proof H as H'.
  apply ServeDHCP_inv in H as (-> & r0 & w0 & H0 & Hh & Hp & _ & _ & _ & Hs).
  pose proof (serveDHCP_config _ _ _ _ _ _ _ H0) as (_ & _ & _ & _ & _ & _ & Hs0).
  rewrite Hs0 in Hs.
  split; [done|]. split; [|split; [|split]].
  - destruct r0 as [x|]; [|left; by rewrite app_nil_r in Hs].
    right. eexists _, w0. split; [exact Hs|]. simpl.
    split; [done|]. split; [done|].
    split; [by intros ->|]. split; [by intros ->|].
    destruct (decide (msgType = Discover)) as [->|HD].
    { left. split; [done|].
      by apply serveDHCP_Discover_offset in H0 as (n & _ & _ & ? & _). }
    destruct (decide (msgType = Request)) as [->|HR].
    { right. split; [done|].
      apply serveDHCP_Request_effect in H0
        as [[_ HN]|(n & lease & _ & _ & _ & _ & _ & _ & _ & _ & _ & _ & Hx)].
      - right. by apply HN.
      - left. by injection Hx as ->. }
    exfalso.
    destruct (decide (msgType = Decline)) as [->|HDe].
    { rewrite serveDHCP_Decline_eq in H0.
      apply bind_Done in H0 as (b & w1 & _ & H0). done. }
    rewrite serveDHCP_other in H0 by done. done.
  - intros ->. apply serveDHCP_Discover_quiet in H0 as (Qh & Qp & _).
    split; congruence.
  - intros HD HR.
    destruct (decide (msgType = Decline)) as [->|HDe].
    + destruct (serveDHCP_Decline_Done tbl p opts w) as (w1 & E & _ & Hp1 & _).
      rewrite E in H0. injection H0 as <- <-. simpl in Hs.
      rewrite app_nil_r in Hs. split; congruence.
    + rewrite serveDHCP_other in H0 by done. injection H0 as <- <-.
      simpl in Hs. rewrite app_nil_r in Hs. split; congruence.
  - intros HD HR HDe.
    unfold ServeDHCP, bind in H'. rewrite serveDHCP_other in H' by done.
    simpl in H'. unfold ret in H'. by injection H' as <-.
Qed.

(** ** The lease period on the wire, and the observer *)






(** C9, amended: while an observer is registered, [ServeDHCP] calls it
    exactly when it answers with an ACK, which only a REQUEST gets: once,
    with the leases of the new database and the lease it has just stored for
    the client, under its own offset and for the address asked for, also
    when that lease equals the one stored before.  Every other packet leaves
    the observer's log as it was and, unless it is a DECLINE, the handler
    too.  A [SetHostname] that succeeds stores the renamed lease and calls
    the observer once, with the new database and that lease; one that fails
    changes and publishes nothing.  A DECLINE never calls the observer, and
    the DECLINE of a client that holds a lease replaces the expiry of the
    stored lease all the same. *)
Theorem hand_out_and_rename_published tbl :
  (∀ w p msgType opts r w',
     Leases (hdl w) = true →
     ServeDHCP tbl p msgType opts w = Done r w' →
     ((∃ f, sent w' = sent w ++ [f] ∧ replyType (Payload f) = ACK)
      ∧ msgType = Request
      ∧ ∃ lease,
          heldBy (hdl w') (HardwareAddr_String (CHAddr p)) = Some lease
          ∧ leasesIP (hdl w') !! Num lease = Some lease
          ∧ Addr lease = requested p opts
          ∧ published w' = published w ++ [(snapshot (hdl w'), lease)])
     ∨ (¬ (∃ f, sent w' = sent w ++ [f] ∧ replyType (Payload f) = ACK)
        ∧ published w' = published w
        ∧ (msgType ≠ Decline → hdl w' = hdl w)))
  ∧ (∀ w hwaddr hostname e w',
       Leases (hdl w) = true →
       SetHostname hwaddr hostname w = Done e w' →
       (e = None
        ∧ ∃ lease,
            leasesIP (hdl w) !! default 0 (leasesHW (hdl w) !! hwaddr) = Some lease
            ∧ leasesIP (hdl w') !! default 0 (leasesHW (hdl w) !! hwaddr)
              = Some (set_HostnameOverride hostname (set_Hostname hostname lease))
            ∧ published w'
              = published w
                ++ [(snapshot (hdl w'),
                     set_HostnameOverride hostname (set_Hostname hostname lease))])
       ∨ (e = Some (no_valid_lease hwaddr)
          ∧ hdl w' = hdl w ∧ published w' = published w))
  ∧ (∀ w p opts r w',
       ServeDHCP tbl p Decline opts w = Done r w' → published w' = published w)
  ∧ (∀ w p opts l,
       heldBy (hdl w) (HardwareAddr_String (CHAddr p)) = Some l →
       ∃ n w',
         ServeDHCP tbl p Decline opts w = Done None w'
         ∧ leasesIP (hdl w) !! n = Some l
         ∧ leasesIP (hdl w') !! n = Some (set_Expiry (wallClock w (wallCalls w)) l)
         ∧ published w' = published w).
Proof.
  split; [|split; [|split]].
  - intros w p mt opts r w' Hobs H.
    apply ServeDHCP_inv in H as (_ & r0 & w0 & H0 & Hh & Hp & _ & _ & _ & Hs).
    pose proof (serveDHCP_config _ _ _ _ _ _ _ H0) as (_ & _ & _ & _ & _ & _ & Hs0).
    rewrite Hs0 in Hs. rewrite Hh, Hp.
    assert (Hquiet : (∀ x, r0 = Some x → replyType x ≠ ACK) →
                     ¬ (∃ f, sent w' = sent w ++ [f] ∧ replyType (Payload f) = ACK)).
    { intros Hno (f & Hf & Hack). rewrite Hs in Hf. apply app_inv_head in Hf.
      destruct r0 as [x|]; [|discriminate Hf].
      injection Hf as <-. simpl in Hack. by apply (Hno x). }
    destruct (decide (mt = Discover)) as [->|HD].
    { right. split.
      - apply Hquiet. intros x ->.
        apply serveDHCP_Discover_offset in H0 as (n & _ & _ & Hx & _).
        by rewrite Hx.
      - by apply serveDHCP_Discover_quiet in H0 as (? & ? & _). }
    destruct (decide (mt = Request)) as [->|HR].
    2:{ right. destruct (decide (mt = Decline)) as [->|HDe].
        - destruct (serveDHCP_Decline_Done tbl p opts w) as (w1 & E & _ & Hp1 & _).
          rewrite E in H0. injection H0 as <- <-.
          split; [by apply Hquiet|]. by split.
        - rewrite serveDHCP_other in H0 by done. injection H0 as <- <-.
          split; [by apply Hquiet|]. by split. }
    apply serveDHCP_Request_effect in H0
      as [[(Qh & Qp & _) HN]
         |(n & lease & _ & _ & _ & _ & HNum & HAddr & HHw & Hg & Hpub & _ & Hx)].
    + right. split; [|by split].
      apply Hquiet. intros x Hx. rewrite (HN x Hx). discriminate.
    + left. rewrite Hx in Hs. split; [eexists; split; [exact Hs|reflexivity]|].
      split; [done|]. exists lease. rewrite Hobs in Hpub.
      split; [|split; [|by split]].
      * rewrite Hg. unfold heldBy, granted. simpl.
        rewrite !lookup_insert_eq. unfold string_eqb.
        by rewrite bool_decide_eq_true_2.
      * rewrite Hg, HNum. unfold granted. simpl. apply lookup_insert_eq.
  - intros w hw name e w' Hobs H.
    apply SetHostname_effect in H
      as [(-> & Qh & Qp & _)|(lease & -> & Hl & _ & _ & Hh & Hp & _)].
    + by right.
    + left. split; [done|]. exists lease. rewrite Hobs in Hp.
      split; [done|]. split; [|done].
      rewrite Hh. simpl. apply lookup_insert_eq.
  - intros w p opts r w' H.
    apply ServeDHCP_inv in H as (_ & r0 & w0 & H0 & _ & -> & _).
    rewrite serveDHCP_Decline_eq in H0.
    apply bind_Done in H0 as (b & w1 & Hexp & H0). injection H0 as _ <-.
    apply expireLease_effect in Hexp
      as [(_ & -> & _)|(num & l & _ & _ & _ & _ & _ & Hp & _)]; done.
  - intros w p opts l Hheld.
    destruct (serveDHCP_Decline_held tbl p opts w l Hheld)
      as (n & w' & E & _ & Hl & Hh & Hp & _).
    exists n, w'. unfold ServeDHCP, bind. rewrite E.
    split; [done|]. split; [done|]. split; [|done].
    rewrite Hh. simpl. apply lookup_insert_eq.
Qed.

(** ** The properties on the scenarios *)

Lemma findLease_finds_free_offset_witness :
  (∃ w', findLease fresh_world = Done 2 w')
  ∧ (∃ w', findLease probe_world = Done 0 w').
Proof.
  split.
  - destruct (findLease_finds_free_offset fresh_world 0)
      as (n & w' & H & _ & Hdraw & _).
    + vm_compute. reflexivity.
    + vm_compute. split; [discriminate|reflexivity].
    + vm_compute. reflexivity.
    + vm_compute. reflexivity.
    + rewrite (Hdraw ltac:(vm_compute; reflexivity)) in H. exists w'. exact H.
  - destruct (findLease_finds_free_offset probe_world 1)
      as (n & w' & H & _ & _ & Hscan).
    + vm_compute. reflexivity.
    + vm_compute. split; [discriminate|reflexivity].
    + vm_compute. reflexivity.
    + vm_compute. reflexivity.
    + destruct (Hscan ltac:(vm_compute; reflexivity)) as (Hn0 & _ & _ & Hleast).
      assert (n = 0) as ->.
      { destruct (Z.eq_dec n 0) as [?|Hne]; [done|].
        specialize (Hleast 0 ltac:(lia) ltac:(lia)). vm_compute in Hleast.
        discriminate Hleast. }
      exists w'. exact H.
Defined.

Lemma canLease_never_takes_live_lease_witness :
  Expired leaseX_aging (peek_timeNow (leaseX_world aging_world)) = true.
Proof.
  destruct (canLease_never_takes_live_lease (ip 10 0 0 13) (HardwareAddr_String macY)
              (leaseX_world aging_world) 3
              (world_after (leaseX_world aging_world)
                 (canLease (ip 10 0 0 13) (HardwareAddr_String macY)
                    (leaseX_world aging_world)))
              leaseX_aging) as (H & _).
  - vm_compute. reflexivity.
  - discriminate.
  - vm_compute. reflexivity.
  - vm_compute. discriminate.
  - exact H.
Defined.

Lemma canLease_grants_witness :
  ∃ w', canLease (ip 10 0 0 13) (HardwareAddr_String macX) fresh_world = Done 3 w'.
Proof.
  destruct (canLease_grants (ip 10 0 0 13) (HardwareAddr_String macX) fresh_world 3)
    as (w' & H & _).
  - reflexivity.
  - vm_compute. reflexivity.
  - vm_compute. reflexivity.
  - lia.
  - vm_compute. reflexivity.
  - exists w'. exact H.
Defined.

Lemma canLease_refuses_witness :
  canLease (ip 0 0 0 0) (HardwareAddr_String macX) fresh_world = Done (-1) fresh_world
  ∧ ∃ w', canLease (ip 10 0 0 13) (HardwareAddr_String macY) (leaseX_world fresh_world)
          = Done (-1) w'.
Proof.
  split.
  - destruct (canLease_refuses (ip 0 0 0 0) (HardwareAddr_String macX) fresh_world)
      as [H _].
    apply H. right. vm_compute. reflexivity.
  - destruct (canLease_refuses (ip 10 0 0 13) (HardwareAddr_String macY)
                (leaseX_world fresh_world)) as [_ H].
    destruct (H 4) as (w' & Hw & _).
    + reflexivity.
    + vm_compute. reflexivity.
    + vm_compute. reflexivity.
    + right. right.
      exists (mkLease 3 (ip 10 0 0 13) "aa:bb:cc:00:00:01" "" "" (5000 + leasePeriod) 5000).
      split; [vm_compute; reflexivity|]. split; [vm_compute; discriminate|].
      vm_compute. reflexivity.
    + exists w'. exact Hw.
Defined.

Lemma canLease_panics_only_without_start_witness :
  ∃ n w', canLease (ip 10 0 0 13) (HardwareAddr_String macX) fresh_world = Done n w'.
Proof.
  destruct (canLease_panics_only_without_start (ip 10 0 0 13)
              (HardwareAddr_String macX) fresh_world) as [H _].
  destruct H as (n & w' & Hn & _).
  - vm_compute. eauto.
  - exists n, w'. exact Hn.
Defined.

Lemma indexed_singleton h n l :
  leasesIP h = {[n := l]} → Num l = n → leasesHW h !! HardwareAddr l = Some n →
  indexed h.
Proof.
  intros Hip HN Hhw k l0 Hk. rewrite Hip in Hk.
  apply lookup_singleton_Some in Hk as [<- <-]. done.
Qed.

Lemma request_touches_two_offsets_witness :
  ∃ n, IPAdd (start (hdl fresh_world)) n = Some (ip 10 0 0 13).
Proof.
  destruct (serveDHCP sample_prefixes (packet_of macX) Request
                      (requesting (ip 10 0 0 13)) fresh_world)
    as [[x|] w'|] eqn:E; try (vm_compute in E; discriminate E).
  assert (Hack : replyType x = ACK).
  { pose proof E as E'. vm_compute in E'. by injection E' as <- _. }
  destruct (request_touches_two_offsets sample_prefixes (packet_of macX)
              (requesting (ip 10 0 0 13)) fresh_world x w' E Hack)
    as (n & H & _).
  exists n. exact H.
Defined.

Lemma takeover_dispossesses_witness :
  Expired leaseX_aging (peek_timeNow (leaseX_world aging_world)) = true
  ∧ ∃ w', heldBy (hdl w') (HardwareAddr_String macX) = None.
Proof.
  destruct (serveDHCP sample_prefixes (packet_of macY) Request
                      (requesting (ip 10 0 0 13)) (leaseX_world aging_world))
    as [[x|] w'|] eqn:E; try (vm_compute in E; discriminate E).
  assert (Hack : replyType x = ACK).
  { pose proof E as E'. vm_compute in E'. by injection E' as <- _. }
  assert (Hn : leasesHW (hdl w') !! HardwareAddr_String (CHAddr (packet_of macY))
               = Some 3).
  { pose proof E as E'. vm_compute in E'. injection E' as _ <-. vm_compute. reflexivity. }
  destruct (takeover_dispossesses sample_prefixes (packet_of macY)
              (requesting (ip 10 0 0 13)) (leaseX_world aging_world) x w' 3
              leaseX_aging) as (H1 & H2 & _).
  - apply (indexed_singleton _ 3 leaseX_aging); vm_compute; reflexivity.
  - exact E.
  - exact Hack.
  - exact Hn.
  - vm_compute. reflexivity.
  - vm_compute. discriminate.
  - split; [exact H1|]. exists w'. exact H2.
Defined.

Lemma request_refused_when_taken_witness :
  ∃ w', serveDHCP sample_prefixes (packet_of macY) Request
                  (own_server_opts (ip 10 0 0 13)) (leaseX_world fresh_world)
        = Done (Some (ReplyPacket (packet_of macY) NAK
                        (serverIP (hdl (leaseX_world fresh_world))) [] 0 [])) w'.
Proof.
  destruct (request_refused_when_taken sample_prefixes (packet_of macY)
              (own_server_opts (ip 10 0 0 13)) (leaseX_world fresh_world) 4
              (mkLease 3 (ip 10 0 0 13) "aa:bb:cc:00:00:01" "" "" (5000 + leasePeriod) 5000))
    as (w' & H & _).
  - vm_compute. reflexivity.
  - reflexivity.
  - vm_compute. reflexivity.
  - vm_compute. reflexivity.
  - lia.
  - vm_compute. reflexivity.
  - vm_compute. discriminate.
  - vm_compute. reflexivity.
  - exists w'. exact H.
Defined.

Lemma request_stored_lease_witness :
  ∃ w' lease,
    heldBy (hdl w') (HardwareAddr_String macX) = Some lease
    ∧ HostnameOverride lease = "laptop"%string ∧ Hostname lease = "laptop"%string
    ∧ Expiry lease = 5000 + leasePeriod ∧ LastACK lease = 5000.
Proof.
  destruct (serveDHCP sample_prefixes (packet_of macX) Request
                      (requesting (ip 10 0 0 13)) renamed_world)
    as [[x|] w'|] eqn:E; try (vm_compute in E; discriminate E).
  assert (Hack : replyType x = ACK).
  { pose proof E as E'. vm_compute in E'. by injection E' as <- _. }
  destruct (request_stored_lease sample_prefixes (packet_of macX)
              (requesting (ip 10 0 0 13)) renamed_world x w' E Hack)
    as (lease & H1 & H2 & H3).
  exists w', lease. split; [exact H1|].
  change (heldBy (hdl renamed_world) (HardwareAddr_String (CHAddr (packet_of macX))))
    with (Some (mkLease 3 (ip 10 0 0 13) "aa:bb:cc:00:00:01" "laptop" "laptop"
                        (5000 + leasePeriod) 5000)) in H3.
  destruct H3 as (H3 & H4 & H5).
  split; [exact H3|]. split; [exact H4|]. split; [exact H5|exact H2].
Defined.

(** X is named laptop, Y is granted 10.0.0.11, then X renews with the
    hostname phone in option 12: its lease is still named laptop. *)
Lemma SetHostname_survives_renewal_witness :
  ∃ lease,
    heldBy (hdl renewed_world) (HardwareAddr_String macX) = Some lease
    ∧ Hostname lease = "laptop"%string ∧ HostnameOverride lease = "laptop"%string
    ∧ Addr lease = ip 10 0 0 13.
Proof.
  destruct (SetHostname_survives_renewal sample_prefixes (HardwareAddr_String macX)
              "laptop" (leaseX_world fresh_world) renamed_world renewed_world)
    as (lease & Hheld & Hn1 & Hn2).
  - vm_compute. eauto.
  - discriminate.
  - vm_compute. reflexivity.
  - apply (holding_serve sample_prefixes (HardwareAddr_String macX) renamed_world
             visited_world (packet_of macX) Request renewing_opts None renewed_world).
    + apply (holding_serve sample_prefixes (HardwareAddr_String macX) renamed_world
               renamed_world (packet_of macY) Request (requesting (ip 10 0 0 11)) None
               visited_world).
      * apply holding_refl.
      * vm_compute. reflexivity.
      * vm_compute. eauto.
    + vm_compute. reflexivity.
    + vm_compute. eauto.
  - exists lease. split; [exact Hheld|]. split; [exact Hn1|]. split; [exact Hn2|].
    assert (E : heldBy (hdl renewed_world) (HardwareAddr_String macX)
                = Some (mkLease 3 (ip 10 0 0 13) "aa:bb:cc:00:00:01" "laptop" "laptop"
                          (Expiry lease) (LastACK lease))).
    { rewrite Hheld. f_equal. vm_compute in Hheld. by injection Hheld as <-. }
    rewrite Hheld in E. by injection E as ->.
Defined.

Lemma permanent_lease_never_reclaimed_witness :
  ∃ n' w', findLease restored_world = Done n' w' ∧ n' ≠ 2.
Proof.
  destruct (findLease restored_world) as [n' w'|] eqn:E;
    [|vm_compute in E; discriminate E].
  destruct (permanent_lease_never_reclaimed restored_world 2
              (mkLease 2 (ip 10 0 0 12) "aa:bb:cc:00:00:12" "c" "" 0 0))
    as [_ H].
  - vm_compute. reflexivity.
  - reflexivity.
  - lia.
  - exists n', w'. split; [reflexivity|]. exact (H n' w' E).
Defined.

(** The restored database holds five leases; the client of the permanent
    one is offered its address, offset 2 of the pool. *)
Lemma replies_within_pool_witness :
  ∃ x w' n,
    serveDHCP sample_prefixes (packet_of macL) Discover ∅ restored_world
    = Done (Some x) w'
    ∧ YIAddr x = ip 10 0 0 12
    ∧ 0 <= n < 5 ∧ IPAdd (ip 10 0 0 10) n = Some (YIAddr x).
Proof.
  destruct (serveDHCP sample_prefixes (packet_of macL) Discover ∅ restored_world)
    as [[x|] w'|] eqn:E; try (vm_compute in E; discriminate E).
  destruct (replies_within_pool sample_prefixes (packet_of macL) Discover ∅
              restored_world x w') as (n & H1 & H2 & _).
  - apply pool_ok_in_pool.
    apply (SetLeases_pool_ok stored_leases fresh_world restored_world).
    + repeat constructor; vm_compute; try reflexivity; discriminate.
    + vm_compute. reflexivity.
  - exact E.
  - pose proof E as E'. vm_compute in E'. injection E' as <- _. discriminate.
  - exists x, w', n. split; [reflexivity|].
    split; [pose proof E as E'; vm_compute in E'; by injection E' as <- _|].
    split; [exact H1|exact H2].
Defined.

Lemma discover_offers_static_address_witness :
  ∃ x w', serveDHCP sample_prefixes (packet_of macP) Discover ∅ static_world
          = Done (Some x) w'
          ∧ YIAddr x = ip 10 0 0 12.
Proof.
  destruct (discover_offers_static_address sample_prefixes (packet_of macP) ∅
              static_world
              (mkStaticLease (ip 10 0 0 12) "aa:bb:cc:00:00:02" "printer") 2)
    as (w' & H & _).
  - vm_compute. reflexivity.
  - reflexivity.
  - vm_compute. reflexivity.
  - vm_compute. reflexivity.
  - lia.
  - vm_compute. reflexivity.
  - vm_compute. reflexivity.
  - eexists _, w'. split; [exact H|reflexivity].
Defined.

Lemma discover_database_full_witness :
  ∃ w', serveDHCP sample_prefixes (packet_of macX) Discover ∅ restored_world
        = Done None w'.
Proof.
  destruct (discover_database_full sample_prefixes (packet_of macX) ∅ restored_world)
    as (w' & H & _).
  - vm_compute. reflexivity.
  - vm_compute. reflexivity.
  - vm_compute. reflexivity.
  - vm_compute. discriminate.
  - exists w'. exact H.
Defined.

Lemma declined_address_is_free_witness :
  ∃ w' w'',
    serveDHCP sample_prefixes (packet_of macX) Decline ∅ (leaseX_world aging_world)
    = Done None w'
    ∧ canLease (ip 10 0 0 13) (HardwareAddr_String macY) w' = Done 3 w''.
Proof.
  apply (declined_address_is_free sample_prefixes (packet_of macX) ∅
           (leaseX_world aging_world) leaseX_aging 3 (ip 10 0 0 13)
           (HardwareAddr_String macY)).
  - vm_compute. reflexivity.
  - vm_compute. reflexivity.
  - vm_compute. reflexivity.
  - vm_compute. discriminate.
  - vm_compute. reflexivity.
  - reflexivity.
  - vm_compute. reflexivity.
  - vm_compute. reflexivity.
  - vm_compute. split; [discriminate|reflexivity].
Defined.

Lemma SetHostname_outcome_witness :
  ∃ w', SetHostname "aa:bb:cc:00:00:01" "laptop" (leaseX_world fresh_world)
        = Done None w'.
Proof.
  destruct (SetHostname_outcome "aa:bb:cc:00:00:01" "laptop" (leaseX_world fresh_world)
              (mkLease 3 (ip 10 0 0 13) "aa:bb:cc:00:00:01" "" "" (5000 + leasePeriod) 5000))
    as [_ H].
  - vm_compute. reflexivity.
  - destruct H as (w' & H & _).
    + reflexivity.
    + vm_compute. reflexivity.
    + exists w'. exact H.
Defined.

Lemma SetHostname_only_renames_witness :
  ∃ w', leasesHW (hdl w') = leasesHW (hdl (leaseX_world fresh_world)).
Proof.
  destruct (SetHostname "aa:bb:cc:00:00:01" "laptop" (leaseX_world fresh_world))
    as [e w'|] eqn:E; [|vm_compute in E; discriminate E].
  destruct (SetHostname_only_renames "aa:bb:cc:00:00:01" "laptop"
              (leaseX_world fresh_world) e w' E) as (H & _).
  exists w'. exact H.
Defined.

Lemma SetLeases_restores_invariants_witness :
  pool_ok (hdl restored_world) ∧ indexed (hdl restored_world).
Proof.
  destruct (SetLeases_restores_invariants stored_leases fresh_world restored_world)
    as (H1 & H2 & _).
  - repeat constructor; vm_compute; try reflexivity; discriminate.
  - apply (bool_decide_unpack _). vm_compute. exact I.
  - vm_compute. reflexivity.
  - split; [exact H1|exact H2].
Defined.

Lemma NewHandler_static_leases_witness :
  ∃ sl', staticLeases static_handler !! ToLower (HardwareAddr_String macP) = Some sl'
         ∧ ToLower (sl_HardwareAddr sl') = HardwareAddr_String macP.
Proof.
  destruct (NewHandler_static_leases (fun _ => None) (ip 10 0 0 1) (ip 10 0 0 10)
              (ip 255 255 255 0) 5 leasePeriod []
              [mkStaticLease (ip 10 0 0 12) "aa:bb:cc:00:00:02" "printer"]
              static_handler) as (_ & H).
  - vm_compute. reflexivity.
  - destruct H as (_ & H).
    + repeat constructor.
    + destruct (H (mkStaticLease (ip 10 0 0 12) "aa:bb:cc:00:00:02" "printer") macP)
        as (sl' & H1 & _ & H2).
      * apply list_elem_of_here.
      * vm_compute. reflexivity.
      * exists sl'. split; [exact H1|exact H2].
Defined.

Lemma leasePeriodForDevice_sound_witness :
  vendor_match sample_prefixes "00:17:ab:00:00:01".
Proof.
  destruct (leasePeriodForDevice_sound sample_prefixes (pool_handler None)
              "00:17:ab:00:00:01") as [_ H].
  apply H. vm_compute. discriminate.
Defined.

Lemma serving_never_panics_witness :
  ∃ w', ServeDHCP sample_prefixes (packet_of macX) Request (requesting (ip 10 0 0 13))
                  fresh_world = Done None w'.
Proof.
  destruct (serving_never_panics sample_prefixes (packet_of macX) Request
              (requesting (ip 10 0 0 13)) fresh_world) as (w' & H & _).
  - vm_compute. eauto.
  - exists w'. exact H.
Defined.

Lemma ServeDHCP_frames_witness :
  ∃ w', ServeDHCP sample_prefixes (packet_of macX) Discover ∅ fresh_world
        = Done None w'.
Proof.
  destruct (ServeDHCP sample_prefixes (packet_of macX) Discover ∅ fresh_world)
    as [r w'|] eqn:E; [|vm_compute in E; discriminate E].
  destruct (ServeDHCP_frames sample_prefixes (packet_of macX) Discover ∅
              fresh_world r w' E) as (-> & _).
  exists w'. reflexivity.
Defined.


(** X asks again for the address it holds: the handler is as it was, and
    the observer is called with the lease stored again. *)
Lemma hand_out_and_rename_published_witness :
  ∃ w' lease,
    ServeDHCP sample_prefixes (packet_of macX) Request (requesting (ip 10 0 0 13))
              (leaseX_world fresh_world) = Done None w'
    ∧ hdl w' = hdl (leaseX_world fresh_world)
    ∧ leasesIP (hdl w') !! Num lease = Some lease ∧ Addr lease = ip 10 0 0 13
    ∧ published w'
      = published (leaseX_world fresh_world) ++ [(snapshot (hdl w'), lease)].
Proof.
  destruct (ServeDHCP sample_prefixes (packet_of macX) Request
              (requesting (ip 10 0 0 13)) (leaseX_world fresh_world))
    as [[x|] w'|] eqn:E; try (vm_compute in E; discriminate E).
  destruct (hand_out_and_rename_published sample_prefixes) as [H _].
  destruct (H (leaseX_world fresh_world) (packet_of macX) Request
              (requesting (ip 10 0 0 13)) None w' eq_refl E)
    as [(_ & _ & lease & _ & Hl & Ha & Hp)|(Hno & _)].
  - exists w', lease. split; [reflexivity|].
    split; [vm_compute in E; injection E as <-; vm_compute; reflexivity|].
    split; [exact Hl|]. split; [exact Ha|exact Hp].
  - exfalso. apply Hno. vm_compute in E. injection E as <-.
    eexists. split; [vm_compute; reflexivity|reflexivity].
Defined.

(** ** The start of a network *)

Section RunProperties.

Variable net_Interface : Type.
Variable InterfaceByName : string → string + net_Interface.
Variable Addrs : net_Interface → string + list net_Addr.
Variable ParseIP : string → option IP.
Variable Contains : IPNet → IP → bool.
Variable Listen : net_Interface → option string.
Variable newUDP4BoundListener : string → string → option string.


Lemma convertStatic_elem sls sl :
  sl ∈ convertStatic ParseIP sls ↔
  ∃ c a, c ∈ sls ∧ ParseIP (config.IP c) = Some a
         ∧ sl = mkStaticLease (To4 a) (config.MacAddress c) (config.Name c).
Proof.
  induction sls as [|c r IH]; simpl.
  - split; [by intros ?%elem_of_nil|]. by intros (? & ? & ?%elem_of_nil & _).
  - destruct (ParseIP (config.IP c)) as [a|] eqn:Ha.
    + rewrite elem_of_cons, IH. split.
      * intros [->|(c' & a' & Hin & Hp & ->)].
        -- exists c, a. split; [apply list_elem_of_here|done].
        -- exists c', a'. split; [by apply list_elem_of_further|done].
      * intros (c' & a' & Hin & Hp & ->).
        apply elem_of_cons in Hin as [->|Hin].
        -- left. congruence.
        -- right. eauto.
    + rewrite IH. split.
      * intros (c' & a' & Hin & Hp & ->).
        exists c', a'. split; [by apply list_elem_of_further|done].
      * intros (c' & a' & Hin & Hp & ->).
        apply elem_of_cons in Hin as [->|Hin]; [congruence|eauto].
Qed.

Lemma parse_dns_fails dns acc s :
  s ∈ dns → ParseIP s = None → ∃ e, parse_dns ParseIP dns acc = inl e.
Proof.
  intros Hin Hs. pose proof (parse_dns_spec ParseIP dns acc) as H.
  destruct (parse_dns ParseIP dns acc) as [e|bs]; [eauto|].
  destruct H as (ips & Hall & _). exfalso.
  apply list_elem_of_lookup in Hin as [i Hi].
  destruct (Forall2_lookup_l _ _ _ _ _ Hall Hi) as (a & _ & Ha). congruence.
Qed.

Lemma add_static_fails startIP sls acc sl :
  sl ∈ sls → IPRange startIP (sl_Addr sl) = None → add_static startIP sls acc = None.
Proof.
  intros Hin Hr. pose proof (add_static_spec startIP sls acc) as H.
  destruct (add_static startIP sls acc) as [acc'|]; [|done].
  destruct H as [Hall _]. exfalso.
  rewrite Forall_forall in Hall. destruct (Hall _ Hin) as [? ?]. congruence.
Qed.

Lemma IPRange_None_l start0 stop : To4 start0 = [] → IPRange start0 stop = None.
Proof. intros H. unfold IPRange. rewrite H. by destruct (Uint32 (To4 stop)). Qed.

Lemma IPRange_None_r start0 stop : To4 stop = [] → IPRange start0 stop = None.
Proof. intros H. unfold IPRange. by rewrite H. Qed.

Lemma To4_idemp a : To4 (To4 a) = To4 a.
Proof.
  destruct (To4_cases a) as [H|H]; [by rewrite H|]. by apply To4_length4.
Qed.


(** X29: once the interface, its addresses, [start_ip], the
    matching network and the netmask are in order, [run] does not return
    the error of [NewHandler]: when the raw connection cannot be opened or
    a DNS server does not parse, the handler is nil and [run] panics on it;
    it panics as well, inside [NewHandler], when a static lease has an
    address that parses but is not IPv4, or when [start_ip] is not IPv4 and
    some static lease has an address that parses. *)
Theorem run_panics_when_NewHandler_fails conf lf w iface addrs startIP ipnet netmask :
  InterfaceByName (config.Interface conf) = inr iface →
  Addrs iface = inr addrs →
  ParseIP (config.StartIP conf) = Some startIP →
  matchIPNet Contains startIP addrs = Some ipnet →
  ParseIP (config.NetMask conf) = Some netmask →
  is_Some (Listen iface)
  ∨ (∃ s, s ∈ config.DNSServers conf ∧ ParseIP s = None)
  ∨ (∃ c a, c ∈ config.StaticLeases conf ∧ ParseIP (config.IP c) = Some a
            ∧ (To4 a = [] ∨ To4 startIP = [])) →
  run net_Interface InterfaceByName Addrs ParseIP Contains Listen
      newUDP4BoundListener conf lf w = Panicked.
Proof.
  intros Hif Hadd Hst Hnet Hmask Hcause.
  unfold run. rewrite Hif, Hadd, Hst, Hnet, Hmask. cbv zeta.
  unfold NewHandler_listening.
  destruct (Listen iface) as [e|] eqn:Hl; [done|].
  destruct Hcause as [[? ?]|[(s & Hin & Hs)|(c & a & Hin & Ha & Hnil)]]; [done| |].
  - unfold NewHandler.
    destruct (parse_dns_fails _ [] _ Hin Hs) as [e ->]. done.
  - unfold NewHandler.
    destruct (parse_dns ParseIP (config.DNSServers conf) []) as [e|bs]; [done|].
    rewrite (add_static_fails (To4 startIP) _ (∅, ∅)
               (mkStaticLease (To4 a) (config.MacAddress c) (config.Name c))); [done| |].
    + apply convertStatic_elem. eauto.
    + simpl. destruct Hnil as [H|H].
      * apply IPRange_None_r. by rewrite To4_idemp.
      * apply IPRange_None_l. by rewrite To4_idemp.
Qed.


End RunProperties.

Lemma run_panics_when_NewHandler_fails_witness :
  sample_run ["10.0.0.1"; "dns.example"]%string ∅ = Panicked.
Proof.
  apply (run_panics_when_NewHandler_fails unit (fun _ => inr tt)
           (fun _ => inr [AddrOther; AddrIPNet (mkIPNet (ip 10 0 0 1) (ip 255 255 255 0))])
           sample_ParseIP (fun _ _ => true) (fun _ => None) (fun _ _ => None)
           (sample_network ["10.0.0.1"; "dns.example"]%string) ∅ fresh_world tt
           [AddrOther; AddrIPNet (mkIPNet (ip 10 0 0 1) (ip 255 255 255 0))]
           (IPv4 x0a x00 x00 x0a) (mkIPNet (ip 10 0 0 1) (ip 255 255 255 0))
           (IPv4 xff xff xff x00)); try reflexivity.
  right. left. exists "dns.example"%string. split; [|reflexivity].
  simpl. apply list_elem_of_further, list_elem_of_here.
Defined.

